(** * Dendron tree utilities and sidebar resolution

    A shallow embedding of [packages/common-all/src/util/treeUtil.ts]
    (class [TreeUtils]) and of the sidebar resolver that accompanies it
    ([defaultSidebarItemsGenerator], [processSiderbar], [processSidebars],
    [getPriorityVaults]), followed by the properties established for them.

    Conventions of the embedding:
    - a JavaScript object used as a dictionary whose enumeration order is
      observable ([Object.values], [Object.entries]) is an association list
      in enumeration order; dictionaries that are only read and written by
      key ([child2parent], [notesLabelById]) are [gmap]s;
    - [undefined] is [None]; a value that can be [null] as well as
      [undefined] is a nested option;
    - a note dictionary is a plain object: a read [noteDict[key]] finds the
      dictionary's own property [key] or, failing that, the member of that
      name which every object inherits from [Object.prototype] ([member]);
    - a string is a sequence of UTF-16 code units below 256, one per
      character of Rocq's [string], compared unit by unit as [<] and [===]
      compare strings;
    - a function that can [throw] returns an [outcome]; recursion that
      follows the note graph (which may be cyclic) is driven by fuel, and
      [OutOfFuel] is kept apart from every exception. Where the recursion
      of the program does not end, the host ends it with a stack overflow
      error; the embedding leaves that error out, and such a call is
      [OutOfFuel] for every amount of fuel. *)

From Stdlib Require Import ZArith List String Ascii Bool Lia Permutation Sorted.
From stdpp Require Import base option gmap strings list.
Import ListNotations.

Local Open Scope string_scope.
Local Open Scope list_scope.

Set Warnings "-register-all".

(** ** JavaScript and lodash primitives *)

Module Js.

(** [s.split(sep)] for a one-character separator. *)
Fixpoint split (sep : ascii) (s : string) : list string :=
  match s with
  | EmptyString => [EmptyString]
  | String c rest =>
      if Ascii.eqb c sep then EmptyString :: split sep rest
      else match split sep rest with
           | [] => [String c EmptyString]
           | seg :: segs => String c seg :: segs
           end
  end.

(** [_.last(xs)] and [xs[xs.length - 1]]. *)
Fixpoint last {A} (xs : list A) : option A :=
  match xs with
  | [] => None
  | [x] => Some x
  | _ :: xs' => last xs'
  end.

(** The lower-case mapping of one code unit below 256: the letters [A] to
    [Z] and the upper-case letters of the Latin-1 supplement (192 to 222,
    the multiplication sign 215 excepted) move up by 32, every other unit
    is its own lower case. *)
Definition lowerCodeUnit (c : ascii) : ascii :=
  let n := nat_of_ascii c in
  if ((65 <=? n)%nat && (n <=? 90)%nat)
     || ((192 <=? n)%nat && (n <=? 222)%nat && negb (n =? 215)%nat)
  then ascii_of_nat (n + 32) else c.

(** [s.toLowerCase()]. *)
Fixpoint toLowerCase (s : string) : string :=
  match s with
  | EmptyString => EmptyString
  | String c rest => String (lowerCodeUnit c) (toLowerCase rest)
  end.

(** [s.startsWith(p)]. *)
Definition startsWith (s p : string) : bool := String.prefix p s.

(** [a.localeCompare(b)]. The collation is the host's and not part of the
    program; it is taken to be the order of the code units, with which the
    host agrees on names made of lower-case ASCII letters. For other names
    (upper case, accents) the host may order two siblings the other way
    round. *)
Definition localeCompare (a b : string) : comparison := String.compare a b.

(** [xs.join(",")], the conversion a template literal applies to an array. *)
Definition join (xs : list string) : string := String.concat "," xs.

(** lodash's [compareAscending] on values of one primitive type:
    [undefined] sorts after every defined value. *)
Definition compareAscending {A} (cmp : A → A → comparison)
    (value other : option A) : comparison :=
  match value, other with
  | Some v, Some o => cmp v o
  | None, Some _ => Gt
  | Some _, None => Lt
  | None, None => Eq
  end.

(** One step of lodash's [compareMultiple]: the first criterion that
    distinguishes the two objects decides. *)
Definition thenCompare (c1 c2 : comparison) : comparison :=
  match c1 with
  | Eq => c2
  | _ => c1
  end.

Section Sort.
Context {A : Type} (cmp : A → A → comparison).

Fixpoint insertSorted (x : A) (l : list A) : list A :=
  match l with
  | [] => [x]
  | y :: l' =>
      match cmp x y with
      | Gt => y :: insertSorted x l'
      | _ => x :: l
      end
  end.

(** [xs.sort(cmp)] and the ordering step of [_.sortBy]: both are stable,
    so elements that compare equal keep their input order. *)
Definition sort (l : list A) : list A := foldr insertSorted [] l.
End Sort.

(** [[...new Set(xs)]]: the first occurrence of each element, in order. *)
Fixpoint uniq (xs : list string) : list string :=
  match xs with
  | [] => []
  | x :: xs' => x :: List.filter (fun y => negb (String.eqb y x)) (uniq xs')
  end.

(** [xs.splice(xs.indexOf(x), 1)] for an [x] that occurs in [xs]. *)
Fixpoint removeFirst (x : string) (xs : list string) : list string :=
  match xs with
  | [] => []
  | y :: xs' => if String.eqb y x then xs' else y :: removeFirst x xs'
  end.

Definition dquote : string := String (ascii_of_nat 34) EmptyString.
Definition backtick : string := String (ascii_of_nat 96) EmptyString.

End Js.

(** ** Errors and control flow *)

Inductive ERROR_STATUS := DOES_NOT_EXIST | INVALID_CONFIG.

Record DendronError := mkDendronError {
  message : string;
  status : option ERROR_STATUS;
  payload : option (list string)
}.

Definition createFromStatus (msg : string) (st : ERROR_STATUS) : DendronError :=
  mkDendronError msg (Some st) None.

(** What a [throw] carries, and what a [Result] holds as its error: a
    [DendronError], or the [TypeError] the runtime raises when a property
    of [undefined] is read. *)
Inductive Thrown :=
| ThrowDendron (e : DendronError)
| ThrowTypeError.

Inductive outcome (A : Type) :=
| Done (a : A)
| Throw (e : Thrown)
| OutOfFuel.
Arguments Done {A} a.
Arguments Throw {A} e.
Arguments OutOfFuel {A}.

#[global] Instance outcome_ret : MRet outcome := fun _ a => Done a.
#[global] Instance outcome_bind : MBind outcome := fun _ _ f m =>
  match m with
  | Done a => f a
  | Throw e => Throw e
  | OutOfFuel => OutOfFuel
  end.

#[global] Instance outcome_fmap : FMap outcome := fun _ _ f m =>
  match m with
  | Done a => Done (f a)
  | Throw e => Throw e
  | OutOfFuel => OutOfFuel
  end.

(** neverthrow's [Result]. *)
Inductive Result (E A : Type) :=
| ok (a : A)
| err (e : E).
Arguments ok {E A} a.
Arguments err {E A} e.

(** [Result.combine]: the values of all results, or the first error. *)
Fixpoint combine {E A} (rs : list (Result E A)) : Result E (list A) :=
  match rs with
  | [] => ok []
  | ok a :: rs' =>
      match combine rs' with
      | ok l => ok (a :: l)
      | err e => err e
      end
  | err e :: _ => err e
  end.

(** ** Data model *)

Record DVault := mkVault {
  vault_name : option string;
  fsPath : string
}.

(** The front matter fields the code reads from [note.custom]. *)
Record Custom := mkCustom {
  nav_order : option Z;
  nav_exclude : option bool;
  sort_order : option string
}.

Record NoteProps := mkNote {
  note_id : string;
  note_fname : string;
  note_title : string;
  note_children : list string;
  note_vault : DVault;
  note_stub : bool;
  note_schema : bool;
  note_custom : option Custom;
  note_updated : Z
}.

(** [NotePropsByIdDict]: the own properties of the dictionary, in
    enumeration order. *)
Definition NotePropsByIdDict := list (string * NoteProps).

(** The note stored under [key], if the dictionary has such a property of
    its own. *)
Definition get (noteDict : NotePropsByIdDict) (key : string) : option NoteProps :=
  snd <$> List.find (fun kv => String.eqb (fst kv) key) noteDict.

(** The names of the members of [Object.prototype], which every plain
    object inherits. *)
Definition objectPrototype : list string :=
  [ "constructor"; "__defineGetter__"; "__defineSetter__"; "hasOwnProperty";
    "__lookupGetter__"; "__lookupSetter__"; "isPrototypeOf";
    "propertyIsEnumerable"; "toString"; "valueOf"; "__proto__";
    "toLocaleString" ].

Definition inherited (key : string) : bool :=
  existsb (String.eqb key) objectPrototype.

(** What the read [noteDict[key]] yields: the note stored under [key]; or,
    when there is none and [key] names a member of [Object.prototype], that
    member; or [undefined]. An inherited member is a function (for
    [__proto__], the prototype itself): it is neither [undefined] nor
    falsy, and none of the fields of a note is defined on it. *)
Inductive Member :=
| Own (note : NoteProps)
| Inherited
| NoMember.

Definition member (noteDict : NotePropsByIdDict) (key : string) : Member :=
  match get noteDict key with
  | Some note => Own note
  | None => if inherited key then Inherited else NoMember
  end.

(** The property key an id stands for when it indexes an object: the id
    itself, and the string [undefined] for an id that is [undefined]. *)
Definition propertyKey (id : option string) : string := default "undefined" id.

(** [Object.values(notes)]. *)
Definition values (noteDict : NotePropsByIdDict) : list NoteProps := map snd noteDict.

(** [note.custom?.nav_order]. *)
Definition custom_nav_order (note : NoteProps) : option Z :=
  c ← note_custom note; nav_order c.

(** Modelled from the spec: [PublishUtils.getPublishFM] is not part of the
    sources; it returns the note's front-matter-derived publish flags
    (navigation exclusion, sort order, explicit position), which live in
    [note.custom], and an object without them when there is none. *)
Definition getPublishFM (note : NoteProps) : Custom :=
  match note_custom note with
  | Some c => c
  | None => mkCustom None None None
  end.

(** The constants of [../constants] that the code compares paths with. *)
Definition TAGS_HIERARCHY_BASE : string := "tags".
Definition TAGS_HIERARCHY : string := TAGS_HIERARCHY_BASE +:+ ".".
Definition ROOT_KEYWORD : string := "*".

Inductive TreeMenuNodeIcon := bookOutlined | numberOutlined | plusOutlined.

Inductive TreeMenuNode := mkTreeMenuNode {
  key : string;
  tm_title : string;
  icon : option TreeMenuNodeIcon;
  hasTitleNumberOutlined : bool;
  vaultName : string;
  navExclude : bool;
  tm_children : list TreeMenuNode
}.

Record TreeMenu := mkTreeMenu {
  roots : list TreeMenuNode;
  child2parent : gmap string (option string);
  notesLabelById : gmap string string
}.

Inductive TreeViewItemLabelTypeEnum := label_title | label_filename.

Inductive TreeNode := mkTreeNode {
  fname : string;
  children : list TreeNode
}.

(** [WithPosition<T>]: the positional hints an item may carry. *)
Record Positional := mkPositional {
  position : option Z;
  pos_fname : option string;
  reverse : option bool
}.

Definition noPosition : Positional := mkPositional None None None.

(** [SidebarItem], as it exists at run time: the resolved variants, each
    possibly extended with positional hints. The id of an item and the id
    of a category's link are declared as strings; [resolveItemId] can hand
    back [undefined] for them (see there), hence the options. *)
Inductive SidebarItem :=
| ItemNote (id : option string) (label : option string) (pos : Positional)
| ItemCategory (label : option string) (items : list SidebarItem)
    (link : option string) (pos : Positional).

Definition Sidebar := list SidebarItem.
Definition Sidebars := list (string * Sidebar).

Inductive SidebarItemConfig :=
| ConfigNote (id : string) (label : string)
| ConfigAutogenerated (id : string)
| ConfigCategory (label : string) (items : list SidebarItemConfig) (link : string).

Definition SidebarConfig := list SidebarItemConfig.
Definition SidebarsConfig := list (string * SidebarConfig).

Inductive DuplicatePayload :=
| PayloadVaults (names : list string)
| PayloadVault (vault : option DVault).

Record DuplicateNoteBehavior := mkDuplicateNoteBehavior {
  dup_payload : DuplicatePayload
}.

(** ** The hierarchy toolkit and the tree menu builder: [TreeUtils] *)

Module TreeUtils.

(** *** [generateTreeData] *)

Section TreeMenu.
(** [VaultUtils.getName] is imported from [../vault], outside the sources. *)
Variable getName : DVault → string.
Variable noteDict : NotePropsByIdDict.

Definition itemToNote (item : SidebarItem) : Member :=
  let noteId :=
    match item with
    | ItemCategory _ _ link _ => link
    | ItemNote id _ _ => id
    end in
  member noteDict (propertyKey noteId).

Definition item_label (item : SidebarItem) : option string :=
  match item with
  | ItemNote _ label _ => label
  | ItemCategory label _ _ _ => label
  end.

Definition nodeIcon (note : NoteProps) : option TreeMenuNodeIcon :=
  if note_schema note then Some bookOutlined
  else if String.eqb (Js.toLowerCase (note_fname note)) TAGS_HIERARCHY_BASE
       then Some numberOutlined
  else if note_stub note then Some plusOutlined
  else None.

(** The own properties of the two dictionaries, each created as [{}], that
    every call of [itemToTreeMenuNode] within one sidebar shares and
    mutates. *)
Record Indexes := mkIndexes {
  ix_child2parent : gmap string (option string);
  ix_notesLabelById : gmap string string
}.

(** [notesLabelById[k] = title]: the assignment creates or replaces the
    property [k], except for the key [__proto__], whose inherited setter
    ignores a string. *)
Definition recordLabel (k title : string) (ix : Indexes) : Indexes :=
  if String.eqb k "__proto__" then ix
  else mkIndexes (ix_child2parent ix) (<[k := title]> (ix_notesLabelById ix)).

(** [if (child2parent[k] === undefined) child2parent[k] = parent]: for a
    key that names a member of [Object.prototype] the read finds that
    member, so nothing is ever recorded under such a key. *)
Definition recordParent (k : string) (parent : option string) (ix : Indexes)
    : Indexes :=
  match ix_child2parent ix !! k with
  | None =>
      if inherited k then ix
      else mkIndexes (<[k := parent]> (ix_child2parent ix)) (ix_notesLabelById ix)
  | Some _ => ix
  end.

(** [xs.map(f).filter(Boolean)] for an [f] that threads the indexes and may
    throw. *)
Definition mapItems
    (f : SidebarItem → Indexes → outcome (option TreeMenuNode * Indexes))
    : list SidebarItem → Indexes → outcome (list TreeMenuNode * Indexes) :=
  fix go (items : list SidebarItem) (ix : Indexes) :=
    match items with
    | [] => Done ([], ix)
    | item :: rest =>
        r ← f item ix;
        rs ← go rest (snd r);
        Done (match fst r with
              | Some node => node :: fst rs
              | None => fst rs
              end, snd rs)
    end.

(** For an inherited member, [note.schema] is [undefined] and the next
    test, [note.fname.toLowerCase()], reads a property of [undefined]. *)
Fixpoint itemToTreeMenuNode (sidebarItem : SidebarItem) (parent : option string)
    (ix : Indexes) : outcome (option TreeMenuNode * Indexes) :=
  match itemToNote sidebarItem with
  | NoMember => Done (None, ix)
  | Inherited => Throw ThrowTypeError
  | Own note =>
      let title := default (note_title note) (item_label sidebarItem) in
      let ix := recordLabel (note_id note) title ix in
      let fm := getPublishFM note in
      let treeMenuNode := fun children =>
        mkTreeMenuNode (note_id note) title (nodeIcon note)
          (Js.startsWith (note_fname note) TAGS_HIERARCHY)
          (getName (note_vault note))
          (default false (nav_exclude fm))
          children in
      let ix := recordParent (note_id note) parent ix in
      match sidebarItem with
      | ItemCategory _ items _ _ =>
          rs ← mapItems (fun item => itemToTreeMenuNode item (Some (note_id note)))
                 items ix;
          Done (Some (treeMenuNode (fst rs)), snd rs)
      | ItemNote _ _ _ => Done (Some (treeMenuNode []), ix)
      end
  end.

Definition buildSidebar (sidebar : Sidebar) : outcome TreeMenu :=
  rs ← mapItems (fun item => itemToTreeMenuNode item None) sidebar
         (mkIndexes ∅ ∅);
  Done (mkTreeMenu (fst rs) (ix_child2parent (snd rs)) (ix_notesLabelById (snd rs))).

(** [_.mapValues] builds the tree menu of every sidebar, in enumeration
    order, before the first one is picked. *)
Definition generateTreeData (sidebars : Sidebars) : outcome TreeMenu :=
  treeMenuMap ← mapM (fun kv => menu ← buildSidebar (snd kv); Done (fst kv, menu))
                  sidebars;
  Done (default (mkTreeMenu [] ∅ ∅) (head (map snd treeMenuMap))).
End TreeMenu.

(** *** [getAllParents] *)

(** The value the [while (parent)] test lets through: a non-empty string. *)
Definition truthyParent (parent : option (option string)) : option string :=
  match parent with
  | Some (Some p) => if String.eqb p "" then None else Some p
  | _ => None
  end.

(** The loop of [getAllParents]; one unit of fuel per test of its guard. *)
Fixpoint getAllParents_loop (fuel : nat) (child2parent : gmap string (option string))
    (parent : option (option string)) (activeNoteIds : list string)
    : option (list string) :=
  match fuel with
  | O => None
  | S fuel' =>
      match truthyParent parent with
      | Some p =>
          getAllParents_loop fuel' child2parent (child2parent !! p)
            (p :: activeNoteIds)
      | None => Some activeNoteIds
      end
  end.

Definition getAllParents (fuel : nat) (child2parent : gmap string (option string))
    (noteId : string) : option (list string) :=
  getAllParents_loop fuel child2parent (child2parent !! noteId) [].

(** *** [sortNotesAtLevel] *)

Record SortResult := mkSortResult {
  data : list string;
  error : option DendronError
}.

Section SortNotes.
(** lodash's [_.get] belongs to no source file. For an id that is a
    property of the dictionary, or that holds neither a dot nor a bracket,
    it reads [noteDict[noteId]]; any other id it parses as a property path
    ([a.title], [a["title"]]) and follows into the notes. [getByPath] stands
    for that last case: whether [_.get(noteDict, noteId)] is defined for an
    id with a dot or a bracket that is no property of [noteDict]. *)
Variable getByPath : NotePropsByIdDict → string → bool.
Variable noteDict : NotePropsByIdDict.
Variable labelType : option TreeViewItemLabelTypeEnum.

Definition hasPathSyntax (noteId : string) : bool :=
  existsb (fun c => Ascii.eqb c "." || Ascii.eqb c "[")%char
    (list_ascii_of_string noteId).

(** [_.get(noteDict, noteId) !== undefined]. *)
Definition isSafe (noteId : string) : bool :=
  match member noteDict noteId with
  | Own _ | Inherited => true
  | NoMember => hasPathSyntax noteId && getByPath noteDict noteId
  end.

(** The three iteratees handed to [_.sortBy]. Each guards the read of
    [noteDict[noteId]] with [?.], which lets an inherited member through:
    its fields are [undefined], and in the file name case [.split] is then
    called on [undefined]. *)
Definition byNavOrder (noteId : string) : option Z :=
  match member noteDict noteId with
  | Own n => custom_nav_order n
  | _ => None
  end.

Definition byLabel (noteId : string) : outcome (option string) :=
  match labelType with
  | Some label_filename =>
      match member noteDict noteId with
      | Own n => Done (Js.toLowerCase <$> Js.last (Js.split "." (note_fname n)))
      | Inherited => Throw ThrowTypeError
      | NoMember => Done None
      end
  | _ =>
      match member noteDict noteId with
      | Own n => Done (Some (Js.toLowerCase (note_title n)))
      | _ => Done None
      end
  end.

Definition byUpdated (noteId : string) : option Z :=
  match member noteDict noteId with
  | Own n => Some (note_updated n)
  | _ => None
  end.

(** The label of an id once [byLabel] has returned for it. *)
Definition labelOf (noteId : string) : option string :=
  match byLabel noteId with
  | Done label => label
  | _ => None
  end.

Definition compareNoteIds (a b : string) : comparison :=
  Js.thenCompare (Js.compareAscending Z.compare (byNavOrder a) (byNavOrder b))
    (Js.thenCompare
       (Js.compareAscending String.compare (labelOf a) (labelOf b))
       (Js.compareAscending Z.compare (byUpdated a) (byUpdated b))).

(** [_.sortBy(safeNoteIds, ...)]: the iteratees are applied to every id
    before any two ids are compared. *)
Definition sortBy (safeNoteIds : list string) : outcome (list string) :=
  _ ← mapM byLabel safeNoteIds;
  Done (Js.sort compareNoteIds safeNoteIds).

(** [out.find((noteId) => noteDict[noteId].fname === TAGS_HIERARCHY_BASE)]:
    the callback reads a property of [noteDict[noteId]] unguarded. *)
Fixpoint findTagsHierarchy (out : list string) : outcome (option string) :=
  match out with
  | [] => Done None
  | noteId :: rest =>
      match member noteDict noteId with
      | NoMember => Throw ThrowTypeError
      | Inherited => findTagsHierarchy rest
      | Own n =>
          if String.eqb (note_fname n) TAGS_HIERARCHY_BASE
          then Done (Some noteId)
          else findTagsHierarchy rest
      end
  end.

(** The bubble-down step applied to the sorted ids. *)
Definition bubbleDownTags (out : list string) : outcome (list string) :=
  maybeTagsHierarchy ← findTagsHierarchy out;
  match maybeTagsHierarchy with
  | Some t =>
      if String.eqb t "" then Done out
      else match member noteDict t with
           | NoMember => Throw ThrowTypeError
           | Inherited => Done (Js.removeFirst t out ++ [t])
           | Own n =>
               match custom_nav_order n with
               | None => Done (Js.removeFirst t out ++ [t])
               | Some _ => Done out
               end
           end
  | None => Done out
  end.

Definition sortNotesAtLevel (noteIds : list string) (reverse : option bool)
    : outcome SortResult :=
  let unsafeNoteIds := List.filter (fun noteId => negb (isSafe noteId)) noteIds in
  let safeNoteIds := List.filter isSafe noteIds in
  let error :=
    if (0 <? length unsafeNoteIds)%nat
    then Some (mkDendronError "Omitted sorting note ids not found in noteDict"
                 None (Some unsafeNoteIds))
    else None in
  out ← sortBy safeNoteIds;
  out ← bubbleDownTags out;
  match reverse with
  | Some true => Done (mkSortResult (rev out) error)
  | _ => Done (mkSortResult out error)
  end.
End SortNotes.

(** *** [createTreeFromEngine] *)

(** For a root id that names an inherited member, [note] is that member
    and [note.children.filter] reads a property of [undefined]. *)
Fixpoint createTreeFromEngine (fuel : nat) (allNotes : NotePropsByIdDict)
    (rootNoteId : string) : outcome TreeNode :=
  match fuel with
  | O => OutOfFuel
  | S fuel' =>
      match member allNotes rootNoteId with
      | Own note =>
          children ← mapM (createTreeFromEngine fuel' allNotes)
            (Js.sort Js.localeCompare
               (List.filter (fun child => negb (String.eqb child (note_id note)))
                  (note_children note)));
          let fnames := Js.split "." (note_fname note) in
          Done (mkTreeNode (default "" (Js.last fnames)) children)
      | Inherited => Throw ThrowTypeError
      | NoMember =>
          Throw (ThrowDendron
            (mkDendronError
               ("No note found in engine for " +:+ Js.dquote +:+ rootNoteId
                  +:+ Js.dquote)
               None None))
      end
  end.

(** *** [createTreeFromFileNames] *)

(** The [reduce] over the segments of one name: in the children
    [siblings] of the current object, find the child named by the first
    segment or push a fresh one, and continue inside it. The found child
    is updated in place, so it keeps its position. *)
Fixpoint reducePath (path : list string) (siblings : list TreeNode)
    : list TreeNode :=
  match path with
  | [] => siblings
  | segment :: rest =>
      (fix findOrPush (cs : list TreeNode) : list TreeNode :=
         match cs with
         | [] => [mkTreeNode segment (reducePath rest [])]
         | q :: cs' =>
             if String.eqb (fname q) segment
             then mkTreeNode (fname q) (reducePath rest (children q)) :: cs'
             else q :: findOrPush cs'
         end) siblings
  end.

Definition createTreeFromFileNames (fNames : list string) (rootNote : string)
    : TreeNode :=
  let result :=
    foldl (fun result name =>
             if negb (String.eqb name rootNote)
             then reducePath (Js.split "." name) result
             else result)
      [] fNames in
  mkTreeNode rootNote result.

(** *** [validateTreeNodes] *)

(** [RespV3<void>]: [{ data: undefined }] or [{ error }]. *)
Inductive RespV3 :=
| RespData
| RespError (e : DendronError).

Definition compareFname (a b : TreeNode) : comparison :=
  Js.localeCompare (fname a) (fname b).

Definition simpleError (msg : string) : DendronError := mkDendronError msg None None.

(** The [for] loop over [expectedTree.children.entries()], with
    [actualTree.children[idx]] read alongside. *)
Definition validateChildren (validate : TreeNode → TreeNode → option RespV3)
    (expectedFname : string)
    : list TreeNode → list TreeNode → option RespV3 :=
  fix go (expected actual : list TreeNode) :=
    match expected, actual with
    | value :: expected', actualChild :: actual' =>
        resp ← validate value actualChild;
        match resp with
        | RespError e =>
            Some (RespError (simpleError
              ("Mismatch at " +:+ expectedFname +:+ "'s children. "
                 +:+ message e +:+ ".")))
        | RespData => go expected' actual'
        end
    | _, _ => Some RespData
    end.

(** The recursion descends into the children after sorting them, so it is
    driven by fuel; [None] is the fuel running out. *)
Fixpoint validateTreeNodes_fuel (fuel : nat) (expectedTree actualTree : TreeNode)
    : option RespV3 :=
  match fuel with
  | O => None
  | S fuel' =>
      if negb (String.eqb (fname expectedTree) (fname actualTree))
      then Some (RespError (simpleError
             ("Fname differs. Expected: " +:+ Js.dquote +:+ fname expectedTree
                +:+ Js.dquote +:+ ". Actual " +:+ Js.dquote +:+ fname actualTree
                +:+ Js.dquote)))
      else
        let expectedSorted := Js.sort compareFname (children expectedTree) in
        let actualSorted := Js.sort compareFname (children actualTree) in
        if negb (length expectedSorted =? length actualSorted)%nat
        then
          let expectedChildren := map fname expectedSorted in
          let actualChildren := map fname actualSorted in
          Some (RespError (simpleError
            ("Mismatch at " +:+ fname expectedTree +:+ "'s children. Expected: "
               +:+ Js.dquote +:+ Js.join expectedChildren +:+ Js.dquote
               +:+ ". Actual " +:+ Js.dquote +:+ Js.join actualChildren
               +:+ Js.dquote)))
        else
          validateChildren (validateTreeNodes_fuel fuel') (fname expectedTree)
            expectedSorted actualSorted
  end.

Fixpoint height (t : TreeNode) : nat :=
  S (foldr (fun c h => Nat.max (height c) h) O (children t)).

(** Fuel equal to the height of the expected tree always suffices
    (lemma [validateTreeNodes_fuel_enough]). *)
Definition validateTreeNodes (expectedTree actualTree : TreeNode) : option RespV3 :=
  validateTreeNodes_fuel (height expectedTree) expectedTree actualTree.

End TreeUtils.

(** ** The sidebar resolver *)

Module Sidebars.

(** *** [defaultSidebarItemsGenerator] *)

Section Generator.
Variable notesById : NotePropsByIdDict.

Definition doesNotExist (sidebarId : string) : DendronError :=
  createFromStatus
    ("SidebarItem " +:+ Js.backtick +:+ sidebarId +:+ Js.backtick
       +:+ " does not exist")
    DOES_NOT_EXIST.

(** The id of the item is the one [resolveItem] left in it: the root
    keyword, the id of a note, or [undefined]. For an id that names an
    inherited member, [note] is that member and [note.children] is
    [undefined]. *)
Definition findHierarchySources (itemId : option string)
    : outcome (option (list string)) :=
  let isTopLevel := bool_decide (itemId = Some ROOT_KEYWORD) in
  if isTopLevel then
    Done (Some (map note_id
            (List.filter
               (fun note =>
                  if String.eqb (note_fname note) "root" then false
                  else
                    let hierarchyPath := Js.split "." (note_fname note) in
                    if (length hierarchyPath =? 1)%nat then true else false)
               (values notesById))))
  else
    match member notesById (propertyKey itemId) with
    | NoMember => Throw (ThrowDendron (doesNotExist (propertyKey itemId)))
    | Inherited => Done None
    | Own note => Done (Some (note_children note))
    end.

(** [generateSidebar]: the properties of [note] are read before the
    [if (!note)] test, so an id without a note raises a [TypeError]; so
    does an id that names an inherited member, whose [children] is
    [undefined]. *)
Fixpoint generateSidebar (fuel : nat) (noteIds : list string)
    : outcome (list SidebarItem) :=
  match fuel with
  | O => OutOfFuel
  | S fuel' =>
      maybeItems ← mapM
        (fun noteId =>
           match member notesById noteId with
           | NoMember | Inherited => Throw ThrowTypeError
           | Own note =>
               let fm := getPublishFM note in
               let children := note_children note in
               let hasChildren := (0 <? length children)%nat in
               let isCategory := hasChildren in
               let isNote := negb hasChildren in
               let positionalProps :=
                 mkPositional (nav_order fm) (Some (note_fname note))
                   (Some (match sort_order fm with
                          | Some o => String.eqb o "reverse"
                          | None => false
                          end)) in
               if isNote then
                 Done (Some (ItemNote (Some (note_id note)) (Some (note_title note))
                               positionalProps))
               else if isCategory then
                 items ← generateSidebar fuel' children;
                 Done (Some (ItemCategory (Some (note_title note)) items
                               (Some (note_id note)) positionalProps))
               else Done None
           end)
        noteIds;
      Done (omap (fun maybeSidebarItem => maybeSidebarItem) maybeItems)
  end.

Definition item_pos (item : SidebarItem) : Positional :=
  match item with
  | ItemNote _ _ pos => pos
  | ItemCategory _ _ _ pos => pos
  end.

(** The comparison [_.sortBy(items, ["position", "fname"])] induces. *)
Definition comparePositional (a b : SidebarItem) : comparison :=
  Js.thenCompare
    (Js.compareAscending Z.compare (position (item_pos a)) (position (item_pos b)))
    (Js.compareAscending String.compare
       (pos_fname (item_pos a)) (pos_fname (item_pos b))).

(** [({ position, fname, reverse, ...item }) => item]. *)
Definition stripPositional (item : SidebarItem) : SidebarItem :=
  match item with
  | ItemNote id label _ => ItemNote id label noPosition
  | ItemCategory label items link _ => ItemCategory label items link noPosition
  end.

(** The callback of the first [map] in [sortItems], with the recursive
    call of [sortItems] on the nested items written out. *)
Fixpoint sortCategory (item : SidebarItem) : SidebarItem :=
  match item with
  | ItemCategory label items link pos =>
      let sortedItems :=
        map stripPositional (Js.sort comparePositional (map sortCategory items)) in
      let sortedItems :=
        match reverse pos with
        | Some true => rev sortedItems
        | _ => sortedItems
        end in
      ItemCategory label sortedItems link pos
  | ItemNote _ _ _ => item
  end.

Definition sortItems (sidebarItems : list SidebarItem) : Sidebar :=
  let processedSidebarItems := map sortCategory sidebarItems in
  let sortedSidebarItems := Js.sort comparePositional processedSidebarItems in
  map stripPositional sortedSidebarItems.

(** [_.flow(generateSidebar, sortItems)(hierarchySource)]; a source that is
    [undefined] has no [map]. *)
Definition defaultSidebarItemsGenerator (fuel : nat) (itemId : option string)
    : outcome (list SidebarItem) :=
  hierarchySource ← findHierarchySources itemId;
  match hierarchySource with
  | Some noteIds => sortItems <$> generateSidebar fuel noteIds
  | None => Throw ThrowTypeError
  end.
End Generator.

(** *** [getPriorityVaults] *)

Definition getPriorityVaults (duplicateNoteBehavior : option DuplicateNoteBehavior)
    : option (list string) :=
  match dup_payload <$> duplicateNoteBehavior with
  | Some (PayloadVaults names) => Some (Js.uniq names)
  | Some (PayloadVault vault) =>
      match vault ≫= vault_name with
      | Some vaultName =>
          if String.eqb vaultName "" then None else Some [vaultName]
      | None => None
      end
  | None => None
  end.

(** *** [processSiderbar] *)

Section ProcessSidebar.
(** [DendronError.isDendronError] is imported from [./error], outside the
    sources: it tells which thrown values are handed back as they are. *)
Variable isDendronError : Thrown → bool.
Variable notes : NotePropsByIdDict.
Variable duplicateNoteBehavior : option DuplicateNoteBehavior.

(** [note.vault.name ?? note.vault.fsPath]. *)
Definition vaultKey (note : NoteProps) : string :=
  default (fsPath (note_vault note)) (vault_name (note_vault note)).

(** [new Map(entries)]: a later entry replaces an earlier one with the
    same key. *)
Definition newMap (entries : list (string * NoteProps)) : gmap string NoteProps :=
  foldl (fun m kv => <[fst kv := snd kv]> m) ∅ entries.

(** [[notes[sidebarId] ?? Object.values(notes).filter(...)].flat()]: what
    the read finds, a note or an inherited member, when it finds anything;
    the notes with that path otherwise. *)
Definition possibleNotes (sidebarId : string) : list Member :=
  match member notes sidebarId with
  | NoMember =>
      map Own
        (List.filter (fun note => String.eqb (note_fname note) sidebarId)
           (values notes))
  | found => [found]
  end.

(** The candidates that are notes. *)
Definition notesAmong (candidates : list Member) : list NoteProps :=
  omap (fun candidate =>
          match candidate with
          | Own note => Some note
          | _ => None
          end) candidates.

Definition selectByVault (candidates : list NoteProps) : option NoteProps :=
  let map := newMap (List.map (fun note => (vaultKey note, note)) candidates) in
  priorityVaults ← getPriorityVaults duplicateNoteBehavior;
  mjoin (head
    (List.map (fun vaultName => map !! vaultName)
       (List.filter (fun vaultName => bool_decide (is_Some (map !! vaultName)))
          priorityVaults))).

(** [note.id] of a candidate: [undefined] on an inherited member. *)
Definition candidateId (candidate : Member) : option string :=
  match candidate with
  | Own note => Some (note_id note)
  | _ => None
  end.

(** More than one candidate only comes out of the search by path, whose
    results are notes; [selectByVault] is handed those. *)
Definition resolveItemId (sidebarId : string) : outcome (option string) :=
  let candidates := possibleNotes sidebarId in
  let hasDuplicates := (1 <? length candidates)%nat in
  let note :=
    match (if hasDuplicates then selectByVault (notesAmong candidates) else None) with
    | Some n => Some (Own n)
    | None => head candidates
    end in
  match note with
  | None => Throw (ThrowDendron (doesNotExist sidebarId))
  | Some candidate => Done (candidateId candidate)
  end.

(** [xs.map(f).flat()] for an [f] that may throw: the elements are visited
    in order and the first exception ends the walk. *)
Definition flatMapM {A B} (f : A → outcome (list B)) : list A → outcome (list B) :=
  fix go (l : list A) :=
    match l with
    | [] => Done []
    | x :: l' =>
        first ← f x;
        others ← go l';
        Done (first ++ others)
    end.

(** [resolveItem] followed by the [switch] of [processItem]. The nested
    items of a category are processed in order after its link has been
    resolved; the first exception ends the walk. *)
Fixpoint processItem (fuel : nat) (_item : SidebarItemConfig)
    : outcome (list SidebarItem) :=
  match _item with
  | ConfigCategory label items link =>
      linkId ← resolveItemId link;
      nested ← (fix processItems (l : list SidebarItemConfig) :=
                  match l with
                  | [] => Done []
                  | x :: l' =>
                      first ← processItem fuel x;
                      others ← processItems l';
                      Done (first ++ others)
                  end) items;
      Done [ItemCategory (Some label) nested linkId noPosition]
  | ConfigAutogenerated id =>
      resolved ← (if String.eqb id ROOT_KEYWORD then Done (Some id)
                  else resolveItemId id);
      defaultSidebarItemsGenerator notes fuel resolved
  | ConfigNote id label =>
      resolved ← resolveItemId id;
      Done [ItemNote resolved (Some label) noPosition]
  end.

(** The error handler given to [fromThrowable]. *)
Definition onThrow (error : Thrown) : Thrown :=
  if isDendronError error then error
  else ThrowDendron (createFromStatus "Error when processing sidebarItem"
                       INVALID_CONFIG).

(** [fromThrowable(processItem, ...)]: what [processItem] throws goes
    through the handler and becomes the error of the result. *)
Definition safeProcessItem (fuel : nat) (item : SidebarItemConfig)
    : option (Result Thrown (list SidebarItem)) :=
  match processItem fuel item with
  | Done v => Some (ok v)
  | Throw error => Some (err (onThrow error))
  | OutOfFuel => None
  end.

Definition mapResult {E A B} (f : A → B) (r : Result E A) : Result E B :=
  match r with
  | ok a => ok (f a)
  | err e => err e
  end.

Definition processSiderbar (fuel : nat) (sidebar : SidebarConfig)
    : option (Result Thrown Sidebar) :=
  results ← mapM (safeProcessItem fuel) sidebar;
  Some (mapResult (fun x => concat x) (combine results)).

Definition processSidebars (fuel : nat)
    (sidebarsResult : Result Thrown SidebarsConfig)
    : option (Result Thrown Sidebars) :=
  match sidebarsResult with
  | err e => Some (err e)
  | ok sidebars =>
      combine <$>
        mapM (fun entry =>
                sidebarResult ← processSiderbar fuel (snd entry);
                Some (match sidebarResult with
                      | ok value => ok (fst entry, value)
                      | err e => err e
                      end))
          sidebars
  end.
End ProcessSidebar.

End Sidebars.

(** ** Specification vocabulary *)

Import TreeUtils Sidebars.

(** The finite ancestor chain of [noteId] in [child2parent], root first: it
    exists exactly when following the parent pointers from [noteId] reaches
    an absent, [null] or empty parent. *)
Inductive parentChain (child2parent : gmap string (option string))
  : string → list string → Prop :=
| chain_end noteId :
    truthyParent (child2parent !! noteId) = None →
    parentChain child2parent noteId []
| chain_step noteId p ancestors :
    truthyParent (child2parent !! noteId) = Some p →
    parentChain child2parent p ancestors →
    parentChain child2parent noteId (ancestors ++ [p]).

(** A parent map with a cycle: [a] and [b] are each other's parent. *)
Definition cyclicParents : gmap string (option string) :=
  <["a" := Some "b"]> (<["b" := Some "a"]> ∅).

(** A well-formed parent map: [c] under [b] under the root [a]. *)
Definition chainParents : gmap string (option string) :=
  <["c" := Some "b"]> (<["b" := Some "a"]> (<["a" := None]> ∅)).

Definition vaultOne : DVault := mkVault (Some "v1") "/ws/v1".
Definition vaultTwo : DVault := mkVault (Some "v2") "/ws/v2".

(** A plain note: its title is its path, it has no front matter. *)
Definition plainNote (id path : string) (kids : list string) : NoteProps :=
  mkNote id path path kids vaultOne false false None 0.

(** The note graph of paths [a], [a.b], [a.c], rooted at [a]. *)
Definition engineRootedAtA : NotePropsByIdDict :=
  [ ("a", plainNote "a" "a" ["a.b"; "a.c"]);
    ("a.b", plainNote "a.b" "a.b" []);
    ("a.c", plainNote "a.c" "a.c" []) ].

(** The same hierarchy below a note whose path is [root]. *)
Definition engineWithRoot : NotePropsByIdDict :=
  [ ("root", plainNote "root" "root" ["a"]);
    ("a", plainNote "a" "a" ["a.b"; "a.c"]);
    ("a.b", plainNote "a.b" "a.b" []);
    ("a.c", plainNote "a.c" "a.c" []) ].

Definition leaf (name : string) : TreeNode := mkTreeNode name [].

(** A stand-in for [VaultUtils.getName] where a concrete one is needed. *)
Definition vault_name_or_path (vault : DVault) : string :=
  default (fsPath vault) (vault_name vault).

(** A stand-in for lodash's lookup by path where a concrete one is needed:
    it finds nothing. It is only used with ids that hold neither a dot nor
    a bracket, for which the lookup by path is not consulted. *)
Definition noPath : NotePropsByIdDict → string → bool := fun _ _ => false.

(** A stand-in for [DendronError.isDendronError] where a concrete one is
    needed: it accepts everything that was thrown. *)
Definition anyError : Thrown → bool := fun _ => true.

(** ** Properties *)

(** *** Sorting *)

Section SortFacts.
Context {A : Type} (cmp : A → A → comparison).

Lemma insertSorted_perm x l : Permutation (Js.insertSorted cmp x l) (x :: l).
Proof.
  induction l as [|y l IH]; simpl; [reflexivity|].
  destruct (cmp x y); try reflexivity.
  rewrite IH. apply perm_swap.
Qed.

Lemma sort_perm l : Permutation (Js.sort cmp l) l.
Proof.
  induction l as [|x l IH]; simpl; [constructor|].
  unfold Js.sort in *. simpl. rewrite insertSorted_perm. now constructor.
Qed.

Lemma sort_In x l : In x (Js.sort cmp l) ↔ In x l.
Proof.
  split; apply Permutation_in; [apply sort_perm | symmetry; apply sort_perm].
Qed.
End SortFacts.

(** *** Lists of outcomes *)

Lemma outcome_bind_Done {A B} (a : A) (f : A → outcome B) : (Done a ≫= f) = f a.
Proof. reflexivity. Qed.

Lemma outcome_fmap_Done {A B} (f : A → B) (a : A) : f <$> Done a = Done (f a).
Proof. reflexivity. Qed.

Lemma mapM_outcome_cons {A B} (f : A → outcome B) x l :
  mapM f (x :: l) = y ← f x; k ← mapM f l; mret (y :: k).
Proof. reflexivity. Qed.

Lemma mapM_outcome_Done {A B} (f : A → outcome B) l k :
  mapM f l = Done k → Forall2 (fun x y => f x = Done y) l k.
Proof.
  revert k. induction l as [|x l IH]; intros k; simpl.
  - intros [= <-]. constructor.
  - destruct (f x) as [y| |] eqn:Hx; simpl; try discriminate.
    destruct (mapM f l) as [k'| |]; simpl; try discriminate.
    intros [= <-]. constructor; [exact Hx | now apply IH].
Qed.

Lemma mapM_outcome_In {A B} (f : A → outcome B) l k :
  mapM f l = Done k → ∀ x, In x l → ∃ y, f x = Done y.
Proof.
  intros Hmap x Hin. apply mapM_outcome_Done in Hmap.
  induction Hmap as [|x' y l k Hx _ IH]; [destruct Hin|].
  destruct Hin as [->|Hin]; eauto.
Qed.

Lemma mapM_outcome_source {A B} (f : A → outcome B) l k y :
  mapM f l = Done k → In y k → ∃ x, In x l ∧ f x = Done y.
Proof.
  intros Hmap Hin. apply mapM_outcome_Done in Hmap.
  induction Hmap as [|x y' l k Hx _ IH]; [destruct Hin|].
  destruct Hin as [->|Hin]; [exists x; split; [now left | exact Hx]|].
  destruct (IH Hin) as (x' & Hx' & Hy). exists x'. split; [now right | exact Hy].
Qed.

Lemma mapM_outcome_all_Done {A B} (f : A → outcome B) l :
  (∀ x, In x l → ∃ y, f x = Done y) → ∃ k, mapM f l = Done k.
Proof.
  induction l as [|x l IH]; intros Hf; [now exists []|].
  destruct (Hf x (or_introl eq_refl)) as [y Hy].
  destruct (IH (fun x' Hin => Hf x' (or_intror Hin))) as [k Hk].
  exists (y :: k). rewrite mapM_outcome_cons, Hy. simpl. now rewrite Hk.
Qed.

(** *** [validateTreeNodes] always answers *)

Lemma height_child t c : In c (children t) → (height c < height t)%nat.
Proof.
  destruct t as [f cs]. simpl. induction cs as [|d cs IH]; simpl; [tauto|].
  intros [->|Hin]; [lia|]. specialize (IH Hin). lia.
Qed.

Lemma validateChildren_total validate f expected actual :
  (∀ e a, In e expected → validate e a ≠ None) →
  validateChildren validate f expected actual ≠ None.
Proof.
  revert actual. induction expected as [|e expected IH]; intros actual Hv.
  - destruct actual; discriminate.
  - destruct actual as [|a actual]; [discriminate|]. simpl.
    destruct (validate e a) as [r|] eqn:E.
    + simpl. destruct r; [|discriminate].
      apply IH. intros e' a' Hin. apply Hv. now right.
    + exfalso. eapply Hv; [|exact E]. now left.
Qed.

Lemma validateTreeNodes_fuel_enough fuel expectedTree actualTree :
  (height expectedTree ≤ fuel)%nat →
  validateTreeNodes_fuel fuel expectedTree actualTree ≠ None.
Proof.
  revert expectedTree actualTree.
  induction fuel as [|fuel IH]; intros e a Hh.
  - destruct e; simpl in Hh; lia.
  - simpl. destruct (negb _); [discriminate|].
    destruct (negb _); [discriminate|].
    apply validateChildren_total. intros c a' Hin. apply IH.
    apply sort_In in Hin. apply height_child in Hin. lia.
Qed.

Lemma validateTreeNodes_total expectedTree actualTree :
  ∃ resp, validateTreeNodes expectedTree actualTree = Some resp.
Proof.
  destruct (validateTreeNodes expectedTree actualTree) eqn:E; [eauto|].
  exfalso. revert E. apply validateTreeNodes_fuel_enough. lia.
Qed.

(** *** C1: the two tree constructions on [a.b], [a.c] *)

(** With root name [a] the names tree keeps the leading segment [a] as the
    only child of the root, so it differs from the engine tree. *)
Lemma createTreeFromFileNames_rooted_at_a :
  createTreeFromFileNames ["a.b"; "a.c"] "a"
  = mkTreeNode "a" [mkTreeNode "a" [leaf "b"; leaf "c"]].
Proof. reflexivity. Qed.

Lemma createTreeFromEngine_rooted_at_a k :
  createTreeFromEngine (2 + k) engineRootedAtA "a"
  = Done (mkTreeNode "a" [leaf "b"; leaf "c"]).
Proof. reflexivity. Qed.

(** C1 (as stated, refuted): for the names [a.b], [a.c] with root name [a]
    and the engine tree of the graph [a], [a.b], [a.c] rooted at [a],
    [validateTreeNodes] does not return success, in either argument order
    and whatever the fuel given to the engine walk. *)
Lemma C1_round_trip_rooted_at_a_fails :
  ¬ ∃ fuel engineTree,
      createTreeFromEngine fuel engineRootedAtA "a" = Done engineTree ∧
      (validateTreeNodes (createTreeFromFileNames ["a.b"; "a.c"] "a") engineTree
         = Some RespData ∨
       validateTreeNodes engineTree (createTreeFromFileNames ["a.b"; "a.c"] "a")
         = Some RespData).
Proof.
  intros (fuel & t & Ht & Hv).
  destruct fuel as [|[|k]]; [discriminate Ht | discriminate Ht |].
  change (S (S k)) with (2 + k)%nat in Ht.
  rewrite createTreeFromEngine_rooted_at_a in Ht.
  injection Ht as <-. destruct Hv as [Hv|Hv]; vm_compute in Hv; discriminate.
Qed.

(** C1 (amended): the names [a.b], [a.c] are full paths below the root, so
    with root name [root] the names tree is structurally equal to the
    engine tree of the graph [root], [a], [a.b], [a.c] (root's child is
    [a], whose children are [a.b] and [a.c]): [validateTreeNodes] returns
    success in both argument orders. With root name [a] and the graph
    rooted at [a] it reports a mismatch at [a]'s children; for that graph
    the equal names tree is the one of the names [b], [c], given relative
    to the root. *)
Theorem C1_round_trip_below_root (k : nat) :
  let namesTree := createTreeFromFileNames ["a.b"; "a.c"] "root" in
  let engineTree := mkTreeNode "root" [mkTreeNode "a" [leaf "b"; leaf "c"]] in
  createTreeFromEngine (3 + k) engineWithRoot "root" = Done engineTree ∧
  validateTreeNodes namesTree engineTree = Some RespData ∧
  validateTreeNodes engineTree namesTree = Some RespData ∧
  createTreeFromEngine (2 + k) engineRootedAtA "a"
    = Done (mkTreeNode "a" [leaf "b"; leaf "c"]) ∧
  validateTreeNodes (createTreeFromFileNames ["a.b"; "a.c"] "a")
      (mkTreeNode "a" [leaf "b"; leaf "c"])
    = Some (RespError (simpleError
        ("Mismatch at a's children. Expected: " +:+ Js.dquote +:+ "a" +:+ Js.dquote
           +:+ ". Actual " +:+ Js.dquote +:+ "b,c" +:+ Js.dquote))) ∧
  validateTreeNodes (createTreeFromFileNames ["b"; "c"] "a")
      (mkTreeNode "a" [leaf "b"; leaf "c"])
    = Some RespData.
Proof. repeat split; reflexivity. Qed.

(** *** C2: termination of [getAllParents] *)

Lemma getAllParents_loop_complete child2parent noteId ancestors :
  parentChain child2parent noteId ancestors →
  ∀ acc, ∃ fuel, ∀ fuel', (fuel ≤ fuel')%nat →
    getAllParents_loop fuel' child2parent (child2parent !! noteId) acc
    = Some (ancestors ++ acc).
Proof.
  induction 1 as [noteId Hstop | noteId p ancestors Hp _ IH]; intros acc.
  - exists 1%nat. intros [|fuel'] Hle; [lia|]. simpl. now rewrite Hstop.
  - destruct (IH (p :: acc)) as [fuel Hfuel]. exists (S fuel).
    intros [|fuel'] Hle; [lia|]. simpl. rewrite Hp.
    rewrite Hfuel by lia. now rewrite <- app_assoc.
Qed.

Lemma getAllParents_loop_sound fuel child2parent :
  ∀ noteId acc result,
    getAllParents_loop fuel child2parent (child2parent !! noteId) acc = Some result →
    ∃ ancestors,
      parentChain child2parent noteId ancestors ∧ result = ancestors ++ acc.
Proof.
  induction fuel as [|fuel IH]; intros noteId acc result Hrun; [discriminate|].
  simpl in Hrun.
  destruct (truthyParent (child2parent !! noteId)) as [p|] eqn:Hp.
  - apply IH in Hrun as (ancestors & Hchain & ->).
    exists (ancestors ++ [p]). split; [now apply chain_step|].
    now rewrite <- app_assoc.
  - injection Hrun as <-. exists []. split; [now apply chain_end | reflexivity].
Qed.

Lemma getAllParents_cyclic_loop fuel :
  ∀ acc,
    getAllParents_loop fuel cyclicParents (Some (Some "a")) acc = None ∧
    getAllParents_loop fuel cyclicParents (Some (Some "b")) acc = None.
Proof.
  induction fuel as [|fuel IH]; intros acc; [split; reflexivity|].
  split; simpl.
  - change (cyclicParents !! "a") with (Some (Some "b")). apply IH.
  - change (cyclicParents !! "b") with (Some (Some "a")). apply IH.
Qed.

(** C2 (as stated, refuted): on the parent map in which [a] and [b] are each
    other's parent, the loop of [getAllParents] started at [a] never leaves:
    no amount of fuel yields a result. *)
Lemma C2_getAllParents_diverges_on_cycle :
  ¬ ∃ fuel result, getAllParents fuel cyclicParents "a" = Some result.
Proof.
  intros (fuel & result & Hrun). unfold getAllParents in Hrun.
  change (cyclicParents !! "a") with (Some (Some "b")) in Hrun.
  destruct (getAllParents_cyclic_loop fuel []) as [_ Hb]. congruence.
Qed.

(** C2 (amended): [getAllParents] has no guard against cycles. It returns
    [ancestors] exactly when the parent chain of [noteId] is finite, that is
    when following the parent pointers reaches an absent, [null] or empty
    parent; [ancestors] is then that chain, ordered root first, and every
    larger amount of fuel gives the same result. *)
Theorem C2_getAllParents_terminates_iff_chain_finite
    (child2parent : gmap string (option string)) (noteId : string)
    (ancestors : list string) :
  parentChain child2parent noteId ancestors ↔
  ∃ fuel, ∀ fuel', (fuel ≤ fuel')%nat →
    getAllParents fuel' child2parent noteId = Some ancestors.
Proof.
  split.
  - intros Hchain.
    destruct (getAllParents_loop_complete _ _ _ Hchain []) as [fuel Hfuel].
    exists fuel. intros fuel' Hle. unfold getAllParents.
    rewrite Hfuel by exact Hle. now rewrite app_nil_r.
  - intros [fuel Hfuel]. specialize (Hfuel fuel (Nat.le_refl _)).
    apply getAllParents_loop_sound in Hfuel as (l & Hchain & ->).
    now rewrite app_nil_r.
Qed.

Lemma chainParents_chain : parentChain chainParents "c" ["a"; "b"].
Proof.
  apply (chain_step chainParents "c" "b" ["a"]); [reflexivity|].
  apply (chain_step chainParents "b" "a" []); [reflexivity|].
  apply chain_end. reflexivity.
Qed.

Lemma C2_getAllParents_witness :
  parentChain chainParents "c" ["a"; "b"] ∧
  ∃ fuel, ∀ fuel', (fuel ≤ fuel')%nat →
    getAllParents fuel' chainParents "c" = Some ["a"; "b"].
Proof.
  split; [exact chainParents_chain|].
  exact (proj1 (C2_getAllParents_terminates_iff_chain_finite
                  chainParents "c" ["a"; "b"]) chainParents_chain).
Defined.

(** *** [sortNotesAtLevel]: C10 and C5 *)

Lemma find_unique {A} (p : A → bool) (l : list A) (t : A) :
  In t l → p t = true → (∀ x, In x l → p x = true → x = t) →
  List.find p l = Some t.
Proof.
  intros Hin Hp Huniq. destruct (List.find p l) as [x|] eqn:Hfind.
  - apply find_some in Hfind as [Hx Hpx]. f_equal. now apply Huniq.
  - apply find_none with (x := t) in Hfind; [congruence | exact Hin].
Qed.

Definition keys (noteDict : NotePropsByIdDict) : list string := map fst noteDict.

Lemma get_Some_key noteDict noteId :
  is_Some (get noteDict noteId) ↔ In noteId (keys noteDict).
Proof.
  unfold get, keys. induction noteDict as [|[k n] d IH]; simpl.
  - split; [intros [? ?]; discriminate | tauto].
  - destruct (String.eqb_spec k noteId) as [->|Hne]; simpl.
    + split; eauto.
    + rewrite IH. split; [tauto | intros [?|?]; [congruence | assumption]].
Qed.

Lemma member_Own noteDict noteId note :
  member noteDict noteId = Own note ↔ get noteDict noteId = Some note.
Proof.
  unfold member. destruct (get noteDict noteId) as [n|].
  - split; congruence.
  - destruct (inherited noteId); split; discriminate.
Qed.

Lemma member_get noteDict noteId note :
  get noteDict noteId = Some note → member noteDict noteId = Own note.
Proof. apply member_Own. Qed.

Lemma removeFirst_perm t out :
  In t out → Permutation (Js.removeFirst t out ++ [t]) out.
Proof.
  induction out as [|y out IH]; simpl; [tauto|].
  destruct (String.eqb_spec y t) as [->|Hne]; intros Hin.
  - rewrite Permutation_app_comm. reflexivity.
  - destruct Hin as [?|Hin]; [congruence|]. simpl. now rewrite IH.
Qed.

Section SortNotesFacts.
Variable getByPath : NotePropsByIdDict → string → bool.
Variable noteDict : NotePropsByIdDict.
Variable labelType : option TreeViewItemLabelTypeEnum.

(** Every id of the list is a key of [noteDict] or a plain name: one that
    no object inherits and that holds neither a dot nor a bracket. For
    such ids [_.get(noteDict, id)] and [noteDict[id]] find the note stored
    under the id or nothing. *)
Definition plainIds (noteIds : list string) : Prop :=
  ∀ noteId, In noteId noteIds →
    In noteId (keys noteDict) ∨
    (inherited noteId = false ∧ hasPathSyntax noteId = false).

Lemma isSafe_plain noteId :
  In noteId (keys noteDict) ∨
  (inherited noteId = false ∧ hasPathSyntax noteId = false) →
  (isSafe getByPath noteDict noteId = true ↔ In noteId (keys noteDict)).
Proof.
  intros Hplain. rewrite <- get_Some_key. unfold isSafe, member.
  destruct (get noteDict noteId) as [n|] eqn:Hget; [split; eauto|].
  destruct Hplain as [Hkey|[-> ->]].
  - apply get_Some_key in Hkey as [n Hn]. congruence.
  - simpl. split; [discriminate | intros [? ?]; discriminate].
Qed.

Lemma safe_present noteIds :
  plainIds noteIds →
  Forall (fun noteId => is_Some (get noteDict noteId))
    (List.filter (isSafe getByPath noteDict) noteIds).
Proof.
  intros Hplain. apply List.Forall_forall. intros noteId Hin.
  apply filter_In in Hin as [Hin Hsafe]. apply get_Some_key.
  now apply (isSafe_plain noteId (Hplain noteId Hin)).
Qed.

Lemma sortBy_present out :
  Forall (fun noteId => is_Some (get noteDict noteId)) out →
  sortBy noteDict labelType out
  = Done (Js.sort (compareNoteIds noteDict labelType) out).
Proof.
  intros Hpresent. unfold sortBy.
  destruct (mapM_outcome_all_Done (byLabel noteDict labelType) out) as [labels ->];
    [|reflexivity].
  intros noteId Hin. rewrite List.Forall_forall in Hpresent.
  destruct (Hpresent noteId Hin) as [n Hn]. unfold byLabel.
  rewrite (member_get _ noteId n Hn). destruct labelType as [[|]|]; eauto.
Qed.

(** The test performed by the callback of [out.find]. *)
Definition isTagsHierarchy (noteId : string) : bool :=
  match get noteDict noteId with
  | Some n => String.eqb (note_fname n) TAGS_HIERARCHY_BASE
  | None => false
  end.

Lemma findTagsHierarchy_present out :
  Forall (fun noteId => is_Some (get noteDict noteId)) out →
  findTagsHierarchy noteDict out = Done (List.find isTagsHierarchy out).
Proof.
  induction 1 as [|noteId out [n Hn] _ IH]; simpl; [reflexivity|].
  unfold isTagsHierarchy at 1. rewrite (member_get _ noteId n Hn), Hn.
  destruct (String.eqb _ _); [reflexivity | exact IH].
Qed.

(** What the bubble-down step does to a list of ids of notes. *)
Lemma bubbleDownTags_cases out :
  Forall (fun noteId => is_Some (get noteDict noteId)) out →
  bubbleDownTags noteDict out = Done out ∨
  ∃ t n, In t out ∧ get noteDict t = Some n ∧
         note_fname n = TAGS_HIERARCHY_BASE ∧ custom_nav_order n = None ∧
         bubbleDownTags noteDict out = Done (Js.removeFirst t out ++ [t]).
Proof.
  intros Hpresent. unfold bubbleDownTags.
  rewrite (findTagsHierarchy_present out Hpresent). simpl.
  destruct (List.find isTagsHierarchy out) as [t|] eqn:Hfind; [|now left].
  apply find_some in Hfind as [Hin Htags].
  destruct (String.eqb t ""); [now left|].
  unfold isTagsHierarchy in Htags.
  destruct (get noteDict t) as [n|] eqn:Hget; [|discriminate].
  rewrite (member_get _ t n Hget). apply String.eqb_eq in Htags.
  destruct (custom_nav_order n) eqn:Hnav; [now left|].
  right. exists t, n. auto.
Qed.

Lemma bubbleDownTags_present out :
  Forall (fun noteId => is_Some (get noteDict noteId)) out →
  ∃ out', bubbleDownTags noteDict out = Done out' ∧ Permutation out' out.
Proof.
  intros Hpresent.
  destruct (bubbleDownTags_cases out Hpresent) as [->|(t & n & Hin & _ & _ & _ & ->)];
    eexists; (split; [reflexivity|]); [reflexivity | now apply removeFirst_perm].
Qed.

Lemma bubbleDownTags_single out t n :
  Forall (fun noteId => is_Some (get noteDict noteId)) out →
  In t out → get noteDict t = Some n →
  note_fname n = TAGS_HIERARCHY_BASE → custom_nav_order n = None → t ≠ "" →
  (∀ x nx, In x out → get noteDict x = Some nx →
           note_fname nx = TAGS_HIERARCHY_BASE → x = t) →
  bubbleDownTags noteDict out = Done (Js.removeFirst t out ++ [t]).
Proof.
  intros Hpresent Hin Hget Hfname Horder Hne Huniq. unfold bubbleDownTags.
  rewrite (findTagsHierarchy_present out Hpresent). simpl.
  rewrite (find_unique isTagsHierarchy out t).
  - destruct (String.eqb_spec t "") as [|_]; [contradiction|].
    now rewrite (member_get _ t n Hget), Horder.
  - exact Hin.
  - unfold isTagsHierarchy. rewrite Hget. now apply String.eqb_eq.
  - intros x Hx Htag. unfold isTagsHierarchy in Htag.
    destruct (get noteDict x) as [nx|] eqn:Hgx; [|discriminate].
    apply String.eqb_eq in Htag. now apply (Huniq x nx).
Qed.

Lemma sorted_ids_present noteIds :
  plainIds noteIds →
  Forall (fun noteId => is_Some (get noteDict noteId))
    (Js.sort (compareNoteIds noteDict labelType)
       (List.filter (isSafe getByPath noteDict) noteIds)).
Proof.
  intros Hplain. apply List.Forall_forall. intros noteId Hin.
  apply sort_In in Hin. pose proof (safe_present noteIds Hplain) as Hsafe.
  rewrite List.Forall_forall in Hsafe. now apply Hsafe.
Qed.

(** The run of [sortNotesAtLevel] on plain ids, factored: it does not
    throw, and its data is the bubbled-down order, reversed on request. *)
Lemma sortNotesAtLevel_run noteIds :
  plainIds noteIds →
  ∃ out err,
    Permutation out (List.filter (isSafe getByPath noteDict) noteIds) ∧
    bubbleDownTags noteDict
      (Js.sort (compareNoteIds noteDict labelType)
         (List.filter (isSafe getByPath noteDict) noteIds)) = Done out ∧
    ∀ rev_opt,
      sortNotesAtLevel getByPath noteDict labelType noteIds rev_opt
      = Done (mkSortResult
                (match rev_opt with Some true => rev out | _ => out end) err).
Proof.
  intros Hplain.
  destruct (bubbleDownTags_present _ (sorted_ids_present noteIds Hplain))
    as (out & Hrun & Hperm).
  eexists out, _. split; [|split; [exact Hrun|]].
  - rewrite Hperm. apply sort_perm.
  - intros rev_opt. unfold sortNotesAtLevel.
    rewrite (sortBy_present _ (safe_present noteIds Hplain)). simpl.
    rewrite Hrun. simpl. destruct rev_opt as [[|]|]; reflexivity.
Qed.

(** An id that is no property of the dictionary but that lodash reads as
    a path to something defined is kept by the filter; the callback of
    [out.find] then reads [fname] of [undefined]. *)
Lemma sortNotesAtLevel_path_id_throws noteId reverse :
  member noteDict noteId = NoMember → hasPathSyntax noteId = true →
  getByPath noteDict noteId = true →
  sortNotesAtLevel getByPath noteDict labelType [noteId] reverse
  = Throw ThrowTypeError.
Proof.
  intros Hmember Hsyntax Hpath. unfold sortNotesAtLevel. simpl.
  unfold isSafe. rewrite Hmember, Hsyntax, Hpath. simpl.
  unfold sortBy. simpl. unfold byLabel. rewrite Hmember.
  destruct labelType as [[|]|]; simpl; unfold bubbleDownTags; simpl;
    now rewrite Hmember.
Qed.

End SortNotesFacts.

(** Two notes whose path is the tags hierarchy root, one per vault, neither
    with an explicit order. *)
Definition twoTagsNotes : NotePropsByIdDict :=
  [ ("t1", mkNote "t1" "tags" "Tags" [] vaultOne false false None 0);
    ("t2", mkNote "t2" "tags" "Tags" [] vaultTwo false false None 0) ].

(** A tags hierarchy root among ordinary notes. *)
Definition notesWithTags : NotePropsByIdDict :=
  [ ("t", mkNote "t" "tags" "Tags" [] vaultOne false false None 0);
    ("z", mkNote "z" "zoo" "Zoo" [] vaultOne false false None 0);
    ("b", mkNote "b" "bar" "Bar" [] vaultOne false false None 0) ].

Lemma notesWithTags_plain : plainIds notesWithTags ["t"; "z"; "b"].
Proof. intros noteId Hin. left. simpl in *. tauto. Qed.

(** C10 (violated by the code): [toString] is no key of the dictionary, yet
    it is in the data and no error reports it: the filter asks
    [_.get(noteDict, id)], which finds the member of that name that every
    object inherits. With file name labels the same call throws a
    [TypeError], as the label of the inherited member is computed with
    [.fname.split] on [undefined]. *)
Theorem C10_sortNotesAtLevel_keeps_inherited_name
    (getByPath : NotePropsByIdDict → string → bool) (reverse : option bool) :
  ¬ In "toString" (keys notesWithTags) ∧
  sortNotesAtLevel getByPath notesWithTags None ["b"; "toString"] reverse
    = Done (mkSortResult
              (match reverse with
               | Some true => ["toString"; "b"]
               | _ => ["b"; "toString"]
               end) None) ∧
  sortNotesAtLevel getByPath notesWithTags (Some label_title) ["b"; "toString"] reverse
    = sortNotesAtLevel getByPath notesWithTags None ["b"; "toString"] reverse ∧
  sortNotesAtLevel getByPath notesWithTags (Some label_filename) ["b"; "toString"]
      reverse
    = Throw ThrowTypeError.
Proof.
  split; [simpl; intros [H|[H|[H|[]]]]; discriminate H|].
  destruct reverse as [[|]|]; repeat split; reflexivity.
Qed.

(** C5 (as stated, refuted): [t2] is a tags hierarchy root without an
    explicit order and is among the inputs, yet it is the first element of
    the non-reversed data and the last element of the reversed data: only
    the first such note found is bubbled down. *)
Lemma C5_second_tags_note_not_bubbled :
  (∃ n, get twoTagsNotes "t2" = Some n ∧
        note_fname n = TAGS_HIERARCHY_BASE ∧ custom_nav_order n = None) ∧
  (∀ getByPath,
     sortNotesAtLevel getByPath twoTagsNotes None ["t1"; "t2"] (Some false)
       = Done (mkSortResult ["t2"; "t1"] None)) ∧
  (∀ getByPath,
     sortNotesAtLevel getByPath twoTagsNotes None ["t1"; "t2"] (Some true)
       = Done (mkSortResult ["t1"; "t2"] None)) ∧
  ¬ (∀ getByPath (noteDict : NotePropsByIdDict) (noteIds : list string)
       (t : string) (n : NoteProps),
       In t noteIds → get noteDict t = Some n →
       note_fname n = TAGS_HIERARCHY_BASE → custom_nav_order n = None →
       ∃ out err,
         sortNotesAtLevel getByPath noteDict None noteIds (Some false)
           = Done (mkSortResult out err) ∧
         last out = Some t).
Proof.
  split; [eexists; repeat split; reflexivity|].
  split; [reflexivity|]. split; [reflexivity|].
  intros Hclaim.
  destruct (Hclaim noPath twoTagsNotes ["t1"; "t2"] "t2" _
              ltac:(simpl; tauto) eq_refl eq_refl eq_refl)
    as (out & err & Hrun & Hlast).
  vm_compute in Hrun. injection Hrun as <- _. discriminate Hlast.
Qed.

(** C5 (amended): for ids that are keys of [noteDict] or plain names, the
    call returns, and the data returned with [reverse: true] is the reverse
    of the data returned without it (the error is the same). When exactly
    one tags hierarchy root is among the input ids present in [noteDict],
    its id is not empty and it has no explicit order, it is the last
    element of the non-reversed data and the first element of the reversed
    data. *)
Theorem C5_sortNotesAtLevel_reversal
    (getByPath : NotePropsByIdDict → string → bool)
    (noteDict : NotePropsByIdDict) (labelType : option TreeViewItemLabelTypeEnum)
    (noteIds : list string) :
  plainIds noteDict noteIds →
  ∃ out err,
    sortNotesAtLevel getByPath noteDict labelType noteIds (Some false)
      = Done (mkSortResult out err) ∧
    sortNotesAtLevel getByPath noteDict labelType noteIds None
      = Done (mkSortResult out err) ∧
    sortNotesAtLevel getByPath noteDict labelType noteIds (Some true)
      = Done (mkSortResult (rev out) err) ∧
    ∀ (t : string) (n : NoteProps),
      In t noteIds → get noteDict t = Some n →
      note_fname n = TAGS_HIERARCHY_BASE → custom_nav_order n = None →
      t ≠ "" →
      (∀ t' n', In t' noteIds → get noteDict t' = Some n' →
                note_fname n' = TAGS_HIERARCHY_BASE → t' = t) →
      last out = Some t ∧ head (rev out) = Some t.
Proof.
  intros Hplain.
  destruct (sortNotesAtLevel_run getByPath noteDict labelType noteIds Hplain)
    as (out & err & _ & Hbubble & Hrun).
  exists out, err.
  split; [apply Hrun|]. split; [apply Hrun|]. split; [apply Hrun|].
  intros t n Hin Hget Hfname Horder Hne Huniq.
  rewrite (bubbleDownTags_single noteDict _ t n) in Hbubble;
    try assumption.
  - injection Hbubble as <-. split; [apply last_snoc | now rewrite rev_app_distr].
  - now apply sorted_ids_present.
  - apply sort_In, filter_In. split; [exact Hin|].
    apply (proj2 (isSafe_plain getByPath noteDict t (Hplain t Hin))).
    apply get_Some_key. eauto.
  - intros x nx Hx Hgx Hfx. apply sort_In, filter_In in Hx as [Hx _].
    now apply (Huniq x nx).
Qed.

Lemma C5_sortNotesAtLevel_reversal_witness :
  ∃ out err,
    sortNotesAtLevel noPath notesWithTags None ["t"; "z"; "b"] (Some false)
      = Done (mkSortResult out err) ∧
    sortNotesAtLevel noPath notesWithTags None ["t"; "z"; "b"] (Some true)
      = Done (mkSortResult (rev out) err) ∧
    last out = Some "t" ∧ head (rev out) = Some "t".
Proof.
  destruct (C5_sortNotesAtLevel_reversal noPath notesWithTags None ["t"; "z"; "b"]
              notesWithTags_plain)
    as (out & err & Hfalse & _ & Htrue & Htags).
  exists out, err. split; [exact Hfalse|]. split; [exact Htrue|].
  apply (Htags "t" (mkNote "t" "tags" "Tags" [] vaultOne false false None 0)).
  - simpl; tauto.
  - reflexivity.
  - reflexivity.
  - reflexivity.
  - discriminate.
  - intros t' n' Hin Hget Hfname.
    destruct Hin as [<-|[<-|[<-|[]]]]; [reflexivity| |];
      injection Hget as <-; discriminate Hfname.
Defined.

(** *** C8: the tree menu builder and items without a note *)

(** Induction on sidebar items that reaches the nested items of a category. *)
Fixpoint SidebarItem_nested_ind (P : SidebarItem → Prop)
    (Hnote : ∀ id label pos, P (ItemNote id label pos))
    (Hcategory : ∀ label items link pos,
        Forall P items → P (ItemCategory label items link pos))
    (item : SidebarItem) : P item :=
  match item with
  | ItemNote id label pos => Hnote id label pos
  | ItemCategory label items link pos =>
      Hcategory label items link pos
        ((fix all (l : list SidebarItem) : Forall P l :=
            match l with
            | [] => @List.Forall_nil _ P
            | x :: l' =>
                @List.Forall_cons _ P x l'
                  (SidebarItem_nested_ind P Hnote Hcategory x) (all l')
            end) items)
  end.

(** A walk over a list that can only fail with exception [e] fails with it
    as soon as one element does. *)
Lemma mapM_outcome_throws_at {A B} (f : A → outcome B) (e : Thrown) l x :
  (∀ y, In y l → (∃ r, f y = Done r) ∨ f y = Throw e) →
  In x l → f x = Throw e → mapM f l = Throw e.
Proof.
  induction l as [|y l IH]; intros Hf Hin Hx; [destruct Hin|].
  rewrite mapM_outcome_cons.
  destruct (Hf y (or_introl eq_refl)) as [[r Hr]|Hr]; rewrite Hr; [|reflexivity].
  simpl. destruct Hin as [->|Hin]; [congruence|].
  rewrite IH; [reflexivity | | exact Hin | exact Hx].
  intros z Hz. apply Hf. now right.
Qed.

Section TreeMenuFacts.
Variable getName : DVault → string.
Variable noteDict : NotePropsByIdDict.

(** A resolved sidebar without the items for which [noteDict] holds
    nothing, at every depth; such a category goes with all its items. *)
Fixpoint pruneItem (item : SidebarItem) : option SidebarItem :=
  match itemToNote noteDict item with
  | NoMember => None
  | _ =>
      match item with
      | ItemCategory label items link pos =>
          Some (ItemCategory label (omap pruneItem items) link pos)
      | ItemNote _ _ _ => Some item
      end
  end.

Definition pruneSidebars (sidebars : Sidebars) : Sidebars :=
  map (fun kv => (fst kv, omap pruneItem (snd kv))) sidebars.

(** No item reads an inherited member, at any depth. *)
Fixpoint readsNotes (item : SidebarItem) : bool :=
  match itemToNote noteDict item with
  | Inherited => false
  | _ =>
      match item with
      | ItemCategory _ items _ _ => forallb readsNotes items
      | ItemNote _ _ _ => true
      end
  end.

Lemma itemToTreeMenuNode_missing item parent ix :
  itemToNote noteDict item = NoMember →
  itemToTreeMenuNode getName noteDict item parent ix = Done (None, ix).
Proof. intros Hmiss. destruct item; simpl in *; now rewrite Hmiss. Qed.

Lemma itemToTreeMenuNode_inherited item parent ix :
  itemToNote noteDict item = Inherited →
  itemToTreeMenuNode getName noteDict item parent ix = Throw ThrowTypeError.
Proof. intros Hmiss. destruct item; simpl in *; now rewrite Hmiss. Qed.

Lemma itemToTreeMenuNode_category label items link pos parent ix note :
  itemToNote noteDict (ItemCategory label items link pos) = Own note →
  itemToTreeMenuNode getName noteDict (ItemCategory label items link pos) parent ix
  = rs ← mapItems
           (fun item => itemToTreeMenuNode getName noteDict item (Some (note_id note)))
           items
           (recordParent (note_id note) parent
              (recordLabel (note_id note) (default (note_title note) label) ix));
    Done (Some (mkTreeMenuNode (note_id note) (default (note_title note) label)
                  (nodeIcon note) (Js.startsWith (note_fname note) TAGS_HIERARCHY)
                  (getName (note_vault note))
                  (default false (nav_exclude (getPublishFM note)))
                  (fst rs)), snd rs).
Proof. intros Hnote. simpl. simpl in Hnote. now rewrite Hnote. Qed.

Lemma mapItems_cons f item rest ix :
  mapItems f (item :: rest) ix
  = r ← f item ix;
    rs ← mapItems f rest (snd r);
    Done (match fst r with
          | Some node => node :: fst rs
          | None => fst rs
          end, snd rs).
Proof. reflexivity. Qed.

Lemma mapItems_app f before after ix :
  mapItems f (before ++ after) ix
  = r1 ← mapItems f before ix;
    r2 ← mapItems f after (snd r1);
    Done (fst r1 ++ fst r2, snd r2).
Proof.
  revert ix. induction before as [|item before IH]; intros ix.
  - simpl. destruct (mapItems f after ix) as [[nodes ix']| |]; reflexivity.
  - rewrite <- app_comm_cons, !mapItems_cons.
    destruct (f item ix) as [[maybeNode ix1]| |]; simpl; try reflexivity.
    rewrite IH.
    destruct (mapItems f before ix1) as [[nodes1 ix2]| |]; simpl; try reflexivity.
    destruct (mapItems f after ix2) as [[nodes2 ix3]| |]; simpl; try reflexivity.
    now destruct maybeNode.
Qed.

Lemma mapItems_skip f before item after ix :
  (∀ ix', f item ix' = Done (None, ix')) →
  mapItems f (before ++ item :: after) ix = mapItems f (before ++ after) ix.
Proof.
  intros Hskip. rewrite !mapItems_app.
  destruct (mapItems f before ix) as [[nodes1 ix1]| |]; try reflexivity.
  rewrite !outcome_bind_Done. cbn [fst snd].
  rewrite mapItems_cons, Hskip, outcome_bind_Done. cbn [fst snd].
  destruct (mapItems f after ix1) as [[nodes2 ix2]| |]; reflexivity.
Qed.

(** A walk whose steps return or raise a [TypeError] raises it as soon as
    one step does. *)
Lemma mapItems_throws_at f items item :
  (∀ x ix', In x items →
     (∃ r, f x ix' = Done r) ∨ f x ix' = Throw ThrowTypeError) →
  In item items → (∀ ix', f item ix' = Throw ThrowTypeError) →
  ∀ ix, mapItems f items ix = Throw ThrowTypeError.
Proof.
  induction items as [|x items IH]; intros Hf Hin Hitem ix; [destruct Hin|].
  rewrite mapItems_cons.
  destruct (Hf x ix (or_introl eq_refl)) as [[r Hr]|Hr]; rewrite Hr; [|reflexivity].
  simpl. destruct Hin as [->|Hin]; [rewrite Hitem in Hr; discriminate|].
  rewrite IH; [reflexivity | | exact Hin | exact Hitem].
  intros y ix' Hy. apply Hf. now right.
Qed.

Lemma mapItems_returns_or_throws f items :
  (∀ x ix', In x items →
     (∃ r, f x ix' = Done r) ∨ f x ix' = Throw ThrowTypeError) →
  ∀ ix, (∃ r, mapItems f items ix = Done r)
        ∨ mapItems f items ix = Throw ThrowTypeError.
Proof.
  induction items as [|x items IH]; intros Hf ix; [left; simpl; eauto|].
  rewrite mapItems_cons.
  destruct (Hf x ix (or_introl eq_refl)) as [[r Hr]|Hr]; rewrite Hr; [|now right].
  simpl. destruct (IH (fun y ix' Hy => Hf y ix' (or_intror Hy)) (snd r))
    as [[rs Hrs]|Hrs]; rewrite Hrs; simpl; eauto.
Qed.

(** The only exception of [itemToTreeMenuNode] is the [TypeError]. *)
Lemma itemToTreeMenuNode_returns_or_throws item : ∀ parent ix,
  (∃ r, itemToTreeMenuNode getName noteDict item parent ix = Done r)
  ∨ itemToTreeMenuNode getName noteDict item parent ix = Throw ThrowTypeError.
Proof.
  induction item as [id label pos | label items link pos IH]
    using SidebarItem_nested_ind; intros parent ix.
  - simpl. destruct (itemToNote noteDict (ItemNote id label pos)); eauto.
  - destruct (itemToNote noteDict (ItemCategory label items link pos))
      as [note| |] eqn:Hnote.
    + rewrite (itemToTreeMenuNode_category _ _ _ _ _ _ note Hnote).
      rewrite List.Forall_forall in IH.
      destruct (mapItems_returns_or_throws
                  (fun item => itemToTreeMenuNode getName noteDict item
                                 (Some (note_id note)))
                  items (fun x ix' Hx => IH x Hx _ ix')
                  (recordParent (note_id note) parent
                     (recordLabel (note_id note) (default (note_title note) label) ix)))
        as [[rs Hrs]|Hrs]; rewrite Hrs; simpl; eauto.
    + right. now apply itemToTreeMenuNode_inherited.
    + left. rewrite itemToTreeMenuNode_missing by exact Hnote. eauto.
Qed.

Lemma buildSidebar_returns_or_throws sidebar :
  (∃ menu, buildSidebar getName noteDict sidebar = Done menu)
  ∨ buildSidebar getName noteDict sidebar = Throw ThrowTypeError.
Proof.
  unfold buildSidebar.
  destruct (mapItems_returns_or_throws
              (fun item => itemToTreeMenuNode getName noteDict item None) sidebar
              (fun x ix' _ => itemToTreeMenuNode_returns_or_throws x None ix')
              (mkIndexes ∅ ∅)) as [[rs Hrs]|Hrs]; rewrite Hrs; simpl; eauto.
Qed.

Lemma buildSidebar_inherited sidebar item :
  In item sidebar → itemToNote noteDict item = Inherited →
  buildSidebar getName noteDict sidebar = Throw ThrowTypeError.
Proof.
  intros Hin Hitem. unfold buildSidebar.
  rewrite (mapItems_throws_at
             (fun item => itemToTreeMenuNode getName noteDict item None) sidebar item);
    [reflexivity | | exact Hin |].
  - intros x ix' _. apply itemToTreeMenuNode_returns_or_throws.
  - intros ix'. now apply itemToTreeMenuNode_inherited.
Qed.

Lemma generateTreeData_inherited sidebars name sidebar item :
  In (name, sidebar) sidebars → In item sidebar →
  itemToNote noteDict item = Inherited →
  generateTreeData getName noteDict sidebars = Throw ThrowTypeError.
Proof.
  intros Hside Hin Hitem. unfold generateTreeData.
  rewrite (mapM_outcome_throws_at _ ThrowTypeError sidebars (name, sidebar));
    [reflexivity | | exact Hside |].
  - intros [name' sidebar'] _. simpl.
    destruct (buildSidebar_returns_or_throws sidebar') as [[menu ->]| ->];
      simpl; eauto.
  - simpl. now rewrite (buildSidebar_inherited sidebar item Hin Hitem).
Qed.

(** Mapping over the pruned items visits the same notes with the same
    indexes, provided each kept item behaves like its pruned form. *)
Lemma mapItems_prune f items : ∀ ix,
  (∀ item ix', In item items →
     f item ix' = match pruneItem item with
                  | Some item' => f item' ix'
                  | None => Done (None, ix')
                  end) →
  mapItems f items ix = mapItems f (omap pruneItem items) ix.
Proof.
  induction items as [|item items IH]; intros ix Hf; [reflexivity|].
  rewrite mapItems_cons, (Hf item ix) by now left.
  change (omap pruneItem (item :: items))
    with (match pruneItem item with
          | Some item' => item' :: omap pruneItem items
          | None => omap pruneItem items
          end).
  destruct (pruneItem item) as [item'|].
  - rewrite mapItems_cons.
    destruct (f item' ix) as [[maybeNode ix1]| |]; simpl; try reflexivity.
    rewrite IH; [reflexivity|]. intros; apply Hf; now right.
  - simpl. rewrite IH; [|intros; apply Hf; now right].
    now destruct (mapItems f _ ix) as [[nodes ix']| |].
Qed.

Lemma itemToTreeMenuNode_prune item : ∀ parent ix,
  itemToTreeMenuNode getName noteDict item parent ix
  = match pruneItem item with
    | Some item' => itemToTreeMenuNode getName noteDict item' parent ix
    | None => Done (None, ix)
    end.
Proof.
  induction item as [id label pos | label items link pos IH]
    using SidebarItem_nested_ind; intros parent ix.
  - simpl. destruct (itemToNote noteDict (ItemNote id label pos)) eqn:Hnote;
      simpl; now rewrite ?Hnote.
  - destruct (itemToNote noteDict (ItemCategory label items link pos))
      as [note| |] eqn:Hnote.
    + assert (Hpruned : pruneItem (ItemCategory label items link pos)
                        = Some (ItemCategory label (omap pruneItem items) link pos))
        by (simpl; simpl in Hnote; now rewrite Hnote).
      rewrite Hpruned. cbv beta iota.
      rewrite (itemToTreeMenuNode_category _ items _ _ _ _ note Hnote).
      assert (Hnote' : itemToNote noteDict
                (ItemCategory label (omap pruneItem items) link pos) = Own note)
        by exact Hnote.
      rewrite (itemToTreeMenuNode_category _ _ _ _ _ _ note Hnote').
      rewrite (mapItems_prune
                 (fun item =>
                    itemToTreeMenuNode getName noteDict item (Some (note_id note))));
        [reflexivity|].
      intros item ix' Hin. rewrite List.Forall_forall in IH. now apply IH.
    + assert (Hpruned : pruneItem (ItemCategory label items link pos)
                        = Some (ItemCategory label (omap pruneItem items) link pos))
        by (simpl; simpl in Hnote; now rewrite Hnote).
      rewrite Hpruned. cbv beta iota.
      assert (Hnote' : itemToNote noteDict
                (ItemCategory label (omap pruneItem items) link pos) = Inherited)
        by exact Hnote.
      now rewrite !itemToTreeMenuNode_inherited.
    + assert (Hpruned : pruneItem (ItemCategory label items link pos) = None)
        by (simpl; simpl in Hnote; now rewrite Hnote).
      rewrite Hpruned. now apply itemToTreeMenuNode_missing.
Qed.

Lemma buildSidebar_prune sidebar :
  buildSidebar getName noteDict sidebar
  = buildSidebar getName noteDict (omap pruneItem sidebar).
Proof.
  unfold buildSidebar.
  rewrite (mapItems_prune
             (fun item => itemToTreeMenuNode getName noteDict item None));
    [reflexivity|].
  intros item ix' _. apply itemToTreeMenuNode_prune.
Qed.

Lemma generateTreeData_prune sidebars :
  generateTreeData getName noteDict sidebars
  = generateTreeData getName noteDict (pruneSidebars sidebars).
Proof.
  unfold generateTreeData. f_equal.
  induction sidebars as [|[name sidebar] rest IH]; [reflexivity|].
  simpl pruneSidebars. rewrite !mapM_outcome_cons. simpl.
  now rewrite <- buildSidebar_prune, IH.
Qed.

Lemma mapItems_returns f items :
  (∀ x ix', In x items → ∃ r, f x ix' = Done r) →
  ∀ ix, ∃ r, mapItems f items ix = Done r.
Proof.
  induction items as [|x items IH]; intros Hf ix; [simpl; eauto|].
  rewrite mapItems_cons. destruct (Hf x ix (or_introl eq_refl)) as [r ->].
  simpl. destruct (IH (fun y ix' Hy => Hf y ix' (or_intror Hy)) (snd r)) as [rs ->].
  simpl. eauto.
Qed.

Lemma itemToTreeMenuNode_returns item : ∀ parent ix,
  readsNotes item = true →
  ∃ r, itemToTreeMenuNode getName noteDict item parent ix = Done r.
Proof.
  induction item as [id label pos | label items link pos IH]
    using SidebarItem_nested_ind; intros parent ix Hreads.
  - simpl in *. destruct (itemToNote noteDict (ItemNote id label pos));
      [eauto | discriminate | eauto].
  - destruct (itemToNote noteDict (ItemCategory label items link pos))
      as [note| |] eqn:Hnote.
    + rewrite (itemToTreeMenuNode_category _ _ _ _ _ _ note Hnote).
      assert (Hitems : forallb readsNotes items = true)
        by (simpl in Hreads; simpl in Hnote; now rewrite Hnote in Hreads).
      rewrite List.Forall_forall in IH. rewrite forallb_forall in Hitems.
      destruct (mapItems_returns
                  (fun item => itemToTreeMenuNode getName noteDict item
                                 (Some (note_id note)))
                  items (fun x ix' Hx => IH x Hx _ ix' (Hitems x Hx))
                  (recordParent (note_id note) parent
                     (recordLabel (note_id note) (default (note_title note) label) ix)))
        as [rs ->]. simpl. eauto.
    + simpl in Hreads. simpl in Hnote. rewrite Hnote in Hreads. discriminate.
    + rewrite itemToTreeMenuNode_missing by exact Hnote. eauto.
Qed.

Lemma generateTreeData_returns sidebars :
  (∀ name sidebar, In (name, sidebar) sidebars → forallb readsNotes sidebar = true) →
  ∃ menu, generateTreeData getName noteDict sidebars = Done menu.
Proof.
  intros Hreads. unfold generateTreeData.
  destruct (mapM_outcome_all_Done
              (fun kv : string * Sidebar =>
                 menu ← buildSidebar getName noteDict (snd kv); Done (fst kv, menu))
              sidebars) as [menus ->]; [|simpl; eauto].
  intros [name sidebar] Hin. simpl. unfold buildSidebar.
  specialize (Hreads name sidebar Hin). rewrite forallb_forall in Hreads.
  destruct (mapItems_returns
              (fun item => itemToTreeMenuNode getName noteDict item None) sidebar
              (fun x ix' Hx => itemToTreeMenuNode_returns x None ix' (Hreads x Hx))
              (mkIndexes ∅ ∅)) as [rs ->].
  simpl. eauto.
Qed.

End TreeMenuFacts.

(** The note graph [root], [a], [b], [a.x] in which [a] and [b] are the
    children of [root] and [a.x] is the child of [a]. *)
Definition smallGraph : NotePropsByIdDict :=
  [ ("root", plainNote "root" "root" ["a"; "b"]);
    ("a", plainNote "a" "a" ["a.x"]);
    ("b", plainNote "b" "b" []);
    ("a.x", plainNote "a.x" "a.x" []) ].

(** C8 (violated by the code): an item whose id is no key of the
    collection but names a member that every object inherits
    ([constructor], [toString], ...) is not dropped: [noteDict[noteId]]
    finds the inherited member, which is not [undefined], and the icon
    selection reads [fname.toLowerCase] on it. [itemToTreeMenuNode] raises
    a [TypeError], and with it the build of every sidebar mapping that
    holds the item, at top level or among the items of a category whose
    note is found. *)
Theorem C8_generateTreeData_throws_on_inherited_id
    (getName : DVault → string) (noteDict : NotePropsByIdDict) (item : SidebarItem) :
  itemToNote noteDict item = Inherited →
  (∀ parent ix,
     itemToTreeMenuNode getName noteDict item parent ix = Throw ThrowTypeError) ∧
  (∀ sidebars name sidebar,
     In (name, sidebar) sidebars → In item sidebar →
     generateTreeData getName noteDict sidebars = Throw ThrowTypeError) ∧
  (∀ label items link pos note parent ix,
     itemToNote noteDict (ItemCategory label items link pos) = Own note →
     In item items →
     itemToTreeMenuNode getName noteDict (ItemCategory label items link pos) parent ix
     = Throw ThrowTypeError).
Proof.
  intros Hitem. split; [|split].
  - intros parent ix. now apply itemToTreeMenuNode_inherited.
  - intros sidebars name sidebar Hside Hin.
    now apply (generateTreeData_inherited getName noteDict sidebars name sidebar item).
  - intros label items link pos note parent ix Hnote Hin.
    rewrite (itemToTreeMenuNode_category _ _ _ _ _ _ _ _ note Hnote).
    rewrite (mapItems_throws_at
               (fun item => itemToTreeMenuNode getName noteDict item
                              (Some (note_id note))) items item);
      [reflexivity | | exact Hin |].
    + intros x ix' _. apply itemToTreeMenuNode_returns_or_throws.
    + intros ix'. now apply itemToTreeMenuNode_inherited.
Qed.

Lemma C8_generateTreeData_witness :
  let named := ItemNote (Some "constructor") (Some "C") noPosition in
  let kept := ItemNote (Some "b") None noPosition in
  get smallGraph "constructor" = None ∧
  itemToNote smallGraph named = Inherited ∧
  generateTreeData vault_name_or_path smallGraph [("s", [kept; named])]
  = Throw ThrowTypeError.
Proof.
  intros named kept. split; [reflexivity|]. split; [reflexivity|].
  exact (proj1 (proj2 (C8_generateTreeData_throws_on_inherited_id
           vault_name_or_path smallGraph named eq_refl))
           [("s", [kept; named])] "s" [kept; named]
           (or_introl eq_refl) (or_intror (or_introl eq_refl))).
Defined.

(** X22: an item for which [noteDict[noteId]] is [undefined] (its id is no
    key of the collection and no name that objects inherit) is dropped.
    [itemToTreeMenuNode] returns no node for it and leaves both indexes as
    they were, whatever the items nested in it; whether the item sits in a
    sidebar or among the items of a category, its siblings are processed
    as if it were not there; [generateTreeData] builds what it builds for
    the sidebars from which all such items have been removed; and it
    returns a tree menu whenever no item, at any depth, names an inherited
    member. *)
Theorem X22_generateTreeData_drops_missing_notes
    (getName : DVault → string) (noteDict : NotePropsByIdDict) :
  (∀ sidebars,
     generateTreeData getName noteDict sidebars
     = generateTreeData getName noteDict (pruneSidebars noteDict sidebars)) ∧
  (∀ sidebars,
     (∀ name sidebar, In (name, sidebar) sidebars →
        forallb (readsNotes noteDict) sidebar = true) →
     ∃ menu, generateTreeData getName noteDict sidebars = Done menu) ∧
  ∀ item, itemToNote noteDict item = NoMember →
    (∀ parent ix,
       itemToTreeMenuNode getName noteDict item parent ix = Done (None, ix)) ∧
    (∀ name before after rest,
       generateTreeData getName noteDict ((name, before ++ item :: after) :: rest)
       = generateTreeData getName noteDict ((name, before ++ after) :: rest)) ∧
    (∀ label before after link pos parent ix,
       itemToTreeMenuNode getName noteDict
         (ItemCategory label (before ++ item :: after) link pos) parent ix
       = itemToTreeMenuNode getName noteDict
           (ItemCategory label (before ++ after) link pos) parent ix).
Proof.
  split; [apply generateTreeData_prune|].
  split; [apply generateTreeData_returns|].
  intros item Hmiss. split; [|split].
  - intros parent ix. now apply itemToTreeMenuNode_missing.
  - intros name before after rest. unfold generateTreeData, buildSidebar.
    rewrite !mapM_outcome_cons. simpl.
    rewrite mapItems_skip; [reflexivity|].
    intros ix'. now apply itemToTreeMenuNode_missing.
  - intros label before after link pos parent ix.
    destruct (itemToNote noteDict (ItemCategory label (before ++ after) link pos))
      as [note| |] eqn:Hnote.
    + rewrite (itemToTreeMenuNode_category _ _ _ (before ++ item :: after) _ _ _ _
                 note Hnote).
      rewrite (itemToTreeMenuNode_category _ _ _ (before ++ after) _ _ _ _ note Hnote).
      rewrite mapItems_skip; [reflexivity|].
      intros ix'. now apply itemToTreeMenuNode_missing.
    + now rewrite !itemToTreeMenuNode_inherited.
    + now rewrite !itemToTreeMenuNode_missing.
Qed.

Lemma X22_generateTreeData_witness :
  let gone := ItemCategory (Some "Gone") [ItemNote (Some "a.x") None noPosition]
                (Some "ghost") noPosition in
  let kept := ItemNote (Some "b") None noPosition in
  itemToNote smallGraph gone = NoMember ∧
  generateTreeData vault_name_or_path smallGraph [("s", [gone; kept])]
  = generateTreeData vault_name_or_path smallGraph [("s", [kept])] ∧
  roots <$> generateTreeData vault_name_or_path smallGraph [("s", [gone; kept])]
  = Done [mkTreeMenuNode "b" "b" None false "v1" false []].
Proof.
  intros gone kept. split; [reflexivity|]. split.
  - exact (proj1 (proj2 (proj2 (proj2 (X22_generateTreeData_drops_missing_notes
             vault_name_or_path smallGraph)) gone eq_refl))
             "s" [] [kept] []).
  - reflexivity.
Defined.

(** *** C3: autogeneration over a dangling child pointer *)

(** Note [p] lists a child [ghost] that is not a key of the collection. *)
Definition danglingChild : NotePropsByIdDict :=
  [ ("p", plainNote "p" "p" ["ghost"]) ].

Lemma member_None_not_Own noteDict noteId :
  get noteDict noteId = None →
  member noteDict noteId = Inherited ∨ member noteDict noteId = NoMember.
Proof. unfold member. intros ->. destruct (inherited noteId); auto. Qed.

(** Wherever the dangling id stands in the list, [generateSidebar] does not
    complete: the missing note is never skipped. *)
Lemma generateSidebar_dangling_never_done notesById fuel noteIds ghost :
  In ghost noteIds → get notesById ghost = None →
  ∀ items, generateSidebar notesById fuel noteIds ≠ Done items.
Proof.
  intros Hin Hghost items Hrun. destruct fuel as [|fuel]; [discriminate|].
  simpl in Hrun.
  destruct (mapM _ noteIds) as [maybeItems| |] eqn:Hmap; try discriminate.
  destruct (mapM_outcome_In _ _ _ Hmap ghost Hin) as [y Hy].
  destruct (member_None_not_Own notesById ghost Hghost) as [Hm|Hm];
    now rewrite Hm in Hy.
Qed.

(** C3 (violated by the code): expanding an autogenerated item anchored at
    [p], whose children list holds the unknown id [ghost], reads the
    properties of the missing note before the [if (!note)] test is reached
    and raises a [TypeError] instead of leaving the child out. The resolver
    returns no sidebar: its result is the error that the handler of
    [safeProcessItem] makes of that [TypeError], whatever
    [isDendronError] answers for it. *)
Theorem C3_generateSidebar_dangling_child_throws
    (isDendronError : Thrown → bool) (fuel : nat) :
  get danglingChild "ghost" = None ∧
  findHierarchySources danglingChild (Some "p") = Done (Some ["ghost"]) ∧
  generateSidebar danglingChild (S fuel) ["ghost"] = Throw ThrowTypeError ∧
  defaultSidebarItemsGenerator danglingChild (S fuel) (Some "p")
    = Throw ThrowTypeError ∧
  processSidebars isDendronError danglingChild None (S fuel)
      (ok [("defaultSidebar", [ConfigAutogenerated "p"])])
    = Some (err (onThrow isDendronError ThrowTypeError)).
Proof. repeat split; reflexivity. Qed.

(** *** C6: duplicate notes and vault priority *)

(** The selection rule in the words of the specification: the first vault
    name of the priority list, in list order, in which one of the candidate
    notes lives decides, and the note of that vault is picked; when no name
    of the list matches, the first candidate is used. *)
Definition pickByPriority (names : list string) (candidates : list NoteProps)
    : option NoteProps :=
  match List.find
          (fun v => existsb (fun n => String.eqb (vaultKey n) v) candidates) names
  with
  | Some v => List.find (fun n => String.eqb (vaultKey n) v) candidates
  | None => head candidates
  end.

(** Two notes with path [x], in vaults [v1] and [v2]. *)
Definition duplicateX : NotePropsByIdDict :=
  [ ("id-1", mkNote "id-1" "x" "X one" [] vaultOne false false None 0);
    ("id-2", mkNote "id-2" "x" "X two" [] vaultTwo false false None 0) ].

Definition preferVaults (names : list string) : option DuplicateNoteBehavior :=
  Some (mkDuplicateNoteBehavior (PayloadVaults names)).

Lemma newMap_lookup_acc entries : ∀ (m : gmap string NoteProps) k,
  foldl (fun m kv => <[fst kv := snd kv]> m) m entries !! k
  = match last (List.filter (fun kv => String.eqb (fst kv) k) entries) with
    | Some kv => Some (snd kv)
    | None => m !! k
    end.
Proof.
  induction entries as [|[k' n] entries IH]; intros m k; simpl; [reflexivity|].
  rewrite IH. destruct (String.eqb_spec k' k) as [->|Hne]; simpl.
  - destruct (List.filter _ entries) as [|kv l] eqn:Hf; simpl.
    + apply lookup_insert_eq.
    + destruct (last (kv :: l)) eqn:Hl; [reflexivity|].
      apply last_None in Hl. discriminate.
  - destruct (last _); [reflexivity|]. now apply lookup_insert_ne.
Qed.

Lemma last_map {A B} (g : A → B) (l : list A) :
  last (List.map g l) = g <$> last l.
Proof.
  induction l as [|x l IH]; [reflexivity|].
  destruct l as [|y l]; [reflexivity|]. exact IH.
Qed.

Lemma filter_map_comm {A B} (g : A → B) (p : B → bool) (l : list A) :
  List.filter p (List.map g l) = List.map g (List.filter (fun x => p (g x)) l).
Proof.
  induction l as [|x l IH]; simpl; [reflexivity|].
  destruct (p (g x)); simpl; now rewrite IH.
Qed.

Lemma newMap_lookup candidates v :
  newMap (List.map (fun n => (vaultKey n, n)) candidates) !! v
  = last (List.filter (fun n => String.eqb (vaultKey n) v) candidates).
Proof.
  unfold newMap. rewrite newMap_lookup_acc, lookup_empty.
  rewrite filter_map_comm, last_map. simpl.
  now destruct (last _).
Qed.

Lemma last_filter_NoDup {A} (key : A → string) v (l : list A) :
  NoDup (List.map key l) →
  last (List.filter (fun n => String.eqb (key n) v) l)
  = List.find (fun n => String.eqb (key n) v) l.
Proof.
  induction l as [|n l IH]; simpl; [reflexivity|].
  intros Hnd. apply NoDup_cons in Hnd as [Hnotin Hnd].
  destruct (String.eqb_spec (key n) v) as [<-|Hne]; [|now apply IH].
  replace (List.filter _ l) with (@nil A); [reflexivity|].
  symmetry. clear IH Hnd. induction l as [|n' l IH]; simpl; [reflexivity|].
  destruct (String.eqb_spec (key n') (key n)) as [Heq|_].
  - exfalso. apply Hnotin. rewrite <- Heq. simpl. apply list_elem_of_here.
  - apply IH. intros Hin. apply Hnotin. simpl. now apply list_elem_of_further.
Qed.

Lemma find_filter_weaker {A} (p q : A → bool) l :
  (∀ y, p y = true → q y = true) →
  List.find p (List.filter q l) = List.find p l.
Proof.
  intros Hpq. induction l as [|x l IH]; simpl; [reflexivity|].
  destruct (q x) eqn:Hq; simpl.
  - now rewrite IH.
  - destruct (p x) eqn:Hp; [|exact IH]. apply Hpq in Hp. congruence.
Qed.

Lemma find_uniq p names : List.find p (Js.uniq names) = List.find p names.
Proof.
  induction names as [|x names IH]; simpl; [reflexivity|].
  destruct (p x) eqn:Hp; [reflexivity|].
  rewrite find_filter_weaker; [exact IH|].
  intros y Hy. destruct (String.eqb_spec y x) as [->|_]; [congruence|reflexivity].
Qed.

Lemma head_map_filter {A B} (g : A → B) p (l : list A) :
  head (List.map g (List.filter p l)) = g <$> List.find p l.
Proof.
  induction l as [|x l IH]; simpl; [reflexivity|].
  destruct (p x); simpl; [reflexivity | exact IH].
Qed.

Lemma find_ext_bool {A} (p q : A → bool) l :
  (∀ x, p x = q x) → List.find p l = List.find q l.
Proof.
  intros Hpq. induction l as [|x l IH]; simpl; [reflexivity|].
  now rewrite Hpq, IH.
Qed.

Lemma is_Some_last_filter {A} (p : A → bool) l :
  bool_decide (is_Some (last (List.filter p l))) = existsb p l.
Proof.
  induction l as [|x l IH]; simpl; [reflexivity|].
  destruct (p x) eqn:Hp; simpl; [|exact IH].
  apply bool_decide_eq_true. destruct (List.filter p l) as [|y l'].
  - eauto.
  - rewrite last_cons_cons. destruct (last (y :: l')) eqn:Hl; [eauto|].
    apply last_None in Hl. discriminate.
Qed.

(** [selectByVault] against the rule of the specification, for candidates
    that live in pairwise distinct vaults. *)
Lemma selectByVault_priority names candidates :
  NoDup (List.map vaultKey candidates) →
  selectByVault (preferVaults names) candidates
  = v ← List.find
          (fun v => existsb (fun n => String.eqb (vaultKey n) v) candidates) names;
    List.find (fun n => String.eqb (vaultKey n) v) candidates.
Proof.
  intros Hnd. unfold selectByVault, preferVaults, getPriorityVaults. simpl.
  rewrite head_map_filter, find_uniq.
  rewrite (find_ext_bool _
    (fun v => existsb (fun n => String.eqb (vaultKey n) v) candidates)).
  - destruct (List.find _ names) as [v|]; simpl; [|reflexivity].
    rewrite newMap_lookup. now apply last_filter_NoDup.
  - intros v. rewrite newMap_lookup. apply is_Some_last_filter.
Qed.

Lemma existsb_vault_In candidates v :
  existsb (fun n => String.eqb (vaultKey n) v) candidates = true ↔
  ∃ n, In n candidates ∧ vaultKey n = v.
Proof.
  rewrite existsb_exists. split; intros (n & Hin & Hv); exists n;
    (split; [exact Hin|]); now apply String.eqb_eq.
Qed.

Lemma find_first_priority candidates before v after :
  (∀ u n, In u before → In n candidates → vaultKey n ≠ u) →
  (∃ n, In n candidates ∧ vaultKey n = v) →
  List.find (fun v => existsb (fun n => String.eqb (vaultKey n) v) candidates)
    (before ++ v :: after) = Some v.
Proof.
  intros Hbefore Hhere. apply existsb_vault_In in Hhere.
  induction before as [|u before IH]; simpl.
  - now rewrite Hhere.
  - destruct (existsb (fun n => String.eqb (vaultKey n) u) candidates) eqn:Hu.
    + apply existsb_vault_In in Hu as (n & Hn & Hnu).
      exfalso. apply (Hbefore u n); [now left | exact Hn | exact Hnu].
    + apply IH. intros u' n Hu' Hn. apply Hbefore; [now right | exact Hn].
Qed.

Lemma notesAmong_Own candidates : notesAmong (List.map Own candidates) = candidates.
Proof.
  unfold notesAmong. induction candidates as [|c cs IH]; [reflexivity|].
  simpl. change (omap ?f (Own c :: ?l)) with (c :: omap f l). now f_equal.
Qed.

(** C6: when the reference is found neither as an id nor as an inherited
    name, its path matches several notes, one per vault, and
    [duplicateNoteBehavior] carries a list of vault names, [resolveItemId]
    returns the id of the note picked by the rule of the specification.
    That note is a candidate; it lives in the first vault of the list (in
    list order) that holds a candidate, and it is the first candidate when
    the list is empty or names no vault of a candidate. *)
Theorem C6_resolveItemId_vault_priority
    (notes : NotePropsByIdDict) (names : list string) (sidebarId : string) :
  let candidates :=
    List.filter (fun note => String.eqb (note_fname note) sidebarId) (values notes) in
  member notes sidebarId = NoMember →
  (1 < length candidates)%nat →
  NoDup (List.map vaultKey candidates) →
  ∃ note,
    pickByPriority names candidates = Some note ∧
    resolveItemId notes (preferVaults names) sidebarId = Done (Some (note_id note)) ∧
    In note candidates ∧
    (∀ before v after,
       names = before ++ v :: after →
       (∀ u n, In u before → In n candidates → vaultKey n ≠ u) →
       (∃ n, In n candidates ∧ vaultKey n = v) →
       vaultKey note = v) ∧
    ((∀ u n, In u names → In n candidates → vaultKey n ≠ u) →
     head candidates = Some note).
Proof.
  intros candidates Hget Hlen Hnd.
  assert (Hrun : resolveItemId notes (preferVaults names) sidebarId
                 = match pickByPriority names candidates with
                   | Some n => Done (Some (note_id n))
                   | None => Throw (ThrowDendron (doesNotExist sidebarId))
                   end).
  { unfold resolveItemId, possibleNotes. rewrite Hget. fold candidates.
    rewrite length_map, notesAmong_Own.
    apply Nat.ltb_lt in Hlen. rewrite Hlen.
    rewrite (selectByVault_priority names candidates Hnd).
    unfold pickByPriority.
    destruct (List.find _ names) as [v|] eqn:Hfind; simpl.
    - apply find_some in Hfind as [_ Hex].
      apply existsb_exists in Hex as (n & Hin & Hv).
      destruct (List.find _ candidates) eqn:Hc; [reflexivity|].
      apply find_none with (x := n) in Hc; [congruence | exact Hin].
    - now destruct candidates. }
  assert (Hpick : ∃ note, pickByPriority names candidates = Some note).
  { unfold pickByPriority.
    destruct (List.find _ names) as [v|] eqn:Hfind.
    - apply find_some in Hfind as [_ Hex].
      apply existsb_exists in Hex as (n & Hin & Hv).
      destruct (List.find _ candidates) eqn:Hc; [eauto|].
      apply find_none with (x := n) in Hc; [congruence | exact Hin].
    - destruct candidates; [simpl in Hlen; lia | simpl; eauto]. }
  destruct Hpick as [note Hpick]. exists note.
  split; [exact Hpick|]. split; [now rewrite Hrun, Hpick|].
  unfold pickByPriority in Hpick.
  destruct (List.find _ names) as [v|] eqn:Hfind.
  - apply find_some in Hpick as [Hin Hv]. apply String.eqb_eq in Hv.
    split; [exact Hin|]. split.
    + intros before v' after -> Hbefore Hhere.
      rewrite (find_first_priority candidates before v' after Hbefore Hhere)
        in Hfind.
      congruence.
    + intros Hnone. apply find_some in Hfind as [Hvin Hex].
      apply existsb_vault_In in Hex as (n & Hn & Hnv).
      exfalso. now apply (Hnone v n).
  - split; [|split].
    + destruct candidates as [|c cs]; [discriminate|].
      injection Hpick as <-. now left.
    + intros before v after -> _ Hhere. apply existsb_vault_In in Hhere.
      apply find_none with (x := v) in Hfind; [congruence|].
      apply in_or_app. right. now left.
    + intros _. exact Hpick.
Qed.

Lemma C6_resolveItemId_witness :
  member duplicateX "x" = NoMember ∧
  resolveItemId duplicateX (preferVaults ["v2"]) "x" = Done (Some "id-2") ∧
  resolveItemId duplicateX (preferVaults []) "x" = Done (Some "id-1") ∧
  resolveItemId duplicateX (preferVaults ["v9"]) "x" = Done (Some "id-1").
Proof.
  split; [reflexivity|].
  assert (Hlen : (1 < length (List.filter
                     (fun note => String.eqb (note_fname note) "x")
                     (values duplicateX)))%nat) by (simpl; lia).
  assert (Hnd : NoDup (List.map vaultKey
                  (List.filter (fun note => String.eqb (note_fname note) "x")
                     (values duplicateX)))).
  { simpl. apply NoDup_cons. split; [|apply NoDup_singleton].
    intros Hin. apply list_elem_of_singleton in Hin. discriminate. }
  split; [|split].
  - destruct (C6_resolveItemId_vault_priority duplicateX ["v2"] "x"
                eq_refl Hlen Hnd) as (note & Hpick & Hrun & _).
    injection Hpick as <-. exact Hrun.
  - destruct (C6_resolveItemId_vault_priority duplicateX [] "x"
                eq_refl Hlen Hnd) as (note & Hpick & Hrun & _).
    injection Hpick as <-. exact Hrun.
  - destruct (C6_resolveItemId_vault_priority duplicateX ["v9"] "x"
                eq_refl Hlen Hnd) as (note & Hpick & Hrun & _).
    injection Hpick as <-. exact Hrun.
Defined.

(** *** Comparisons that are orders *)

Definition leCmp {A} (cmp : A → A → comparison) (x y : A) : Prop := cmp x y ≠ Gt.

(** A three-way comparison of a strict total order whose [Eq] is equality. *)
Record OrderCompare {A} (cmp : A → A → comparison) : Prop := mkOrderCompare {
  cmp_eq : ∀ x y, cmp x y = Eq ↔ x = y;
  cmp_antisym : ∀ x y, cmp y x = CompOpp (cmp x y);
  cmp_lt_trans : ∀ x y z, cmp x y = Lt → cmp y z = Lt → cmp x z = Lt
}.

Lemma Z_OrderCompare : OrderCompare Z.compare.
Proof.
  split.
  - apply Z.compare_eq_iff.
  - intros x y. apply Z.compare_antisym.
  - intros x y z. rewrite !Z.compare_lt_iff. lia.
Qed.

Lemma ascii_compare_lt_trans a b c :
  Ascii.compare a b = Lt → Ascii.compare b c = Lt → Ascii.compare a c = Lt.
Proof. unfold Ascii.compare. rewrite !N.compare_lt_iff. lia. Qed.

Lemma ascii_compare_refl a : Ascii.compare a a = Eq.
Proof. unfold Ascii.compare. apply N.compare_refl. Qed.

Lemma string_compare_lt_trans x : ∀ y z,
  String.compare x y = Lt → String.compare y z = Lt → String.compare x z = Lt.
Proof.
  induction x as [|a x IH]; intros [|b y] [|c z]; simpl; try easy.
  destruct (Ascii.compare a b) eqn:Hab; try discriminate;
    destruct (Ascii.compare b c) eqn:Hbc; try discriminate; intros Hxy Hyz.
  - apply Ascii.compare_eq_iff in Hab, Hbc. subst.
    rewrite ascii_compare_refl. now apply (IH y z).
  - apply Ascii.compare_eq_iff in Hab. subst. now rewrite Hbc.
  - apply Ascii.compare_eq_iff in Hbc. subst. now rewrite Hab.
  - now rewrite (ascii_compare_lt_trans a b c).
Qed.

Lemma string_compare_refl x : String.compare x x = Eq.
Proof.
  induction x as [|a x IH]; simpl; [reflexivity|].
  now rewrite ascii_compare_refl.
Qed.

Lemma string_OrderCompare : OrderCompare String.compare.
Proof.
  split.
  - intros x y. split; [apply String.compare_eq_iff|].
    intros ->. apply string_compare_refl.
  - intros x y. apply String.compare_antisym.
  - apply string_compare_lt_trans.
Qed.

Lemma compareAscending_OrderCompare {A} (cmp : A → A → comparison) :
  OrderCompare cmp → OrderCompare (Js.compareAscending cmp).
Proof.
  intros [Heq Hanti Htrans]. split.
  - intros [x|] [y|]; simpl; try (split; congruence).
    rewrite Heq. split; congruence.
  - intros [x|] [y|]; simpl; auto.
  - intros [x|] [y|] [z|]; simpl; try easy. apply Htrans.
Qed.

(** The lexicographic comparison of pairs of keys, as [compareMultiple]
    performs it. *)
Definition comparePair {A B} (cmpA : A → A → comparison) (cmpB : B → B → comparison)
    (x y : A * B) : comparison :=
  Js.thenCompare (cmpA (fst x) (fst y)) (cmpB (snd x) (snd y)).

Lemma comparePair_OrderCompare {A B} (cmpA : A → A → comparison)
    (cmpB : B → B → comparison) :
  OrderCompare cmpA → OrderCompare cmpB → OrderCompare (comparePair cmpA cmpB).
Proof.
  intros [HeqA HantiA HtransA] [HeqB HantiB HtransB]. split.
  - intros [a b] [a' b']. unfold comparePair. simpl.
    destruct (cmpA a a') eqn:Ha; simpl.
    + apply HeqA in Ha. subst. rewrite HeqB. split; congruence.
    + split; [discriminate|]. intros [= -> ->].
      assert (cmpA a' a' = Eq) by now apply HeqA. congruence.
    + split; [discriminate|]. intros [= -> ->].
      assert (cmpA a' a' = Eq) by now apply HeqA. congruence.
  - intros [a b] [a' b']. unfold comparePair. simpl.
    rewrite (HantiA a a'). destruct (cmpA a a'); simpl; auto.
  - intros [a b] [a' b'] [a'' b'']. unfold comparePair. simpl.
    destruct (cmpA a a') eqn:H1; simpl; try discriminate;
      destruct (cmpA a' a'') eqn:H2; simpl; try discriminate; intros Hb Hb'.
    + apply HeqA in H1, H2. subst.
      assert (Hr : cmpA a'' a'' = Eq) by now apply HeqA.
      rewrite Hr. simpl. now apply (HtransB b b' b'').
    + apply HeqA in H1. subst. now rewrite H2.
    + apply HeqA in H2. subst. now rewrite H1.
    + now rewrite (HtransA a a' a'').
Qed.

Lemma OrderCompare_le_trans {A} (cmp : A → A → comparison) :
  OrderCompare cmp → ∀ x y z, leCmp cmp x y → leCmp cmp y z → leCmp cmp x z.
Proof.
  intros [Heq Hanti Htrans] x y z. unfold leCmp.
  destruct (cmp x y) eqn:Hxy; [| |congruence]; intros _;
    destruct (cmp y z) eqn:Hyz; try congruence; intros _.
  - apply Heq in Hxy, Hyz. subst.
    assert (cmp z z = Eq) by now apply Heq. congruence.
  - apply Heq in Hxy. subst. congruence.
  - apply Heq in Hyz. subst. congruence.
  - rewrite (Htrans x y z Hxy Hyz). discriminate.
Qed.

Section SortSorted.
Context {A : Type} (cmp : A → A → comparison).
Hypothesis cmp_total : ∀ x y, cmp x y = Gt → leCmp cmp y x.
Hypothesis le_trans : ∀ x y z, leCmp cmp x y → leCmp cmp y z → leCmp cmp x z.

Lemma insertSorted_sorted x l :
  StronglySorted (leCmp cmp) l → StronglySorted (leCmp cmp) (Js.insertSorted cmp x l).
Proof.
  induction 1 as [|y l Hs IH Hall]; simpl; [repeat constructor|].
  destruct (cmp x y) eqn:Hxy.
  - constructor; [now constructor|]. constructor; [unfold leCmp; congruence|].
    eapply List.Forall_impl; [|exact Hall]. intros z Hz.
    apply (le_trans x y z); [unfold leCmp; congruence | exact Hz].
  - constructor; [now constructor|]. constructor; [unfold leCmp; congruence|].
    eapply List.Forall_impl; [|exact Hall]. intros z Hz.
    apply (le_trans x y z); [unfold leCmp; congruence | exact Hz].
  - constructor; [exact IH|].
    apply List.Forall_forall. intros z Hz.
    apply (Permutation_in _ (insertSorted_perm cmp x l)) in Hz.
    destruct Hz as [<-|Hz]; [now apply cmp_total|].
    rewrite List.Forall_forall in Hall. now apply Hall.
Qed.

Lemma sort_sorted l : StronglySorted (leCmp cmp) (Js.sort cmp l).
Proof.
  induction l as [|x l IH]; [constructor|].
  unfold Js.sort. simpl. now apply insertSorted_sorted.
Qed.
End SortSorted.

(** *** C4: [sortItems] *)

(** The sibling order in the words of the specification: by explicit numeric
    position if present, otherwise by path name, ascending. Items with a
    position come before items without one; equal positions fall back to
    the path name. *)
Definition fnameLe (a b : SidebarItem) : Prop :=
  match pos_fname (item_pos a), pos_fname (item_pos b) with
  | Some f, Some g => String.leb f g = true
  | Some _, None => True
  | None, Some _ => False
  | None, None => True
  end.

Definition positionalLe (a b : SidebarItem) : Prop :=
  match position (item_pos a), position (item_pos b) with
  | Some x, Some y => (x < y)%Z ∨ (x = y ∧ fnameLe a b)
  | Some _, None => True
  | None, Some _ => False
  | None, None => fnameLe a b
  end.

Definition isNoPosition (pos : Positional) : bool :=
  match pos with
  | mkPositional None None None => true
  | _ => false
  end.

(** No positional hint is left on the item or on any item nested in it. *)
Fixpoint hintsAbsent (item : SidebarItem) : bool :=
  match item with
  | ItemNote _ _ pos => isNoPosition pos
  | ItemCategory _ items _ pos => isNoPosition pos && forallb hintsAbsent items
  end.

(** The item [after] is the item [before] with its positional hints taken
    away and nothing else changed: the same kind of item, with the same id
    or link, label and nested items. *)
Definition hintsRemoved (before after : SidebarItem) : Prop :=
  match before, after with
  | ItemNote id label _, ItemNote id' label' pos' =>
      id' = id ∧ label' = label ∧ pos' = noPosition
  | ItemCategory label items link _, ItemCategory label' items' link' pos' =>
      label' = label ∧ items' = items ∧ link' = link ∧ pos' = noPosition
  | _, _ => False
  end.

(** The sort key of an item. *)
Definition positionalKey (item : SidebarItem) : option Z * option string :=
  (position (item_pos item), pos_fname (item_pos item)).

Definition compareKey : option Z * option string → option Z * option string → comparison :=
  comparePair (Js.compareAscending Z.compare) (Js.compareAscending String.compare).

Lemma comparePositional_key a b :
  comparePositional a b = compareKey (positionalKey a) (positionalKey b).
Proof. reflexivity. Qed.

Lemma compareKey_OrderCompare : OrderCompare compareKey.
Proof.
  apply comparePair_OrderCompare; apply compareAscending_OrderCompare.
  - apply Z_OrderCompare.
  - apply string_OrderCompare.
Qed.

Lemma comparePositional_total a b :
  comparePositional a b = Gt → leCmp comparePositional b a.
Proof.
  unfold leCmp. rewrite !comparePositional_key.
  rewrite (cmp_antisym _ compareKey_OrderCompare (positionalKey a) (positionalKey b)).
  now intros ->.
Qed.

Lemma comparePositional_le_trans a b c :
  leCmp comparePositional a b → leCmp comparePositional b c →
  leCmp comparePositional a c.
Proof.
  unfold leCmp. rewrite !comparePositional_key.
  apply (OrderCompare_le_trans _ compareKey_OrderCompare).
Qed.

Lemma positionalLe_iff a b : leCmp comparePositional a b ↔ positionalLe a b.
Proof.
  unfold leCmp, comparePositional, positionalLe, fnameLe, String.leb.
  destruct (position (item_pos a)) as [x|], (position (item_pos b)) as [y|];
    simpl; try (split; [tauto | discriminate]); try (split; [congruence | tauto]).
  - destruct (Z.compare_spec x y) as [->|Hlt|Hgt]; simpl.
    + destruct (pos_fname (item_pos a)) as [f|], (pos_fname (item_pos b)) as [g|];
        simpl; try (split; [tauto | discriminate]);
        try (split; [congruence | intros [?|[_ ?]]; [lia | tauto]]).
      destruct (String.compare f g); split; try tauto; try discriminate;
        try congruence; intros [?|[_ ?]]; try lia; discriminate.
    + split; [tauto | discriminate].
    + split; [congruence | intros [?|[? _]]; lia].
  - destruct (pos_fname (item_pos a)) as [f|], (pos_fname (item_pos b)) as [g|];
      simpl; try (split; [tauto | discriminate]); try (split; [congruence | tauto]).
    destruct (String.compare f g); split; try tauto; try discriminate; congruence.
Qed.

Lemma StronglySorted_weaken {A} (R R' : A → A → Prop) l :
  (∀ x y, R x y → R' x y) → StronglySorted R l → StronglySorted R' l.
Proof.
  intros Himpl. induction 1 as [|x l _ IH Hall]; constructor; [exact IH|].
  eapply List.Forall_impl; [|exact Hall]. intros y. apply Himpl.
Qed.

Lemma sortItems_sorted sidebarItems :
  StronglySorted positionalLe
    (Js.sort comparePositional (List.map sortCategory sidebarItems)).
Proof.
  apply (StronglySorted_weaken (leCmp comparePositional)).
  - intros x y. apply positionalLe_iff.
  - apply sort_sorted.
    + apply comparePositional_total.
    + apply comparePositional_le_trans.
Qed.

Lemma stripPositional_sortCategory_hintsAbsent item :
  hintsAbsent (stripPositional (sortCategory item)) = true.
Proof.
  induction item as [id label pos | label items link pos IH]
    using SidebarItem_nested_ind; [reflexivity|].
  simpl. apply forallb_forall. intros x Hx.
  assert (Hin : In x (List.map stripPositional
                        (Js.sort comparePositional (List.map sortCategory items)))).
  { destruct (reverse pos) as [[|]|]; [now apply in_rev | exact Hx | exact Hx]. }
  apply in_map_iff in Hin as (y & <- & Hy).
  apply sort_In, in_map_iff in Hy as (i & <- & Hi).
  rewrite List.Forall_forall in IH. now apply IH.
Qed.

Lemma stripPositional_hintsRemoved items :
  Forall2 hintsRemoved items (List.map stripPositional items).
Proof.
  induction items as [|item items IH]; constructor; [|exact IH].
  destruct item; simpl; auto.
Qed.

(** C4: [sortItems] orders the siblings, after [sortCategory] has sorted the
    nested items of each category, by explicit numeric position if present
    and otherwise by path name, ascending: there is a list that is a
    permutation of the processed siblings and is sorted for [positionalLe],
    and the result holds, in the same order, the items of that list, each
    with its positional hints taken away and nothing else changed. A
    category whose originating note asked for reverse order holds the
    reverse of its sorted nested items, any other category holds them as
    sorted, and a note item is left as it is. No positional hint remains
    on a returned item, at any depth. *)
Theorem C4_sortItems_sorted_and_stripped (sidebarItems : list SidebarItem) :
  (∃ sortedItems,
     Forall2 hintsRemoved sortedItems (sortItems sidebarItems) ∧
     Permutation sortedItems (List.map sortCategory sidebarItems) ∧
     StronglySorted positionalLe sortedItems) ∧
  (∀ label items link pos,
     sortCategory (ItemCategory label items link pos)
     = ItemCategory label
         (match reverse pos with
          | Some true => rev (sortItems items)
          | _ => sortItems items
          end)
         link pos) ∧
  (∀ id label pos, sortCategory (ItemNote id label pos) = ItemNote id label pos) ∧
  forallb hintsAbsent (sortItems sidebarItems) = true.
Proof.
  split; [|split; [|split]].
  - exists (Js.sort comparePositional (List.map sortCategory sidebarItems)).
    split; [apply stripPositional_hintsRemoved|].
    split; [apply sort_perm | apply sortItems_sorted].
  - reflexivity.
  - reflexivity.
  - apply forallb_forall. intros x Hx. unfold sortItems in Hx.
    apply in_map_iff in Hx as (y & <- & Hy).
    apply sort_In, in_map_iff in Hy as (i & <- & Hi).
    apply stripPositional_sortCategory_hintsAbsent.
Qed.

(** *** C9: autogeneration from the root sentinel *)

(** The number of occurrences of the separator in a path. *)
Fixpoint countSep (sep : ascii) (s : string) : nat :=
  match s with
  | EmptyString => O
  | String c rest => if Ascii.eqb c sep then S (countSep sep rest) else countSep sep rest
  end.

(** A top-level note in the words of the specification: its path has exactly
    one dot-delimited segment, that is no dot, and is not the literal [root]. *)
Definition isTopLevelNote (note : NoteProps) : bool :=
  (countSep "." (note_fname note) =? 0)%nat
  && negb (String.eqb (note_fname note) "root").

(** The positional hints [generateSidebar] copies from a note. *)
Definition hintsOf (note : NoteProps) : Positional :=
  mkPositional (nav_order (getPublishFM note)) (Some (note_fname note))
    (Some (match sort_order (getPublishFM note) with
           | Some o => String.eqb o "reverse"
           | None => false
           end)).

(** [P] relates the two lists element by element. *)
Definition allPairs {A B} (P : A → B → Prop) : list A → list B → Prop :=
  fix all (l : list A) (k : list B) : Prop :=
    match l, k with
    | [], [] => True
    | x :: l', y :: k' => P x y ∧ all l' k'
    | _, _ => False
    end.

(** The expansion of a source note into an item, in the words of the
    specification: the id names a note of the collection; a note without
    children becomes a note item, a note with children a category item
    linked to it whose items are the expansions of its children, one per
    child and in their order; both carry the title of the note as label
    and the positional hints copied from it. *)
Fixpoint expandsTo (notes : NotePropsByIdDict) (item : SidebarItem) (noteId : string)
    : Prop :=
  match item with
  | ItemNote id label pos =>
      ∃ note, get notes noteId = Some note ∧ note_children note = [] ∧
        id = Some (note_id note) ∧ label = Some (note_title note) ∧
        pos = hintsOf note
  | ItemCategory label items link pos =>
      ∃ note, get notes noteId = Some note ∧ note_children note ≠ [] ∧
        label = Some (note_title note) ∧ link = Some (note_id note) ∧
        pos = hintsOf note ∧
        allPairs (expandsTo notes) items (note_children note)
  end.

(** The callback [generateSidebar] maps over the note ids. *)
Definition itemOfNote (notes : NotePropsByIdDict) (fuel : nat) (noteId : string)
    : outcome (option SidebarItem) :=
  match member notes noteId with
  | NoMember | Inherited => Throw ThrowTypeError
  | Own note =>
      if negb (0 <? length (note_children note))%nat then
        Done (Some (ItemNote (Some (note_id note)) (Some (note_title note))
                      (hintsOf note)))
      else if (0 <? length (note_children note))%nat then
        items ← generateSidebar notes fuel (note_children note);
        Done (Some (ItemCategory (Some (note_title note)) items
                      (Some (note_id note)) (hintsOf note)))
      else Done None
  end.

Lemma generateSidebar_unfold notes fuel noteIds :
  generateSidebar notes (S fuel) noteIds
  = maybeItems ← mapM (itemOfNote notes fuel) noteIds;
    Done (omap (fun maybeSidebarItem => maybeSidebarItem) maybeItems).
Proof. reflexivity. Qed.

Lemma itemOfNote_cases notes fuel noteId note :
  get notes noteId = Some note →
  itemOfNote notes fuel noteId
  = match note_children note with
    | [] => Done (Some (ItemNote (Some (note_id note)) (Some (note_title note))
                          (hintsOf note)))
    | _ :: _ =>
        items ← generateSidebar notes fuel (note_children note);
        Done (Some (ItemCategory (Some (note_title note)) items
                      (Some (note_id note)) (hintsOf note)))
    end.
Proof.
  intros Hget. unfold itemOfNote. rewrite (member_get _ _ _ Hget).
  now destruct (note_children note).
Qed.

Lemma itemOfNote_Done notes fuel noteId maybeItem :
  itemOfNote notes fuel noteId = Done maybeItem →
  ∃ note, get notes noteId = Some note ∧
          itemOfNote notes fuel noteId
          = match note_children note with
            | [] => Done (Some (ItemNote (Some (note_id note))
                                  (Some (note_title note)) (hintsOf note)))
            | _ :: _ =>
                items ← generateSidebar notes fuel (note_children note);
                Done (Some (ItemCategory (Some (note_title note)) items
                              (Some (note_id note)) (hintsOf note)))
            end.
Proof.
  intros Hrun. destruct (get notes noteId) as [note|] eqn:Hget.
  - exists note. split; [reflexivity | now apply itemOfNote_cases].
  - unfold itemOfNote in Hrun.
    destruct (member_None_not_Own notes noteId Hget) as [Hm|Hm];
      rewrite Hm in Hrun; discriminate.
Qed.

Lemma split_length sep s : length (Js.split sep s) = S (countSep sep s).
Proof.
  induction s as [|c s IH]; simpl; [reflexivity|].
  destruct (Ascii.eqb c sep); simpl; [now rewrite IH|].
  destruct (Js.split sep s); simpl in *; [discriminate | exact IH].
Qed.

Lemma findHierarchySources_root notes :
  findHierarchySources notes (Some ROOT_KEYWORD)
  = Done (Some (List.map note_id (List.filter isTopLevelNote (values notes)))).
Proof.
  unfold findHierarchySources. simpl. do 3 f_equal.
  induction (values notes) as [|note l IH]; simpl; [reflexivity|].
  unfold isTopLevelNote at 1. rewrite split_length.
  destruct (String.eqb (note_fname note) "root"); simpl.
  - rewrite andb_false_r. exact IH.
  - rewrite andb_true_r. destruct (countSep "." (note_fname note)); simpl;
      now rewrite IH.
Qed.

Lemma allPairs_Forall2 {A B} (P : A → B → Prop) l k :
  allPairs P l k ↔ Forall2 P l k.
Proof.
  revert k. induction l as [|x l IH]; intros [|y k]; simpl.
  - split; [constructor | trivial].
  - split; [contradiction | inversion 1].
  - split; [contradiction | inversion 1].
  - rewrite IH. split; [intros [? ?]; now constructor | now inversion 1].
Qed.

(** What [generateSidebar] returns is the expansion of the ids it was
    given, item by item. *)
Lemma generateSidebar_expands notes fuel : ∀ noteIds items,
  generateSidebar notes fuel noteIds = Done items →
  Forall2 (expandsTo notes) items noteIds.
Proof.
  induction fuel as [|fuel IH]; intros noteIds items Hrun; [discriminate|].
  rewrite generateSidebar_unfold in Hrun.
  destruct (mapM (itemOfNote notes fuel) noteIds) as [maybeItems| |] eqn:Hmap;
    try discriminate.
  simpl in Hrun. injection Hrun as <-. apply mapM_outcome_Done in Hmap.
  induction Hmap as [|noteId maybeItem noteIds maybeItems Hitem _ IHl];
    [constructor|].
  destruct (itemOfNote_Done notes fuel noteId maybeItem Hitem)
    as (note & Hget & Hcases).
  rewrite Hcases in Hitem.
  destruct (note_children note) as [|kid kids] eqn:Hkids.
  - injection Hitem as <-.
    change (omap ?f (Some ?x :: ?l)) with (x :: omap f l).
    constructor; [|exact IHl]. simpl. exists note. rewrite Hkids. auto.
  - destruct (generateSidebar notes fuel (kid :: kids)) as [nested| |] eqn:Hrec;
      try discriminate.
    simpl in Hitem. injection Hitem as <-.
    change (omap ?f (Some ?x :: ?l)) with (x :: omap f l).
    constructor; [|exact IHl]. simpl. exists note. rewrite Hkids.
    repeat (split; [first [reflexivity | exact Hget | discriminate]|]).
    apply allPairs_Forall2. now apply IH.
Qed.

(** Every expansion is returned, by all amounts of fuel from some amount on. *)
Lemma expandsTo_generated notes item : ∀ noteId,
  expandsTo notes item noteId →
  ∃ fuel, ∀ fuel', (fuel ≤ fuel')%nat →
    itemOfNote notes fuel' noteId = Done (Some item).
Proof.
  induction item as [id label pos | label items link pos IH]
    using SidebarItem_nested_ind; intros noteId Hexp.
  - destruct Hexp as (note & Hget & Hkids & -> & -> & ->).
    exists 0%nat. intros fuel' _.
    now rewrite (itemOfNote_cases notes fuel' noteId note Hget), Hkids.
  - destruct Hexp as (note & Hget & Hkids & -> & -> & -> & Hall).
    apply allPairs_Forall2 in Hall.
    assert (Hnested : ∃ fuel, ∀ fuel', (fuel ≤ fuel')%nat →
              generateSidebar notes (S fuel') (note_children note) = Done items).
    { clear Hkids Hget. revert IH.
      induction Hall as [|item kid items kids Hitem _ IHl]; intros IH.
      - exists 0%nat. intros fuel' _. reflexivity.
      - apply Forall_cons in IH as [IHitem IHitems].
        destruct (IHitem kid Hitem) as [fuel1 Hfuel1].
        destruct (IHl IHitems) as [fuel2 Hfuel2].
        exists (Nat.max fuel1 fuel2). intros fuel' Hle.
        specialize (Hfuel2 fuel' ltac:(lia)).
        rewrite generateSidebar_unfold in *. rewrite mapM_outcome_cons.
        rewrite (Hfuel1 fuel') by lia. simpl.
        destruct (mapM (itemOfNote notes fuel') kids) as [maybeItems| |];
          try discriminate.
        simpl in *. injection Hfuel2 as <-. reflexivity. }
    destruct Hnested as [fuel Hfuel]. exists (S fuel). intros fuel' Hle.
    destruct fuel' as [|fuel']; [lia|].
    rewrite (itemOfNote_cases notes (S fuel') noteId note Hget).
    destruct (note_children note) as [|kid kids]; [contradiction|].
    now rewrite (Hfuel fuel') by lia.
Qed.

Lemma expansion_generated notes noteIds items :
  Forall2 (expandsTo notes) items noteIds →
  ∃ fuel, ∀ fuel', (fuel ≤ fuel')%nat →
    generateSidebar notes fuel' noteIds = Done items.
Proof.
  intros Hall.
  assert (Hmap : ∃ fuel, ∀ fuel', (fuel ≤ fuel')%nat →
            mapM (itemOfNote notes fuel') noteIds = Done (List.map Some items)).
  { induction Hall as [|item noteId items noteIds Hitem _ [fuel2 Hfuel2]].
    - exists 0%nat. reflexivity.
    - destruct (expandsTo_generated notes item noteId Hitem) as [fuel1 Hfuel1].
      exists (Nat.max fuel1 fuel2). intros fuel' Hle.
      rewrite mapM_outcome_cons, (Hfuel1 fuel') by lia. simpl.
      now rewrite (Hfuel2 fuel') by lia. }
  destruct Hmap as [fuel Hfuel]. exists (S fuel). intros fuel' Hle.
  destruct fuel' as [|fuel']; [lia|].
  rewrite generateSidebar_unfold, (Hfuel fuel') by lia. simpl. f_equal.
  clear. induction items as [|item items IH]; [reflexivity|].
  simpl. change (omap ?f (Some ?x :: ?l)) with (x :: omap f l). now f_equal.
Qed.

(** C9: for the root sentinel the source set is, in enumeration order, the
    ids of exactly the notes whose path has one dot-delimited segment and is
    not [root]. The items [generateSidebar] returns for a list of source ids
    are the expansions of these ids, one item per id and in their order: a
    note item for a note without children, a category item linked to the
    note, holding the expansion of its children, for a note with children;
    and every such expansion is returned once the fuel covers its depth.
    The generator returns these items sorted by [sortItems]. Over the notes
    [root], [a], [b], [a.x] it returns the category [a] holding the note
    [a.x], followed by the note [b]; [root] is left out. *)
Theorem C9_autogeneration_from_root (notes : NotePropsByIdDict) :
  findHierarchySources notes (Some ROOT_KEYWORD)
    = Done (Some (List.map note_id (List.filter isTopLevelNote (values notes)))) ∧
  (∀ fuel noteIds items,
     generateSidebar notes fuel noteIds = Done items →
     Forall2 (expandsTo notes) items noteIds) ∧
  (∀ noteIds items,
     Forall2 (expandsTo notes) items noteIds →
     ∃ fuel, ∀ fuel', (fuel ≤ fuel')%nat →
       generateSidebar notes fuel' noteIds = Done items) ∧
  (∀ fuel,
     defaultSidebarItemsGenerator notes fuel (Some ROOT_KEYWORD)
     = sortItems <$>
         generateSidebar notes fuel
           (List.map note_id (List.filter isTopLevelNote (values notes)))) ∧
  findHierarchySources smallGraph (Some ROOT_KEYWORD) = Done (Some ["a"; "b"]) ∧
  (∀ k,
     defaultSidebarItemsGenerator smallGraph (2 + k) (Some ROOT_KEYWORD)
     = Done [ ItemCategory (Some "a")
                [ItemNote (Some "a.x") (Some "a.x") noPosition]
                (Some "a") noPosition;
              ItemNote (Some "b") (Some "b") noPosition ]).
Proof.
  split; [apply findHierarchySources_root|].
  split; [apply generateSidebar_expands|].
  split; [apply expansion_generated|].
  split; [|split; reflexivity].
  intros fuel. unfold defaultSidebarItemsGenerator.
  now rewrite findHierarchySources_root.
Qed.

Lemma C9_autogeneration_witness :
  ∃ items,
    generateSidebar smallGraph 2 ["a"; "b"] = Done items ∧
    Forall2 (expandsTo smallGraph) items ["a"; "b"] ∧
    items
    = [ ItemCategory (Some "a")
          [ItemNote (Some "a.x") (Some "a.x") (hintsOf (plainNote "a.x" "a.x" []))]
          (Some "a") (hintsOf (plainNote "a" "a" ["a.x"]));
        ItemNote (Some "b") (Some "b") (hintsOf (plainNote "b" "b" [])) ].
Proof.
  eexists. split; [reflexivity|]. split; [|reflexivity].
  exact (proj1 (proj2 (C9_autogeneration_from_root smallGraph)) 2%nat ["a"; "b"]
           _ eq_refl).
Defined.

(** *** C7: reference errors *)

(** Induction on configuration items that reaches the nested items. *)
Fixpoint SidebarItemConfig_nested_ind (P : SidebarItemConfig → Prop)
    (Hnote : ∀ id label, P (ConfigNote id label))
    (Hauto : ∀ id, P (ConfigAutogenerated id))
    (Hcategory : ∀ label items link,
        Forall P items → P (ConfigCategory label items link))
    (item : SidebarItemConfig) : P item :=
  match item with
  | ConfigNote id label => Hnote id label
  | ConfigAutogenerated id => Hauto id
  | ConfigCategory label items link =>
      Hcategory label items link
        ((fix all (l : list SidebarItemConfig) : Forall P l :=
            match l with
            | [] => @List.Forall_nil _ P
            | x :: l' =>
                @List.Forall_cons _ P x l'
                  (SidebarItemConfig_nested_ind P Hnote Hauto Hcategory x) (all l')
            end) items)
  end.

Lemma flatMapM_Done_In {A B} (f : A → outcome (list B)) l k :
  flatMapM f l = Done k → ∀ x, In x l → ∃ y, f x = Done y.
Proof.
  revert k. induction l as [|x' l IH]; intros k Hrun x Hin; [destruct Hin|].
  simpl in Hrun. destruct (f x') as [first| |] eqn:Hx; try discriminate.
  simpl in Hrun. destruct (flatMapM f l) as [others| |] eqn:Hl; try discriminate.
  destruct Hin as [<-|Hin]; [eauto | now apply (IH others)].
Qed.

Lemma combine_ok_all {E A} (rs : list (Result E A)) vs :
  combine rs = ok vs → ∀ r, In r rs → ∃ v, r = ok v.
Proof.
  revert vs. induction rs as [|[a|e] rs IH]; intros vs; simpl;
    [tauto | | discriminate].
  destruct (combine rs) as [l|e] eqn:Hc; [|discriminate].
  intros _ r [<-|Hin]; [eauto | now apply (IH l)].
Qed.

Lemma combine_ok_map {E A} (rs : list (Result E A)) vs :
  combine rs = ok vs → rs = List.map ok vs.
Proof.
  revert vs. induction rs as [|[a|e] rs IH]; intros vs; simpl;
    [now intros [= <-] | | discriminate].
  destruct (combine rs) as [l|e]; [|discriminate].
  intros [= <-]. simpl. now rewrite (IH l).
Qed.

Lemma mapM_option_In {A B} (f : A → option B) l k :
  mapM f l = Some k → ∀ x, In x l → ∃ y, f x = Some y ∧ In y k.
Proof.
  intros Hmap x Hin. apply mapM_Some in Hmap.
  induction Hmap as [|x' y l k Hx _ IH]; [destruct Hin|].
  destruct Hin as [->|Hin]; [exists y; split; [exact Hx | now left]|].
  destruct (IH Hin) as (y' & Hy' & Hin'). exists y'. split; [exact Hy' | now right].
Qed.

Lemma mapM_option_In_result {A B} (f : A → option B) l k :
  mapM f l = Some k → ∀ y, In y k → ∃ x, In x l ∧ f x = Some y.
Proof.
  intros Hmap y Hin. apply mapM_Some in Hmap.
  induction Hmap as [|x y' l k Hx _ IH]; [destruct Hin|].
  destruct Hin as [->|Hin]; [exists x; split; [now left | exact Hx]|].
  destruct (IH Hin) as (x' & Hx' & Hfx). exists x'. split; [now right | exact Hfx].
Qed.

Lemma last_In {A} (l : list A) x : last l = Some x → In x l.
Proof.
  induction l as [|y l IH]; [discriminate|].
  destruct l as [|z l]; [intros [= <-]; now left|].
  intros Hl. right. now apply IH.
Qed.

(** Every note is stored under its own id. *)
Definition idsConsistent (notes : NotePropsByIdDict) : Prop :=
  ∀ k n, In (k, n) notes → k = note_id n.

(** Every child pointer names a note of the collection. *)
Definition childrenClosed (notes : NotePropsByIdDict) : Prop :=
  ∀ n c, In n (values notes) → In c (note_children n) → is_Some (get notes c).

(** The references a configuration item makes, nested items included. *)
Fixpoint refsOf (item : SidebarItemConfig) : list string :=
  match item with
  | ConfigNote id _ => [id]
  | ConfigAutogenerated id => [id]
  | ConfigCategory _ items link => link :: flat_map refsOf items
  end.

Lemma get_In notes noteId n : get notes noteId = Some n → In (noteId, n) notes.
Proof.
  unfold get. destruct (List.find _ notes) as [[k n']|] eqn:Hfind; [|discriminate].
  simpl. intros [= <-]. apply find_some in Hfind as [Hin Hk].
  apply String.eqb_eq in Hk. simpl in Hk. now subst.
Qed.

Lemma get_In_values notes noteId n : get notes noteId = Some n → In n (values notes).
Proof.
  intros Hget. apply get_In in Hget. unfold values.
  apply in_map_iff. now exists (noteId, n).
Qed.

Lemma In_values_get notes n :
  idsConsistent notes → In n (values notes) → is_Some (get notes (note_id n)).
Proof.
  intros Hids Hin. apply in_map_iff in Hin as ([k n'] & Hn & Hin).
  simpl in Hn. subst n'. rewrite (Hids k n Hin) in Hin.
  apply get_Some_key. unfold keys. apply in_map_iff. now exists (note_id n, n).
Qed.

Lemma get_note_id notes noteId note :
  idsConsistent notes → get notes noteId = Some note → note_id note = noteId.
Proof. intros Hids Hget. apply get_In in Hget. symmetry. now apply Hids. Qed.

Section ReferenceErrors.
Variable isDendronError : Thrown → bool.
Variable notes : NotePropsByIdDict.
Variable duplicateNoteBehavior : option DuplicateNoteBehavior.

(** The lookup of the reference finds nothing: the collection has no
    property of that name, of its own or inherited, and no note has the
    reference as its path. *)
Definition isMissing (sidebarId : string) : bool :=
  match possibleNotes notes sidebarId with
  | [] => true
  | _ :: _ => false
  end.

(** The configuration item holds a note item, a category link or a
    non-root autogeneration anchor for which the lookup finds nothing, at
    any depth. *)
Fixpoint hasMissingRef (item : SidebarItemConfig) : bool :=
  match item with
  | ConfigNote id _ => isMissing id
  | ConfigAutogenerated id => negb (String.eqb id ROOT_KEYWORD) && isMissing id
  | ConfigCategory _ items link => isMissing link || existsb hasMissingRef items
  end.

Lemma isMissing_iff sidebarId :
  isMissing sidebarId = true ↔
  member notes sidebarId = NoMember ∧
  ∀ n, In n (values notes) → note_fname n ≠ sidebarId.
Proof.
  unfold isMissing, possibleNotes.
  destruct (member notes sidebarId);
    [split; [discriminate | intros [? _]; discriminate]..|].
  destruct (List.filter _ (values notes)) as [|c cs] eqn:Hf; simpl.
  - split; [|reflexivity]. intros _. split; [reflexivity|].
    intros n Hin Hname.
    assert (Hc : In n (List.filter (fun note => String.eqb (note_fname note) sidebarId)
                         (values notes))).
    { apply filter_In. split; [exact Hin | now apply String.eqb_eq]. }
    now rewrite Hf in Hc.
  - split; [discriminate|]. intros [_ Hnone]. exfalso.
    assert (Hc : In c (c :: cs)) by now left.
    rewrite <- Hf in Hc. apply filter_In in Hc as [Hin Hname].
    apply String.eqb_eq in Hname. now apply (Hnone c).
Qed.

Lemma resolveItemId_missing sidebarId :
  isMissing sidebarId = true →
  resolveItemId notes duplicateNoteBehavior sidebarId
  = Throw (ThrowDendron (doesNotExist sidebarId)).
Proof.
  unfold isMissing, resolveItemId.
  destruct (possibleNotes notes sidebarId); [reflexivity | discriminate].
Qed.

Lemma resolveItemId_inherited sidebarId :
  member notes sidebarId = Inherited →
  resolveItemId notes duplicateNoteBehavior sidebarId = Done None.
Proof. intros Hm. unfold resolveItemId, possibleNotes. now rewrite Hm. Qed.

Lemma resolveItemId_own sidebarId note :
  get notes sidebarId = Some note →
  resolveItemId notes duplicateNoteBehavior sidebarId = Done (Some (note_id note)).
Proof.
  intros Hget. unfold resolveItemId, possibleNotes.
  now rewrite (member_get _ _ _ Hget).
Qed.

Lemma selectByVault_In candidates n :
  selectByVault duplicateNoteBehavior candidates = Some n → In n candidates.
Proof.
  unfold selectByVault.
  destruct (getPriorityVaults duplicateNoteBehavior) as [vs|]; [|discriminate].
  simpl. rewrite head_map_filter.
  destruct (List.find _ vs) as [v|]; [|discriminate]. simpl.
  rewrite newMap_lookup. intros Hl. apply last_In in Hl.
  now apply filter_In in Hl.
Qed.

(** The three ways [resolveItemId] can end: the lookup finds nothing and
    the "does not exist" error is thrown; the reference names an inherited
    member and the id returned is [undefined]; or the id of a note of the
    collection is returned, which has the reference as its path when the
    reference is not a key. *)
Lemma resolveItemId_outcome sidebarId :
  (isMissing sidebarId = true ∧
   resolveItemId notes duplicateNoteBehavior sidebarId
   = Throw (ThrowDendron (doesNotExist sidebarId))) ∨
  (member notes sidebarId = Inherited ∧
   resolveItemId notes duplicateNoteBehavior sidebarId = Done None) ∨
  ∃ n, In n (values notes) ∧
       (get notes sidebarId = None → note_fname n = sidebarId) ∧
       resolveItemId notes duplicateNoteBehavior sidebarId = Done (Some (note_id n)).
Proof.
  destruct (member notes sidebarId) as [note| |] eqn:Hm.
  - right. right. apply member_Own in Hm. exists note.
    split; [now apply (get_In_values notes sidebarId)|].
    split; [congruence | now apply resolveItemId_own].
  - right. left. split; [reflexivity | now apply resolveItemId_inherited].
  - destruct (isMissing sidebarId) eqn:Hmiss;
      [left; split; [reflexivity | now apply resolveItemId_missing]|].
    right. right. unfold isMissing in Hmiss. unfold resolveItemId.
    unfold possibleNotes in *. rewrite Hm in *.
    set (found := List.filter (fun note => String.eqb (note_fname note) sidebarId)
                    (values notes)) in *.
    assert (Hfound : ∀ n, In n found →
              In n (values notes) ∧ (get notes sidebarId = None → note_fname n = sidebarId)).
    { intros n Hin. apply filter_In in Hin as [Hin Hname].
      split; [exact Hin|]. intros _. now apply String.eqb_eq. }
    rewrite length_map, notesAmong_Own.
    destruct (if (1 <? length found)%nat
              then selectByVault duplicateNoteBehavior found else None)
      as [n|] eqn:Hsel.
    + exists n. destruct (1 <? length found)%nat; [|discriminate].
      apply selectByVault_In in Hsel. destruct (Hfound n Hsel). auto.
    + destruct found as [|c cs]; [discriminate|]. simpl.
      exists c. destruct (Hfound c (or_introl eq_refl)). auto.
Qed.

Lemma processItem_category fuel label items link :
  processItem notes duplicateNoteBehavior fuel (ConfigCategory label items link)
  = linkId ← resolveItemId notes duplicateNoteBehavior link;
    nested ← flatMapM (processItem notes duplicateNoteBehavior fuel) items;
    Done [ItemCategory (Some label) nested linkId noPosition].
Proof. reflexivity. Qed.

Lemma processItem_missing_never_done fuel item :
  hasMissingRef item = true →
  ∀ v, processItem notes duplicateNoteBehavior fuel item ≠ Done v.
Proof.
  induction item as [id label | id | label items link IH]
    using SidebarItemConfig_nested_ind; intros Hmiss v.
  - simpl in *. now rewrite (resolveItemId_missing id Hmiss).
  - simpl in *. apply andb_true_iff in Hmiss as [Hroot Hmiss].
    apply negb_true_iff in Hroot. rewrite Hroot.
    now rewrite (resolveItemId_missing id Hmiss).
  - rewrite processItem_category. simpl in Hmiss.
    apply orb_true_iff in Hmiss as [Hmiss|Hmiss];
      [now rewrite (resolveItemId_missing link Hmiss)|].
    destruct (resolveItemId _ _ link) as [linkId| |]; simpl; try discriminate.
    destruct (flatMapM (processItem notes duplicateNoteBehavior fuel) items)
      as [nested| |] eqn:Hwalk; simpl; try discriminate.
    exfalso. apply existsb_exists in Hmiss as (x & Hin & Hx).
    destruct (flatMapM_Done_In _ _ _ Hwalk x Hin) as [first Hfirst].
    rewrite List.Forall_forall in IH. now apply (IH x Hin Hx first).
Qed.

Lemma processSiderbar_missing_never_ok fuel sidebar :
  existsb hasMissingRef sidebar = true →
  ∀ value,
    processSiderbar isDendronError notes duplicateNoteBehavior fuel sidebar
    ≠ Some (ok value).
Proof.
  intros Hmiss value Hrun. unfold processSiderbar in Hrun.
  destruct (mapM _ sidebar) as [results|] eqn:Hmap; [|discriminate].
  simpl in Hrun. destruct (combine results) as [vs|e] eqn:Hc; [|discriminate].
  apply existsb_exists in Hmiss as (item & Hin & Hitem).
  destruct (mapM_option_In _ _ _ Hmap item Hin) as (r & Hr & Hrin).
  destruct (combine_ok_all _ _ Hc r Hrin) as [v ->].
  unfold safeProcessItem in Hr.
  destruct (processItem _ _ fuel item) as [v'|e|] eqn:Hp; try discriminate.
  now apply (processItem_missing_never_done fuel item Hitem v').
Qed.

(** Whatever else goes wrong, a configuration with a reference for which
    the lookup finds nothing never resolves to a sidebar mapping, partial
    or not. *)
Lemma processSidebars_missing_never_ok fuel sidebars :
  existsb (fun entry => existsb hasMissingRef (snd entry)) sidebars = true →
  ∀ value,
    processSidebars isDendronError notes duplicateNoteBehavior fuel (ok sidebars)
    ≠ Some (ok value).
Proof.
  intros Hmiss value Hrun. simpl in Hrun.
  destruct (mapM _ sidebars) as [results|] eqn:Hmap; [|discriminate].
  simpl in Hrun. injection Hrun as Hc.
  apply existsb_exists in Hmiss as ([name sidebar] & Hin & Hside).
  destruct (mapM_option_In _ _ _ Hmap _ Hin) as (r & Hr & Hrin).
  destruct (combine_ok_all _ _ Hc r Hrin) as [v ->]. simpl in Hr.
  destruct (processSiderbar _ _ _ fuel sidebar) as [[value'|e]|] eqn:Hp;
    try discriminate.
  now apply (processSiderbar_missing_never_ok fuel sidebar Hside value').
Qed.

End ReferenceErrors.

(** C7 (violated by the code): the configuration holds a note item whose
    reference [missing] matches no note, yet the call does not return the
    "does not exist" error naming it: the autogenerated item before it runs
    into the dangling child of [p], and [Result.combine] keeps the error
    made of the [TypeError] of [generateSidebar], which is not that error
    whatever [isDendronError] answers. With the two items in the other
    order the error made of the "does not exist" exception is returned.
    And a note item whose reference [constructor] matches no note either,
    by id or by path, raises no error at all: the lookup finds the member
    of that name that every object inherits, and a sidebar mapping is
    returned in which the id of the item is [undefined]. *)
Theorem C7_missing_reference_masked (isDendronError : Thrown → bool) (fuel : nat) :
  hasMissingRef danglingChild (ConfigNote "missing" "Missing") = true ∧
  processSidebars isDendronError danglingChild None (S fuel)
      (ok [("defaultSidebar",
            [ConfigAutogenerated "p"; ConfigNote "missing" "Missing"])])
    = Some (err (onThrow isDendronError ThrowTypeError)) ∧
  onThrow isDendronError ThrowTypeError ≠ ThrowDendron (doesNotExist "missing") ∧
  processSidebars isDendronError danglingChild None (S fuel)
      (ok [("defaultSidebar",
            [ConfigNote "missing" "Missing"; ConfigAutogenerated "p"])])
    = Some (err (onThrow isDendronError (ThrowDendron (doesNotExist "missing")))) ∧
  get danglingChild "constructor" = None ∧
  (∀ n, In n (values danglingChild) → note_fname n ≠ "constructor") ∧
  processSidebars isDendronError danglingChild None (S fuel)
      (ok [("defaultSidebar", [ConfigNote "constructor" "C"])])
    = Some (ok [("defaultSidebar", [ItemNote None (Some "C") noPosition])]).
Proof.
  split; [reflexivity|]. split; [reflexivity|]. split.
  { unfold onThrow. destruct (isDendronError ThrowTypeError); discriminate. }
  split; [reflexivity|]. split; [reflexivity|]. split; [|reflexivity].
  intros n [<-|[]]. discriminate.
Qed.

(** ** Further properties of the hierarchy toolkit *)

(** *** [validateTreeNodes] decides equality up to sibling order *)

(** The tree with the children of every node sorted by name, as
    [validateTreeNodes] sorts them before comparing. *)
Fixpoint normalize (t : TreeNode) : TreeNode :=
  mkTreeNode (fname t) (Js.sort compareFname (List.map normalize (children t))).

Lemma normalize_fname t : fname (normalize t) = fname t.
Proof. now destruct t. Qed.

Lemma insertSorted_map {A B} (f : A → B) (cmpA : A → A → comparison)
    (cmpB : B → B → comparison) x l :
  (∀ x y, cmpB (f x) (f y) = cmpA x y) →
  Js.insertSorted cmpB (f x) (List.map f l) = List.map f (Js.insertSorted cmpA x l).
Proof.
  intros Hcmp. induction l as [|y l IH]; simpl; [reflexivity|].
  rewrite Hcmp. destruct (cmpA x y); simpl; try reflexivity. now rewrite IH.
Qed.

Lemma sort_map {A B} (f : A → B) (cmpA : A → A → comparison)
    (cmpB : B → B → comparison) l :
  (∀ x y, cmpB (f x) (f y) = cmpA x y) →
  Js.sort cmpB (List.map f l) = List.map f (Js.sort cmpA l).
Proof.
  intros Hcmp. induction l as [|x l IH]; [reflexivity|].
  unfold Js.sort in *. simpl. rewrite IH. now apply insertSorted_map.
Qed.

Lemma normalize_children t :
  children (normalize t)
  = List.map normalize (Js.sort compareFname (children t)).
Proof.
  destruct t as [f cs]. simpl. apply sort_map.
  intros x y. unfold compareFname. now rewrite !normalize_fname.
Qed.

Lemma validateChildren_ok validate f expected : ∀ actual,
  length expected = length actual →
  (validateChildren validate f expected actual = Some RespData ↔
   Forall2 (fun x y => validate x y = Some RespData) expected actual).
Proof.
  induction expected as [|e expected IH]; intros [|a actual] Hlen;
    try discriminate; simpl.
  - split; [constructor | reflexivity].
  - injection Hlen as Hlen. specialize (IH actual Hlen).
    destruct (validate e a) as [[|err]|] eqn:He; simpl.
    + rewrite IH. split; [now constructor|]. now inversion 1.
    + split; [discriminate|]. inversion 1; congruence.
    + split; [discriminate|]. inversion 1; congruence.
Qed.

Lemma Forall2_iff_In {A B} (P Q : A → B → Prop) l k :
  (∀ x y, In x l → (P x y ↔ Q x y)) → Forall2 P l k ↔ Forall2 Q l k.
Proof.
  intros Hpq. split; intros H; induction H as [|x y l k Hxy _ IH]; constructor;
    try (apply Hpq; [now left | exact Hxy]);
    apply IH; intros; apply Hpq; now right.
Qed.

Lemma Forall2_map_eq {A B} (f : A → B) l k :
  Forall2 (fun x y => f x = f y) l k ↔ List.map f l = List.map f k.
Proof.
  split.
  - induction 1; simpl; congruence.
  - revert k. induction l as [|x l IH]; intros [|y k]; simpl; try discriminate.
    + constructor.
    + intros [= Hxy Hrest]. constructor; [exact Hxy | now apply IH].
Qed.

Lemma treeNode_eq_iff t u :
  t = u ↔ fname t = fname u ∧ children t = children u.
Proof.
  destruct t, u; simpl. split; [intros [= -> ->]; auto | intros [-> ->]; reflexivity].
Qed.

Lemma validateTreeNodes_fuel_normalize fuel : ∀ expectedTree actualTree,
  (height expectedTree ≤ fuel)%nat →
  (validateTreeNodes_fuel fuel expectedTree actualTree = Some RespData ↔
   normalize expectedTree = normalize actualTree).
Proof.
  induction fuel as [|fuel IH]; intros e a Hh; [destruct e; simpl in Hh; lia|].
  rewrite treeNode_eq_iff, !normalize_fname, !normalize_children.
  simpl. destruct (String.eqb_spec (fname e) (fname a)) as [Hf|Hf]; simpl.
  - destruct (Nat.eqb_spec (length (Js.sort compareFname (children e)))
                (length (Js.sort compareFname (children a)))) as [Hlen|Hlen]; simpl.
    + rewrite (validateChildren_ok _ _ _ _ Hlen).
      rewrite <- Forall2_map_eq.
      rewrite (Forall2_iff_In _ (fun x y => normalize x = normalize y)); [tauto|].
      intros x y Hin. apply IH. apply sort_In in Hin.
      apply height_child in Hin. lia.
    + split; [discriminate|]. intros [_ Heq].
      apply (f_equal (@length _)) in Heq. rewrite !length_map in Heq. contradiction.
  - split; [discriminate | tauto].
Qed.

Lemma validateTreeNodes_normalize expectedTree actualTree :
  validateTreeNodes expectedTree actualTree = Some RespData ↔
  normalize expectedTree = normalize actualTree.
Proof. apply validateTreeNodes_fuel_normalize. lia. Qed.

(** X1: [validateTreeNodes] always answers, and it answers with success
    exactly when the two trees are equal once the children of every node
    are sorted by name; otherwise it answers with an error. *)
Theorem X1_validateTreeNodes_decides_normal_form (expectedTree actualTree : TreeNode) :
  (validateTreeNodes expectedTree actualTree = Some RespData ↔
   normalize expectedTree = normalize actualTree) ∧
  (normalize expectedTree ≠ normalize actualTree →
   ∃ e, validateTreeNodes expectedTree actualTree = Some (RespError e)).
Proof.
  split; [apply validateTreeNodes_normalize|].
  intros Hne. destruct (validateTreeNodes_total expectedTree actualTree) as [[|e] Hr].
  - now apply validateTreeNodes_normalize in Hr.
  - now exists e.
Qed.

Lemma X1_validateTreeNodes_witness :
  normalize (mkTreeNode "r" [leaf "b"; leaf "a"]) ≠ normalize (mkTreeNode "r" [leaf "a"]) ∧
  ∃ e, validateTreeNodes (mkTreeNode "r" [leaf "b"; leaf "a"]) (mkTreeNode "r" [leaf "a"])
       = Some (RespError e).
Proof.
  assert (Hne : normalize (mkTreeNode "r" [leaf "b"; leaf "a"])
                ≠ normalize (mkTreeNode "r" [leaf "a"])) by discriminate.
  split; [exact Hne|].
  exact (proj2 (X1_validateTreeNodes_decides_normal_form _ _) Hne).
Defined.

(** X2: success of [validateTreeNodes] is an equivalence on trees: every
    tree validates against itself, the outcome does not depend on which
    tree is passed as expected, and success is transitive. *)
Theorem X2_validateTreeNodes_equivalence (t u v : TreeNode) :
  validateTreeNodes t t = Some RespData ∧
  (validateTreeNodes t u = Some RespData → validateTreeNodes u t = Some RespData) ∧
  (validateTreeNodes t u = Some RespData → validateTreeNodes u v = Some RespData →
   validateTreeNodes t v = Some RespData).
Proof.
  rewrite !validateTreeNodes_normalize. repeat split; congruence.
Qed.

Lemma X2_validateTreeNodes_witness :
  let t := mkTreeNode "r" [leaf "b"; leaf "a"] in
  let u := mkTreeNode "r" [leaf "a"; leaf "b"] in
  validateTreeNodes t u = Some RespData ∧ validateTreeNodes u t = Some RespData.
Proof.
  intros t u. assert (Htu : validateTreeNodes t u = Some RespData) by reflexivity.
  split; [exact Htu|].
  exact (proj1 (proj2 (X2_validateTreeNodes_equivalence t u t)) Htu).
Defined.

(** *** [createTreeFromFileNames]: the shape of the tree it builds *)

(** [n] is a node of the tree [t]: [t] itself or a node below it. *)
Inductive inTree (n : TreeNode) : TreeNode → Prop :=
| inTree_here : inTree n n
| inTree_child t c : In c (children t) → inTree n c → inTree n t.

(** The forest [l] holds a chain of nodes named by the segments of [path],
    starting at one of its trees. *)
Fixpoint hasPath (path : list string) (l : list TreeNode) : Prop :=
  match path with
  | [] => True
  | segment :: rest =>
      ∃ c, In c l ∧ fname c = segment ∧ hasPath rest (children c)
  end.

(** Sibling names are pairwise distinct, in the forest and below it. *)
Definition uniqueSiblings (l : list TreeNode) : Prop :=
  NoDup (List.map fname l) ∧
  ∀ c n, In c l → inTree n c → NoDup (List.map fname (children n)).

(** The step [createTreeFromFileNames] performs for one name. *)
Definition addName (rootNote : string) (result : list TreeNode) (name : string)
    : list TreeNode :=
  if negb (String.eqb name rootNote)
  then reducePath (Js.split "." name) result
  else result.

Lemma createTreeFromFileNames_fold fNames rootNote :
  createTreeFromFileNames fNames rootNote
  = mkTreeNode rootNote (foldl (addName rootNote) [] fNames).
Proof. reflexivity. Qed.

Lemma reducePath_nil segment rest :
  reducePath (segment :: rest) [] = [mkTreeNode segment (reducePath rest [])].
Proof. reflexivity. Qed.

Lemma reducePath_cons segment rest q cs :
  reducePath (segment :: rest) (q :: cs)
  = if String.eqb (fname q) segment
    then mkTreeNode (fname q) (reducePath rest (children q)) :: cs
    else q :: reducePath (segment :: rest) cs.
Proof. reflexivity. Qed.

Lemma reducePath_names segment rest cs x :
  In x (List.map fname (reducePath (segment :: rest) cs)) →
  In x (List.map fname cs) ∨ x = segment.
Proof.
  induction cs as [|q cs IH].
  - rewrite reducePath_nil. simpl. intros [<-|[]]. now right.
  - rewrite reducePath_cons. destruct (String.eqb (fname q) segment); simpl.
    + intros H. now left.
    + intros [<-|Hin]; [left; now left|].
      destruct (IH Hin) as [?|?]; [left; now right | now right].
Qed.

Lemma uniqueSiblings_children q cs :
  uniqueSiblings (q :: cs) → uniqueSiblings (children q) ∧ uniqueSiblings cs.
Proof.
  intros [Hnd Hdeep]. split; split.
  - apply (Hdeep q q); [now left | constructor].
  - intros c n Hc Hn. apply (Hdeep q n); [now left|].
    now apply (inTree_child n q c).
  - simpl in Hnd. now apply NoDup_cons in Hnd.
  - intros c n Hc Hn. apply (Hdeep c n); [now right | exact Hn].
Qed.

Lemma uniqueSiblings_cons q cs :
  ¬ In (fname q) (List.map fname cs) →
  uniqueSiblings (children q) → uniqueSiblings cs → uniqueSiblings (q :: cs).
Proof.
  intros Hfresh [Hq Hqdeep] [Hcs Hcsdeep]. split.
  - simpl. apply NoDup_cons. split; [|exact Hcs].
    intros Hin. apply Hfresh. now apply list_elem_of_In.
  - intros c n [<-|Hc] Hn; [|now apply (Hcsdeep c n)].
    inversion Hn as [|t c' Hc' Hn']; subst; [exact Hq|].
    now apply (Hqdeep c' n).
Qed.

Lemma reducePath_unique path : ∀ l,
  uniqueSiblings l → uniqueSiblings (reducePath path l).
Proof.
  induction path as [|segment rest IH]; intros l Hl; [exact Hl|].
  induction l as [|q cs IHcs].
  - rewrite reducePath_nil. apply uniqueSiblings_cons; simpl; [tauto| |exact Hl].
    apply IH. exact Hl.
  - destruct (uniqueSiblings_children q cs Hl) as [Hq Hcs].
    assert (Hfresh : ¬ In (fname q) (List.map fname cs)).
    { destruct Hl as [Hnd _]. simpl in Hnd. apply NoDup_cons in Hnd as [Hnotin _].
      intros Hin. apply Hnotin. now apply list_elem_of_In. }
    rewrite reducePath_cons.
    destruct (String.eqb_spec (fname q) segment) as [Heq|Hne].
    + apply uniqueSiblings_cons; simpl; [exact Hfresh | now apply IH | exact Hcs].
    + apply uniqueSiblings_cons; [|exact Hq | now apply IHcs].
      intros Hin. apply reducePath_names in Hin as [Hin|Heq]; [tauto | contradiction].
Qed.

Lemma uniqueSiblings_nil : uniqueSiblings [].
Proof. split; [constructor | intros c n []]. Qed.

Lemma foldl_addName_unique rootNote fNames : ∀ acc,
  uniqueSiblings acc → uniqueSiblings (foldl (addName rootNote) acc fNames).
Proof.
  induction fNames as [|name fNames IH]; intros acc Hacc; [exact Hacc|].
  simpl. apply IH. unfold addName.
  destruct (negb _); [now apply reducePath_unique | exact Hacc].
Qed.

(** X3: in the tree built by [createTreeFromFileNames] no node has two
    children with the same name, whatever the names passed, repeated or
    not: a segment is found again rather than pushed twice. *)
Theorem X3_createTreeFromFileNames_unique_siblings
    (fNames : list string) (rootNote : string) (n : TreeNode) :
  inTree n (createTreeFromFileNames fNames rootNote) →
  NoDup (List.map fname (children n)).
Proof.
  rewrite createTreeFromFileNames_fold.
  destruct (foldl_addName_unique rootNote fNames [] uniqueSiblings_nil)
    as [Htop Hdeep].
  inversion 1 as [|t c Hc Hn]; subst; [exact Htop|].
  now apply (Hdeep c n).
Qed.

Lemma X3_createTreeFromFileNames_witness :
  NoDup (List.map fname
           (children (createTreeFromFileNames ["a.b"; "a.c"; "a.b"; "d"] "root"))).
Proof.
  apply (X3_createTreeFromFileNames_unique_siblings
           ["a.b"; "a.c"; "a.b"; "d"] "root").
  apply inTree_here.
Defined.

Lemma hasPath_reducePath path : ∀ l, hasPath path (reducePath path l).
Proof.
  induction path as [|segment rest IH]; intros l; [exact I|].
  induction l as [|q cs IHcs].
  - rewrite reducePath_nil. eexists. split; [now left|]. split; [reflexivity|].
    apply IH.
  - rewrite reducePath_cons.
    destruct (String.eqb_spec (fname q) segment) as [Heq|Hne].
    + eexists. split; [now left|]. split; [exact Heq | apply IH].
    + destruct IHcs as (c & Hc & Hname & Hrest).
      exists c. split; [now right | auto].
Qed.

Lemma hasPath_reducePath_mono added : ∀ path l,
  hasPath path l → hasPath path (reducePath added l).
Proof.
  induction added as [|segment rest IH]; intros path l Hpath; [exact Hpath|].
  destruct path as [|s r]; [exact I|].
  induction l as [|q cs IHcs]; [destruct Hpath as (c & [] & _)|].
  destruct Hpath as (c & Hc & Hname & Hrest). rewrite reducePath_cons.
  destruct (String.eqb (fname q) segment).
  - destruct Hc as [<-|Hc].
    + eexists. split; [now left|]. split; [exact Hname | now apply IH].
    + exists c. split; [now right | auto].
  - destruct Hc as [<-|Hc].
    + exists q. split; [now left | auto].
    + destruct IHcs as (c' & Hc' & Hname' & Hrest'); [now exists c|].
      exists c'. split; [now right | auto].
Qed.

Lemma hasPath_reducePath_from added : ∀ path l,
  hasPath path (reducePath added l) → hasPath path l ∨ path `prefix_of` added.
Proof.
  induction added as [|segment rest IH]; intros path l Hpath; [now left|].
  destruct path as [|s r]; [now left|].
  induction l as [|q cs IHcs].
  - rewrite reducePath_nil in Hpath. destruct Hpath as (c & [<-|[]] & Hname & Hrest).
    simpl in *. subst s. right. destruct (IH r [] Hrest) as [Hnil|Hpre].
    + destruct r as [|s' r']; [|destruct Hnil as (c & [] & _)].
      apply prefix_cons, prefix_nil.
    + now apply prefix_cons.
  - rewrite reducePath_cons in Hpath.
    destruct (String.eqb_spec (fname q) segment) as [Heq|Hne];
      destruct Hpath as (c & [<-|Hc] & Hname & Hrest); simpl in *.
    + subst s. destruct (IH r (children q) Hrest) as [Hold|Hpre].
      * left. exists q. split; [now left | auto].
      * right. rewrite Heq. now apply prefix_cons.
    + left. exists c. split; [now right | auto].
    + left. exists q. split; [now left | auto].
    + destruct IHcs as [(c' & Hc' & Hname' & Hrest')|Hpre]; [now exists c| |now right].
      left. exists c'. split; [now right | auto].
Qed.

Lemma hasPath_prefix path extension l :
  hasPath (path ++ extension) l → hasPath path l.
Proof.
  revert l. induction path as [|s r IH]; intros l; [intros _; exact I|].
  rewrite <- app_comm_cons. intros (c & Hc & Hname & Hrest).
  exists c. split; [exact Hc|]. split; [exact Hname | now apply IH].
Qed.

Lemma foldl_addName_paths rootNote path fNames : ∀ acc,
  hasPath path (foldl (addName rootNote) acc fNames) ↔
  hasPath path acc ∨
  ∃ name, In name fNames ∧ name ≠ rootNote ∧ path `prefix_of` Js.split "." name.
Proof.
  induction fNames as [|name fNames IH]; intros acc; simpl.
  - split; [now left | intros [?|(n & [] & _)]; assumption].
  - rewrite IH. unfold addName.
    destruct (String.eqb_spec name rootNote) as [Heq|Hne]; simpl.
    + split; intros [Hacc|(n & Hin & Hn & Hpre)]; auto.
      * right. exists n. auto.
      * destruct Hin as [<-|Hin]; [contradiction|]. right. now exists n.
    + split.
      * intros [Hacc|(n & Hin & Hn & Hpre)]; [|right; exists n; auto].
        apply hasPath_reducePath_from in Hacc as [Hacc|Hpre]; [now left|].
        right. exists name. auto.
      * intros [Hacc|(n & [<-|Hin] & Hn & Hpre)].
        -- left. now apply hasPath_reducePath_mono.
        -- left. destruct Hpre as [extension Hext].
           apply (hasPath_prefix path extension). rewrite <- Hext.
           apply hasPath_reducePath.
        -- right. now exists n.
Qed.

(** X4: the chains of names found in the tree built by
    [createTreeFromFileNames] are exactly the non-empty prefixes of the
    dot-separated segments of the names passed, the names equal to the root
    name left out: every name is inserted with all its ancestors and
    nothing else is. *)
Theorem X4_createTreeFromFileNames_paths
    (fNames : list string) (rootNote segment : string) (rest : list string) :
  hasPath (segment :: rest) (children (createTreeFromFileNames fNames rootNote)) ↔
  ∃ name, In name fNames ∧ name ≠ rootNote ∧
          (segment :: rest) `prefix_of` Js.split "." name.
Proof.
  rewrite createTreeFromFileNames_fold. simpl children.
  rewrite foldl_addName_paths. split; [|now right].
  intros [(c & [] & _)|H]; exact H.
Qed.

Lemma reducePath_present path : ∀ l,
  uniqueSiblings l → hasPath path l → reducePath path l = l.
Proof.
  induction path as [|segment rest IH]; intros l Hl Hpath; [reflexivity|].
  induction l as [|q cs IHcs]; [destruct Hpath as (c & [] & _)|].
  destruct (uniqueSiblings_children q cs Hl) as [Hq Hcs].
  destruct Hpath as (c & Hc & Hname & Hrest). rewrite reducePath_cons.
  destruct (String.eqb_spec (fname q) segment) as [Heq|Hne].
  - destruct Hc as [<-|Hc].
    + rewrite (IH (children q) Hq Hrest). now destruct q.
    + exfalso. destruct Hl as [Hnd _]. simpl in Hnd.
      apply NoDup_cons in Hnd as [Hnotin _]. apply Hnotin.
      apply list_elem_of_In, in_map_iff. exists c. split; [congruence | exact Hc].
  - destruct Hc as [<-|Hc]; [contradiction|].
    f_equal. apply IHcs; [exact Hcs|]. now exists c.
Qed.

Lemma foldl_snoc {A B} (f : A → B → A) a l x :
  foldl f a (l ++ [x]) = f (foldl f a l) x.
Proof. revert a. induction l as [|y l IH]; intros a; simpl; [reflexivity | apply IH]. Qed.

(** X5: a name that was already passed adds nothing: appending it again to
    the list of names leaves the tree built by [createTreeFromFileNames]
    unchanged. *)
Theorem X5_createTreeFromFileNames_repeated_name
    (fNames : list string) (rootNote name : string) :
  In name fNames →
  createTreeFromFileNames (fNames ++ [name]) rootNote
  = createTreeFromFileNames fNames rootNote.
Proof.
  intros Hin. rewrite !createTreeFromFileNames_fold, foldl_snoc. f_equal.
  unfold addName at 1. destruct (String.eqb_spec name rootNote) as [Heq|Hne];
    [reflexivity|]. simpl.
  apply reducePath_present.
  - apply foldl_addName_unique, uniqueSiblings_nil.
  - apply foldl_addName_paths. right. exists name. auto.
Qed.

Lemma X5_createTreeFromFileNames_witness :
  createTreeFromFileNames (["a.b"; "a.c"] ++ ["a.b"]) "root"
  = createTreeFromFileNames ["a.b"; "a.c"] "root".
Proof.
  apply (X5_createTreeFromFileNames_repeated_name ["a.b"; "a.c"] "root" "a.b").
  simpl. tauto.
Defined.

(** *** [createTreeFromEngine] fails on missing notes *)

Lemma last_nonempty {A} (l : list A) : l ≠ [] → ∃ x, Js.last l = Some x.
Proof.
  induction l as [|x l IH]; [contradiction|]. intros _.
  destruct l as [|y l]; [now exists x|]. now apply IH.
Qed.

Lemma split_last sep s : ∃ segment, Js.last (Js.split sep s) = Some segment.
Proof.
  apply last_nonempty. intros Hnil.
  assert (Hlen := split_length sep s). now rewrite Hnil in Hlen.
Qed.

Definition noteNotFound (rootNoteId : string) : DendronError :=
  mkDendronError
    ("No note found in engine for " +:+ Js.dquote +:+ rootNoteId +:+ Js.dquote)
    None None.

Lemma member_cases noteDict noteId :
  (∃ note, get noteDict noteId = Some note ∧ member noteDict noteId = Own note) ∨
  (get noteDict noteId = None ∧
   (member noteDict noteId = Inherited ∨ member noteDict noteId = NoMember)).
Proof.
  destruct (get noteDict noteId) as [note|] eqn:Hget.
  - left. exists note. split; [reflexivity | now apply member_get].
  - right. split; [reflexivity | now apply member_None_not_Own].
Qed.

(** X6: [createTreeFromEngine] never skips a note it cannot find. When the
    root id is neither a key of the collection nor a name that objects
    inherit, it throws the "No note found" error; when it is such a name
    and no key, it raises a [TypeError]; and when it returns a tree, the
    root note is in the collection, the tree is named by the last segment
    of its path, every child pointer other than the note's own id names a
    note of the collection, and the tree has one child per such pointer. *)
Theorem X6_createTreeFromEngine_needs_every_note
    (fuel : nat) (allNotes : NotePropsByIdDict) (rootNoteId : string) :
  (member allNotes rootNoteId = NoMember →
   createTreeFromEngine (S fuel) allNotes rootNoteId
   = Throw (ThrowDendron (noteNotFound rootNoteId))) ∧
  (member allNotes rootNoteId = Inherited →
   createTreeFromEngine (S fuel) allNotes rootNoteId = Throw ThrowTypeError) ∧
  (∀ tree,
     createTreeFromEngine fuel allNotes rootNoteId = Done tree →
     ∃ note,
       get allNotes rootNoteId = Some note ∧
       Js.last (Js.split "." (note_fname note)) = Some (fname tree) ∧
       (∀ child, In child (note_children note) → child ≠ note_id note →
                 is_Some (get allNotes child)) ∧
       length (children tree)
       = length (List.filter (fun child => negb (String.eqb child (note_id note)))
                   (note_children note))).
Proof.
  split; [|split].
  - intros Hm. simpl. now rewrite Hm.
  - intros Hm. simpl. now rewrite Hm.
  - intros tree Hrun. destruct fuel as [|fuel]; [discriminate|].
    simpl in Hrun.
    destruct (member_cases allNotes rootNoteId)
      as [(note & Hget & Hm)|(_ & [Hm|Hm])]; rewrite Hm in Hrun;
      try discriminate.
    exists note. split; [exact Hget|].
    destruct (mapM _ _) as [kids| |] eqn:Hmap; try discriminate.
    simpl in Hrun. injection Hrun as <-. simpl.
    destruct (split_last "." (note_fname note)) as [segment Hlast].
    rewrite Hlast. split; [reflexivity|]. split.
    + intros child Hin Hne.
      assert (Hsorted : In child
                (Js.sort Js.localeCompare
                   (List.filter (fun child => negb (String.eqb child (note_id note)))
                      (note_children note)))).
      { apply sort_In, filter_In. split; [exact Hin|].
        apply negb_true_iff. now apply String.eqb_neq. }
      destruct (mapM_outcome_In _ _ _ Hmap child Hsorted) as [sub Hsub].
      destruct fuel as [|fuel]; [discriminate|]. simpl in Hsub.
      destruct (member_cases allNotes child)
        as [(kid & Hkid & _)|(_ & [Hk|Hk])]; [eauto|rewrite Hk in Hsub..];
        discriminate.
    + apply mapM_outcome_Done, Forall2_length in Hmap. rewrite <- Hmap.
      apply Permutation_length, sort_perm.
Qed.

Lemma X6_createTreeFromEngine_witness :
  member danglingChild "ghost" = NoMember ∧
  createTreeFromEngine 1 danglingChild "ghost"
  = Throw (ThrowDendron (noteNotFound "ghost")).
Proof.
  split; [reflexivity|].
  exact (proj1 (X6_createTreeFromEngine_needs_every_note 0 danglingChild "ghost")
           eq_refl).
Defined.

(** *** [sortNotesAtLevel] on plain ids: what it keeps, reports and returns *)

(** The id is a key of the dictionary. *)
Definition present (noteDict : NotePropsByIdDict) (noteId : string) : bool :=
  match get noteDict noteId with
  | Some _ => true
  | None => false
  end.

Lemma present_key noteDict noteId :
  present noteDict noteId = true ↔ In noteId (keys noteDict).
Proof.
  rewrite <- get_Some_key. unfold present.
  destruct (get noteDict noteId); split; eauto; try discriminate.
  intros [? ?]; discriminate.
Qed.

Lemma filter_ext_In {A} (p q : A → bool) l :
  (∀ x, In x l → p x = q x) → List.filter p l = List.filter q l.
Proof.
  induction l as [|x l IH]; intros Hpq; [reflexivity|]. simpl.
  rewrite (Hpq x (or_introl eq_refl)), IH; [reflexivity|].
  intros y Hy. apply Hpq. now right.
Qed.

Lemma isSafe_present getByPath noteDict noteIds :
  plainIds noteDict noteIds →
  ∀ noteId, In noteId noteIds →
    isSafe getByPath noteDict noteId = present noteDict noteId.
Proof.
  intros Hplain noteId Hin.
  pose proof (isSafe_plain getByPath noteDict noteId (Hplain noteId Hin)) as Hsafe.
  pose proof (present_key noteDict noteId) as Hpresent.
  destruct (isSafe getByPath noteDict noteId), (present noteDict noteId);
    try reflexivity.
  - symmetry. apply Hpresent, Hsafe. reflexivity.
  - apply Hsafe, Hpresent. reflexivity.
Qed.

Lemma safe_filter_present getByPath noteDict noteIds :
  plainIds noteDict noteIds →
  List.filter (isSafe getByPath noteDict) noteIds
  = List.filter (present noteDict) noteIds.
Proof. intros Hplain. apply filter_ext_In. now apply isSafe_present. Qed.

Lemma unsafe_filter_absent getByPath noteDict noteIds :
  plainIds noteDict noteIds →
  List.filter (fun noteId => negb (isSafe getByPath noteDict noteId)) noteIds
  = List.filter (fun noteId => negb (present noteDict noteId)) noteIds.
Proof.
  intros Hplain. apply filter_ext_In. intros noteId Hin.
  now rewrite (isSafe_present getByPath noteDict noteIds Hplain noteId Hin).
Qed.

Lemma plain_and_missing : plainIds notesWithTags ["z"; "missing"; "b"].
Proof.
  intros noteId [<-|[<-|[<-|[]]]];
    [left; simpl; tauto | right; split; reflexivity | left; simpl; tauto].
Qed.

(** X23: for ids that are keys of [noteDict] or plain names,
    [sortNotesAtLevel] returns, and its data is a permutation of the input
    ids that are keys of [noteDict]: every id occurs in the data as often
    as among the present input ids, so none is duplicated or dropped, and
    an id occurs in the data only if it is an input id and a key of
    [noteDict]. *)
Theorem X23_sortNotesAtLevel_permutation_of_present_ids
    (getByPath : NotePropsByIdDict → string → bool)
    (noteDict : NotePropsByIdDict) (labelType : option TreeViewItemLabelTypeEnum)
    (noteIds : list string) (reverse : option bool) :
  plainIds noteDict noteIds →
  ∃ result,
    sortNotesAtLevel getByPath noteDict labelType noteIds reverse = Done result ∧
    Permutation (data result) (List.filter (present noteDict) noteIds) ∧
    (∀ noteId,
       count_occ string_dec (data result) noteId
       = count_occ string_dec (List.filter (present noteDict) noteIds) noteId) ∧
    (∀ noteId,
       In noteId (data result) ↔ In noteId noteIds ∧ In noteId (keys noteDict)).
Proof.
  intros Hplain.
  destruct (sortNotesAtLevel_run getByPath noteDict labelType noteIds Hplain)
    as (out & err & Hperm & _ & Hrun).
  rewrite (safe_filter_present getByPath noteDict noteIds Hplain) in Hperm.
  eexists. split; [apply Hrun|]. simpl.
  assert (Hp : Permutation
                 (match reverse with Some true => rev out | _ => out end)
                 (List.filter (present noteDict) noteIds)).
  { destruct reverse as [[|]|]; try exact Hperm.
    now rewrite <- Permutation_rev. }
  split; [exact Hp|]. split.
  - intros noteId. now apply Permutation_count_occ.
  - intros noteId. rewrite <- present_key, <- filter_In.
    split; apply Permutation_in; [exact Hp | symmetry; exact Hp].
Qed.

Lemma X23_sortNotesAtLevel_witness :
  ∃ result,
    sortNotesAtLevel noPath notesWithTags None ["z"; "missing"; "b"] None
      = Done result ∧
    Permutation (data result) ["z"; "b"].
Proof.
  destruct (X23_sortNotesAtLevel_permutation_of_present_ids noPath notesWithTags
              None ["z"; "missing"; "b"] None plain_and_missing)
    as (result & Hrun & Hperm & _).
  exists result. split; [exact Hrun | exact Hperm].
Defined.

(** X9: for ids that are keys of [noteDict] or plain names,
    [sortNotesAtLevel] returns its data together with an error exactly
    when some input id is not a key of [noteDict]; the error then lists,
    as its payload, the ids that are no keys, in input order. *)
Theorem X9_sortNotesAtLevel_reports_omitted
    (getByPath : NotePropsByIdDict → string → bool)
    (noteDict : NotePropsByIdDict) (labelType : option TreeViewItemLabelTypeEnum)
    (noteIds : list string) (reverse : option bool) :
  plainIds noteDict noteIds →
  ∃ result,
    sortNotesAtLevel getByPath noteDict labelType noteIds reverse = Done result ∧
    (error result = None ↔ ∀ noteId, In noteId noteIds → In noteId (keys noteDict)) ∧
    (∀ e, error result = Some e →
          payload e = Some (List.filter (fun noteId => negb (present noteDict noteId))
                              noteIds) ∧
          ∃ noteId, In noteId noteIds ∧ ¬ In noteId (keys noteDict)).
Proof.
  intros Hplain.
  destruct (bubbleDownTags_present noteDict _
              (sorted_ids_present getByPath noteDict labelType noteIds Hplain))
    as (out & Hrun & _).
  unfold sortNotesAtLevel.
  rewrite (sortBy_present _ _ _ (safe_present getByPath noteDict noteIds Hplain)).
  rewrite outcome_bind_Done, Hrun, outcome_bind_Done.
  rewrite (unsafe_filter_absent getByPath noteDict noteIds Hplain).
  set (omitted := List.filter (fun noteId => negb (present noteDict noteId)) noteIds).
  assert (Hom : ∀ noteId, In noteId omitted ↔
                          In noteId noteIds ∧ ¬ In noteId (keys noteDict)).
  { intros noteId. unfold omitted. rewrite filter_In, <- present_key.
    destruct (present noteDict noteId); simpl; split; intros [? ?]; split;
      try assumption; try discriminate; try reflexivity; congruence. }
  exists (mkSortResult
            (match reverse with Some true => rev out | _ => out end)
            (if (0 <? length omitted)%nat
             then Some (mkDendronError
                          "Omitted sorting note ids not found in noteDict"
                          None (Some omitted))
             else None)).
  split; [destruct reverse as [[|]|]; reflexivity|].
  simpl error. destruct omitted as [|x rest] eqn:Ho; simpl.
  - split; [split; [|reflexivity] | discriminate].
    intros _ noteId Hin. destruct (in_dec string_dec noteId (keys noteDict)) as [?|Hn];
      [assumption|]. exfalso. now apply (proj2 (Hom noteId)).
  - split; [split; [discriminate|] |].
    + intros Hall. exfalso. destruct (proj1 (Hom x)) as [Hin Hn]; [now left|].
      now apply Hn, Hall.
    + intros e [= <-]. split; [reflexivity|]. exists x. apply Hom. now left.
Qed.

Lemma X9_sortNotesAtLevel_witness :
  sortNotesAtLevel noPath notesWithTags None ["z"; "missing"; "b"] None
  = Done (mkSortResult ["b"; "z"]
            (Some (mkDendronError "Omitted sorting note ids not found in noteDict"
                     None (Some ["missing"])))) ∧
  ∃ result,
    sortNotesAtLevel noPath notesWithTags None ["z"; "missing"; "b"] None
      = Done result ∧
    error result ≠ None.
Proof.
  split; [reflexivity|].
  destruct (X9_sortNotesAtLevel_reports_omitted noPath notesWithTags None
              ["z"; "missing"; "b"] None plain_and_missing)
    as (result & Hrun & Herror & _).
  exists result. split; [exact Hrun|].
  intros Hnone. pose proof (proj1 Herror Hnone) as Hall.
  specialize (Hall "missing" ltac:(simpl; tauto)).
  simpl in Hall. destruct Hall as [H|[H|[H|[]]]]; discriminate H.
Defined.

(** [x] comes strictly before [y] when both are defined and ordered, or when
    only [x] is defined: an undefined key sorts last. *)
Definition definedBefore {A} (lt : A → A → Prop) (x y : option A) : Prop :=
  match x, y with
  | Some a, Some b => lt a b
  | Some _, None => True
  | _, _ => False
  end.

Definition stringLt (a b : string) : Prop := String.compare a b = Lt.

(** The label of a note of the dictionary: the last segment of its path
    for file name labels, its title otherwise, in lower case. *)
Definition labelKey (noteDict : NotePropsByIdDict)
    (labelType : option TreeViewItemLabelTypeEnum) (noteId : string)
    : option string :=
  n ← get noteDict noteId;
  match labelType with
  | Some label_filename => Js.toLowerCase <$> Js.last (Js.split "." (note_fname n))
  | _ => Some (Js.toLowerCase (note_title n))
  end.

Definition navOrderKey (noteDict : NotePropsByIdDict) (noteId : string) : option Z :=
  n ← get noteDict noteId; custom_nav_order n.

Definition updatedKey (noteDict : NotePropsByIdDict) (noteId : string) : option Z :=
  note_updated <$> get noteDict noteId.

Section NoteOrder.
Variable noteDict : NotePropsByIdDict.
Variable labelType : option TreeViewItemLabelTypeEnum.

(** The order of the sorted ids in words: by explicit order, then by label,
    then by last update, each ascending with undefined values last. *)
Definition noteLe (a b : string) : Prop :=
  definedBefore Z.lt (navOrderKey noteDict a) (navOrderKey noteDict b) ∨
  (navOrderKey noteDict a = navOrderKey noteDict b ∧
   (definedBefore stringLt (labelKey noteDict labelType a) (labelKey noteDict labelType b) ∨
    (labelKey noteDict labelType a = labelKey noteDict labelType b ∧
     (definedBefore Z.lt (updatedKey noteDict a) (updatedKey noteDict b) ∨
      updatedKey noteDict a = updatedKey noteDict b)))).

Definition noteKey (noteId : string) : option Z * (option string * option Z) :=
  (byNavOrder noteDict noteId, (labelOf noteDict labelType noteId, byUpdated noteDict noteId)).

Definition compareNoteKey :=
  comparePair (Js.compareAscending Z.compare)
    (comparePair (Js.compareAscending String.compare) (Js.compareAscending Z.compare)).

Lemma compareNoteIds_key a b :
  compareNoteIds noteDict labelType a b = compareNoteKey (noteKey a) (noteKey b).
Proof. reflexivity. Qed.

Lemma compareNoteKey_OrderCompare : OrderCompare compareNoteKey.
Proof.
  repeat apply comparePair_OrderCompare; apply compareAscending_OrderCompare;
    auto using Z_OrderCompare, string_OrderCompare.
Qed.

Lemma compareAscending_Lt {A} (cmp : A → A → comparison) x y :
  Js.compareAscending cmp x y = Lt ↔ definedBefore (fun a b => cmp a b = Lt) x y.
Proof. destruct x, y; simpl; split; try tauto; discriminate. Qed.

Lemma leCmp_Lt_or_eq {A} (cmp : A → A → comparison) x y :
  OrderCompare cmp → leCmp cmp x y ↔ cmp x y = Lt ∨ x = y.
Proof.
  intros [Heq _ _]. unfold leCmp. specialize (Heq x y).
  destruct (cmp x y); split; try tauto; try discriminate.
  - intros [?|?]; [discriminate|]. apply Heq in H. discriminate.
Qed.

Lemma leCmp_comparePair {A B} (cmpA : A → A → comparison)
    (cmpB : B → B → comparison) x y :
  OrderCompare cmpA →
  leCmp (comparePair cmpA cmpB) x y ↔
  cmpA (fst x) (fst y) = Lt ∨ (fst x = fst y ∧ leCmp cmpB (snd x) (snd y)).
Proof.
  intros [Heq _ _]. unfold leCmp, comparePair. specialize (Heq (fst x) (fst y)).
  destruct (cmpA (fst x) (fst y)); simpl.
  - split; [intros; right; split; [now apply Heq | assumption]|].
    intros [?|[_ ?]]; [discriminate | assumption].
  - split; [now left | discriminate].
  - split; [congruence|]. intros [?|[Hxy _]]; [discriminate|].
    apply Heq in Hxy. discriminate.
Qed.

(** On the ids of notes the keys compared by [_.sortBy] are the keys the
    order is stated with. *)
Lemma noteKey_present noteId :
  is_Some (get noteDict noteId) →
  noteKey noteId
  = (navOrderKey noteDict noteId,
     (labelKey noteDict labelType noteId, updatedKey noteDict noteId)).
Proof.
  intros [n Hn]. unfold noteKey, byNavOrder, labelOf, byLabel, byUpdated,
    navOrderKey, labelKey, updatedKey.
  rewrite (member_get _ _ _ Hn), Hn. simpl.
  now destruct labelType as [[|]|].
Qed.

Lemma noteLe_iff a b :
  is_Some (get noteDict a) → is_Some (get noteDict b) →
  leCmp (compareNoteIds noteDict labelType) a b ↔ noteLe a b.
Proof.
  intros Ha Hb.
  unfold leCmp. rewrite compareNoteIds_key. fold (leCmp compareNoteKey (noteKey a) (noteKey b)).
  rewrite (noteKey_present a Ha), (noteKey_present b Hb).
  unfold compareNoteKey, noteLe.
  rewrite leCmp_comparePair by (apply compareAscending_OrderCompare, Z_OrderCompare).
  rewrite leCmp_comparePair by (apply compareAscending_OrderCompare, string_OrderCompare).
  rewrite leCmp_Lt_or_eq by (apply compareAscending_OrderCompare, Z_OrderCompare).
  rewrite !compareAscending_Lt. simpl. reflexivity.
Qed.

Lemma StronglySorted_weaken_In {A} (R R' : A → A → Prop) l :
  (∀ x y, In x l → In y l → R x y → R' x y) →
  StronglySorted R l → StronglySorted R' l.
Proof.
  intros Himpl Hsorted. induction Hsorted as [|x l _ IH Hall]; constructor.
  - apply IH. intros y z Hy Hz. apply Himpl; now right.
  - rewrite List.Forall_forall in *. intros y Hy.
    apply Himpl; [now left | now right | now apply Hall].
Qed.

Lemma sortNoteIds_sorted noteIds :
  Forall (fun noteId => is_Some (get noteDict noteId)) noteIds →
  StronglySorted noteLe (Js.sort (compareNoteIds noteDict labelType) noteIds).
Proof.
  intros Hpresent. rewrite List.Forall_forall in Hpresent.
  apply (StronglySorted_weaken_In (leCmp (compareNoteIds noteDict labelType))).
  - intros x y Hx Hy. apply noteLe_iff; apply Hpresent; now apply sort_In in Hx, Hy.
  - apply sort_sorted.
    + intros x y. unfold leCmp. rewrite !compareNoteIds_key.
      rewrite (cmp_antisym _ compareNoteKey_OrderCompare (noteKey x) (noteKey y)).
      now intros ->.
    + intros x y z. unfold leCmp. rewrite !compareNoteIds_key.
      apply (OrderCompare_le_trans _ compareNoteKey_OrderCompare).
Qed.

End NoteOrder.

(** X10: for ids that are keys of [noteDict] or plain names, the data of
    [sortNotesAtLevel] is the list of present ids sorted by explicit order,
    then label, then last update (undefined values last), except that one
    tags hierarchy root without explicit order may have been taken out of
    that sorted list and put at its end. *)
Theorem X10_sortNotesAtLevel_sorted
    (getByPath : NotePropsByIdDict → string → bool)
    (noteDict : NotePropsByIdDict) (labelType : option TreeViewItemLabelTypeEnum)
    (noteIds : list string) :
  plainIds noteDict noteIds →
  ∃ sortedIds result,
    Permutation sortedIds (List.filter (present noteDict) noteIds) ∧
    StronglySorted (noteLe noteDict labelType) sortedIds ∧
    sortNotesAtLevel getByPath noteDict labelType noteIds None = Done result ∧
    (data result = sortedIds ∨
     ∃ t n, In t sortedIds ∧ get noteDict t = Some n ∧
            note_fname n = TAGS_HIERARCHY_BASE ∧ custom_nav_order n = None ∧
            data result = Js.removeFirst t sortedIds ++ [t]).
Proof.
  intros Hplain.
  exists (Js.sort (compareNoteIds noteDict labelType)
            (List.filter (isSafe getByPath noteDict) noteIds)).
  pose proof (safe_present getByPath noteDict noteIds Hplain) as Hsafe.
  assert (Hperm : Permutation
            (Js.sort (compareNoteIds noteDict labelType)
               (List.filter (isSafe getByPath noteDict) noteIds))
            (List.filter (present noteDict) noteIds)).
  { rewrite <- (safe_filter_present getByPath noteDict noteIds Hplain).
    apply sort_perm. }
  destruct (bubbleDownTags_cases noteDict _
              (sorted_ids_present getByPath noteDict labelType noteIds Hplain))
    as [Hrun|(t & n & Hin & Hget & Hfname & Hnav & Hrun)].
  - eexists. split; [exact Hperm|]. split; [now apply sortNoteIds_sorted|].
    unfold sortNotesAtLevel. rewrite (sortBy_present _ _ _ Hsafe).
    rewrite outcome_bind_Done, Hrun. simpl. split; [reflexivity|]. now left.
  - eexists. split; [exact Hperm|]. split; [now apply sortNoteIds_sorted|].
    unfold sortNotesAtLevel. rewrite (sortBy_present _ _ _ Hsafe).
    rewrite outcome_bind_Done, Hrun. simpl. split; [reflexivity|].
    right. exists t, n. auto.
Qed.

Lemma X10_sortNotesAtLevel_witness :
  ∃ sortedIds result,
    StronglySorted (noteLe notesWithTags None) sortedIds ∧
    sortNotesAtLevel noPath notesWithTags None ["t"; "z"; "b"] None = Done result ∧
    data result = ["b"; "z"; "t"].
Proof.
  destruct (X10_sortNotesAtLevel_sorted noPath notesWithTags None ["t"; "z"; "b"]
              notesWithTags_plain)
    as (sortedIds & result & _ & Hsorted & Hrun & _).
  exists sortedIds, result. split; [exact Hsorted|]. split; [exact Hrun|].
  vm_compute in Hrun. now injection Hrun as <-.
Defined.

(** *** The indexes of the tree menu *)

(** Every entry of [m] is an entry of [m']. *)
Definition extendsMap {V} (m m' : gmap string V) : Prop :=
  ∀ k v, m !! k = Some v → m' !! k = Some v.

(** Every recorded parent is itself a key, or bears a name that objects
    inherit. *)
Definition parentsRecorded (m : gmap string (option string)) : Prop :=
  ∀ k p, m !! k = Some (Some p) → is_Some (m !! p) ∨ inherited p = true.

(** No key is a name that objects inherit. *)
Definition plainKeys (m : gmap string (option string)) : Prop :=
  ∀ k, is_Some (m !! k) → inherited k = false.

Definition chainsFinite (m : gmap string (option string)) : Prop :=
  ∀ k, ∃ ancestors, parentChain m k ancestors.

Lemma truthyParent_Some (m : gmap string (option string)) k p :
  truthyParent (m !! k) = Some p → m !! k = Some (Some p).
Proof.
  unfold truthyParent. destruct (m !! k) as [[q|]|]; try discriminate.
  destruct (String.eqb q ""); [discriminate|]. now intros [= ->].
Qed.

Lemma parentChain_insert_other (m : gmap string (option string)) k v x ancestors :
  m !! k = None → inherited k = false → parentsRecorded m → x ≠ k →
  parentChain m x ancestors → parentChain (<[k:=v]> m) x ancestors.
Proof.
  intros Hnone Hplain Hrec Hne Hchain. revert Hne.
  induction Hchain as [x Hend | x p ancestors Hp _ IH]; intros Hne.
  - apply chain_end. now rewrite lookup_insert_ne.
  - apply chain_step; [now rewrite lookup_insert_ne|].
    apply IH. intros ->. apply truthyParent_Some, Hrec in Hp.
    destruct Hp as [[v' Hv']|Hp]; congruence.
Qed.

Lemma inherited_proto k : String.eqb k "__proto__" = true → inherited k = true.
Proof. intros Hk. apply String.eqb_eq in Hk. now subst k. Qed.

Section MenuIndexes.
Variable getName : DVault → string.
Variable noteDict : NotePropsByIdDict.

(** What holds of the two indexes whenever [itemToTreeMenuNode] is entered
    or left. *)
Definition indexesOk (ix : Indexes) : Prop :=
  parentsRecorded (ix_child2parent ix) ∧
  plainKeys (ix_child2parent ix) ∧
  chainsFinite (ix_child2parent ix) ∧
  ∀ k, is_Some (ix_child2parent ix !! k) ↔
       is_Some (ix_notesLabelById ix !! k) ∧ inherited k = false.

Definition parentKnown (ix : Indexes) (parent : option string) : Prop :=
  match parent with
  | None => True
  | Some p => is_Some (ix_child2parent ix !! p) ∨ inherited p = true
  end.

Lemma recordLabel_child2parent k title ix :
  ix_child2parent (recordLabel k title ix) = ix_child2parent ix.
Proof. unfold recordLabel. now destruct (String.eqb k "__proto__"). Qed.

Lemma recordParent_extends k parent ix :
  extendsMap (ix_child2parent ix) (ix_child2parent (recordParent k parent ix)).
Proof.
  unfold recordParent. intros k' v Hk'.
  destruct (ix_child2parent ix !! k) eqn:Hk; [exact Hk'|].
  destruct (inherited k); [exact Hk'|]. simpl.
  rewrite lookup_insert_ne; [exact Hk' | congruence].
Qed.

Lemma record_extends k title parent ix :
  extendsMap (ix_child2parent ix)
    (ix_child2parent (recordParent k parent (recordLabel k title ix))).
Proof.
  intros k' v Hk'. apply recordParent_extends.
  now rewrite recordLabel_child2parent.
Qed.

Lemma mapItems_extends f items : ∀ ix r,
  (∀ item ix' r', In item items → f item ix' = Done r' →
     extendsMap (ix_child2parent ix') (ix_child2parent (snd r'))) →
  mapItems f items ix = Done r →
  extendsMap (ix_child2parent ix) (ix_child2parent (snd r)).
Proof.
  induction items as [|item items IH]; intros ix r Hf Hrun.
  - simpl in Hrun. injection Hrun as <-. now intros k v.
  - rewrite mapItems_cons in Hrun.
    destruct (f item ix) as [r1| |] eqn:Hitem; try discriminate.
    rewrite outcome_bind_Done in Hrun.
    destruct (mapItems f items (snd r1)) as [rs| |] eqn:Hrest; try discriminate.
    rewrite outcome_bind_Done in Hrun. injection Hrun as <-. simpl.
    intros k v Hk.
    apply (IH (snd r1) rs (fun i ix' r' Hin => Hf i ix' r' (or_intror Hin)) Hrest).
    now apply (Hf item ix r1 (or_introl eq_refl) Hitem).
Qed.

Lemma itemToTreeMenuNode_extends item : ∀ parent ix r,
  itemToTreeMenuNode getName noteDict item parent ix = Done r →
  extendsMap (ix_child2parent ix) (ix_child2parent (snd r)).
Proof.
  induction item as [id label pos | label items link pos IH]
    using SidebarItem_nested_ind; intros parent ix r Hrun.
  - simpl in Hrun.
    destruct (itemToNote noteDict (ItemNote id label pos)) as [note| |];
      try discriminate; injection Hrun as <-; simpl; [|now intros k v].
    apply record_extends.
  - destruct (itemToNote noteDict (ItemCategory label items link pos))
      as [note| |] eqn:Hnote.
    + rewrite (itemToTreeMenuNode_category _ _ _ _ _ _ _ _ note Hnote) in Hrun.
      destruct (mapItems _ items _) as [rs| |] eqn:Hitems; try discriminate.
      rewrite outcome_bind_Done in Hrun. injection Hrun as <-. simpl.
      intros k v Hk.
      apply (mapItems_extends _ items _ rs
               (fun item ix' r' Hin Hr =>
                  proj1 (List.Forall_forall _ _) IH item Hin _ ix' r' Hr) Hitems).
      now apply record_extends.
    + rewrite itemToTreeMenuNode_inherited in Hrun by exact Hnote. discriminate.
    + rewrite itemToTreeMenuNode_missing in Hrun by exact Hnote.
      injection Hrun as <-. now intros k v.
Qed.

Lemma parentKnown_extends ix ix' parent :
  extendsMap (ix_child2parent ix) (ix_child2parent ix') →
  parentKnown ix parent → parentKnown ix' parent.
Proof.
  intros Hext. destruct parent as [p|]; [|trivial]. simpl.
  intros [[v Hv]|Hp]; [left; exists v; now apply Hext | now right].
Qed.

Lemma record_ok k title parent ix :
  indexesOk ix → parentKnown ix parent →
  indexesOk (recordParent k parent (recordLabel k title ix)) ∧
  parentKnown (recordParent k parent (recordLabel k title ix)) (Some k).
Proof.
  intros (Hrec & Hplain & Hfin & Hkeys) Hparent.
  destruct (inherited k) eqn:Hk.
  - (* nothing is recorded under [k] in [child2parent] *)
    assert (Hnone : ix_child2parent ix !! k = None).
    { destruct (ix_child2parent ix !! k) eqn:Hl; [|reflexivity].
      rewrite (Hplain k) in Hk by eauto. discriminate. }
    assert (Hsame : ix_child2parent (recordParent k parent (recordLabel k title ix))
                    = ix_child2parent ix).
    { unfold recordParent. rewrite recordLabel_child2parent, Hnone, Hk.
      apply recordLabel_child2parent. }
    split; [|simpl; now right].
    unfold indexesOk. rewrite Hsame.
    split; [exact Hrec|]. split; [exact Hplain|]. split; [exact Hfin|].
    intros k'. rewrite Hkeys. unfold recordParent.
    rewrite recordLabel_child2parent, Hnone, Hk. unfold recordLabel.
    destruct (String.eqb k "__proto__"); [reflexivity|]. simpl.
    destruct (decide (k = k')) as [<-|Hne].
    + rewrite lookup_insert_eq, Hk. split; intros [_ ?]; discriminate.
    + now rewrite lookup_insert_ne.
  - (* the label is recorded, and the parent unless there is one already *)
    assert (Hlabel : recordLabel k title ix
                     = mkIndexes (ix_child2parent ix)
                         (<[k := title]> (ix_notesLabelById ix))).
    { unfold recordLabel. destruct (String.eqb k "__proto__") eqn:Hp; [|reflexivity].
      apply inherited_proto in Hp. congruence. }
    rewrite Hlabel. unfold recordParent, indexesOk, parentKnown.
    cbn [ix_child2parent ix_notesLabelById].
    destruct (ix_child2parent ix !! k) as [v|] eqn:Hl;
      [|rewrite Hk]; cbn [ix_child2parent ix_notesLabelById].
    + split; [|left; rewrite Hl; eauto].
      split; [exact Hrec|]. split; [exact Hplain|]. split; [exact Hfin|].
      intros k'. rewrite Hkeys. destruct (decide (k = k')) as [<-|Hne].
      * rewrite lookup_insert_eq. split; [intros [_ ?]; eauto|].
        intros [_ ?]. split; [|assumption]. apply Hkeys. rewrite Hl. eauto.
      * now rewrite lookup_insert_ne.
    + split; [|left; rewrite lookup_insert_eq; eauto]. split; [|split; [|split]].
      * intros k' p. destruct (decide (k = k')) as [<-|Hne].
        -- rewrite lookup_insert_eq. intros [= ->]. simpl in Hparent.
           destruct Hparent as [[v Hv]|Hp]; [left|now right].
           destruct (decide (k = p)) as [<-|Hkp];
             [rewrite lookup_insert_eq | rewrite lookup_insert_ne by exact Hkp];
             eauto.
        -- rewrite lookup_insert_ne by exact Hne. intros Hk'.
           destruct (Hrec k' p Hk') as [[v Hv]|Hp]; [left|now right].
           destruct (decide (k = p)) as [<-|Hkp];
             [rewrite lookup_insert_eq | rewrite lookup_insert_ne by exact Hkp];
             eauto.
      * intros k' Hk'. destruct (decide (k = k')) as [<-|Hne]; [exact Hk|].
        rewrite lookup_insert_ne in Hk' by exact Hne. now apply Hplain.
      * intros k'. destruct (decide (k' = k)) as [->|Hne].
        -- destruct (truthyParent (Some parent)) as [p|] eqn:Hp.
           ++ assert (Hpk : parent = Some p).
              { unfold truthyParent in Hp. destruct parent as [q|]; [|discriminate].
                destruct (String.eqb q ""); [discriminate | congruence]. }
              subst parent. simpl in Hparent.
              destruct (Hfin p) as [ancestors Hchain].
              exists (ancestors ++ [p]). apply chain_step.
              ** now rewrite lookup_insert_eq.
              ** apply parentChain_insert_other; try assumption.
                 intros ->. destruct Hparent as [[v Hv]|Hp']; congruence.
           ++ exists []. apply chain_end. now rewrite lookup_insert_eq.
        -- destruct (Hfin k') as [ancestors Hchain]. exists ancestors.
           now apply parentChain_insert_other.
      * intros k'. destruct (decide (k = k')) as [<-|Hne].
        -- rewrite !lookup_insert_eq. split; eauto.
        -- rewrite !lookup_insert_ne by exact Hne. apply Hkeys.
Qed.

Lemma mapItems_ok f parent items : ∀ ix r,
  (∀ item ix' r', In item items → f item ix' = Done r' →
     extendsMap (ix_child2parent ix') (ix_child2parent (snd r')) ∧
     (indexesOk ix' → parentKnown ix' parent → indexesOk (snd r'))) →
  mapItems f items ix = Done r →
  indexesOk ix → parentKnown ix parent →
  indexesOk (snd r).
Proof.
  induction items as [|item items IH]; intros ix r Hf Hrun Hok Hparent.
  - simpl in Hrun. now injection Hrun as <-.
  - rewrite mapItems_cons in Hrun.
    destruct (f item ix) as [r1| |] eqn:Hitem; try discriminate.
    rewrite outcome_bind_Done in Hrun.
    destruct (mapItems f items (snd r1)) as [rs| |] eqn:Hrest; try discriminate.
    rewrite outcome_bind_Done in Hrun. injection Hrun as <-. simpl.
    destruct (Hf item ix r1 (or_introl eq_refl) Hitem) as [Hext Hstep].
    apply (IH (snd r1) rs (fun i ix' r' Hin => Hf i ix' r' (or_intror Hin)) Hrest).
    + now apply Hstep.
    + now apply (parentKnown_extends ix).
Qed.

Lemma itemToTreeMenuNode_ok item : ∀ parent ix r,
  itemToTreeMenuNode getName noteDict item parent ix = Done r →
  indexesOk ix → parentKnown ix parent →
  indexesOk (snd r).
Proof.
  induction item as [id label pos | label items link pos IH]
    using SidebarItem_nested_ind; intros parent ix r Hrun Hok Hparent.
  - simpl in Hrun.
    destruct (itemToNote noteDict (ItemNote id label pos)) as [note| |];
      try discriminate; injection Hrun as <-; simpl; [|exact Hok].
    now apply record_ok.
  - destruct (itemToNote noteDict (ItemCategory label items link pos))
      as [note| |] eqn:Hnote.
    + rewrite (itemToTreeMenuNode_category _ _ _ _ _ _ _ _ note Hnote) in Hrun.
      destruct (mapItems _ items _) as [rs| |] eqn:Hitems; try discriminate.
      rewrite outcome_bind_Done in Hrun. injection Hrun as <-. simpl.
      destruct (record_ok (note_id note) (default (note_title note) label)
                  parent ix Hok Hparent) as [Hok2 Hknown].
      apply (mapItems_ok _ (Some (note_id note)) items _ rs
               (fun item ix' r' Hin Hr =>
                  conj (itemToTreeMenuNode_extends item _ ix' r' Hr)
                       (proj1 (List.Forall_forall _ _) IH item Hin _ ix' r' Hr))
               Hitems Hok2 Hknown).
    + rewrite itemToTreeMenuNode_inherited in Hrun by exact Hnote. discriminate.
    + rewrite itemToTreeMenuNode_missing in Hrun by exact Hnote.
      now injection Hrun as <-.
Qed.

Lemma indexesOk_empty : indexesOk (mkIndexes ∅ ∅).
Proof.
  split; [|split; [|split]].
  - intros k p Hk. simpl in Hk. now rewrite lookup_empty in Hk.
  - intros k [v Hv]. simpl in Hv. now rewrite lookup_empty in Hv.
  - intros k. exists []. apply chain_end. simpl. now rewrite lookup_empty.
  - intros k. simpl. split.
    + intros [v Hv]. rewrite lookup_empty in Hv. discriminate.
    + intros [[v Hv] _]. rewrite lookup_empty in Hv. discriminate.
Qed.

Lemma buildSidebar_ok sidebar menu :
  buildSidebar getName noteDict sidebar = Done menu →
  indexesOk (mkIndexes (child2parent menu) (notesLabelById menu)).
Proof.
  unfold buildSidebar. intros Hrun.
  destruct (mapItems _ sidebar _) as [[nodes [c2p labels]]| |] eqn:Hitems;
    try discriminate.
  rewrite outcome_bind_Done in Hrun. injection Hrun as <-. simpl.
  apply (mapItems_ok _ None sidebar _ _
           (fun item ix' r' _ Hr =>
              conj (itemToTreeMenuNode_extends item None ix' r' Hr)
                   (itemToTreeMenuNode_ok item None ix' r' Hr))
           Hitems indexesOk_empty I).
Qed.

(** The tree menu [generateTreeData] returns is the one built for the
    first sidebar, or the empty one. *)
Lemma generateTreeData_first sidebars menu :
  generateTreeData getName noteDict sidebars = Done menu →
  match sidebars with
  | [] => menu = mkTreeMenu [] ∅ ∅
  | (_, sidebar) :: _ => buildSidebar getName noteDict sidebar = Done menu
  end.
Proof.
  unfold generateTreeData. intros Hrun.
  destruct sidebars as [|[name sidebar] rest].
  - simpl in Hrun. now injection Hrun as <-.
  - rewrite mapM_outcome_cons in Hrun. simpl in Hrun.
    destruct (buildSidebar getName noteDict sidebar) as [first| |];
      try discriminate.
    simpl in Hrun. destruct (mapM _ rest) as [menus| |]; try discriminate.
    simpl in Hrun. now injection Hrun as <-.
Qed.

Lemma generateTreeData_ok sidebars menu :
  generateTreeData getName noteDict sidebars = Done menu →
  indexesOk (mkIndexes (child2parent menu) (notesLabelById menu)).
Proof.
  intros Hrun. apply generateTreeData_first in Hrun.
  destruct sidebars as [|[name sidebar] rest];
    [subst menu; apply indexesOk_empty | now apply (buildSidebar_ok sidebar)].
Qed.

End MenuIndexes.

(** A collection in which a note is stored under a name that every object
    inherits. *)
Definition constructorGraph : NotePropsByIdDict :=
  [ ("constructor", plainNote "constructor" "constructor" ["b"]);
    ("b", plainNote "b" "b" []) ].

(** X11: in a tree menu built by [generateTreeData], the keys of
    [child2parent] are the keys of [notesLabelById] that are no names of
    inherited members: nothing is ever recorded in [child2parent] for a
    note whose id is such a name. Every parent recorded in [child2parent]
    is itself a key of [child2parent] or bears such a name. *)
Theorem X11_generateTreeData_indexes_agree
    (getName : DVault → string) (noteDict : NotePropsByIdDict) (sidebars : Sidebars)
    (menu : TreeMenu) :
  generateTreeData getName noteDict sidebars = Done menu →
  (∀ k, is_Some (child2parent menu !! k) ↔
        is_Some (notesLabelById menu !! k) ∧ inherited k = false) ∧
  (∀ k p, child2parent menu !! k = Some (Some p) →
          is_Some (child2parent menu !! p) ∨ inherited p = true).
Proof.
  intros Hrun.
  destruct (generateTreeData_ok getName noteDict sidebars menu Hrun)
    as (Hrec & _ & _ & Hkeys).
  split; [exact Hkeys | exact Hrec].
Qed.

Lemma X11_generateTreeData_witness :
  let sidebars :=
    [("s", [ItemCategory (Some "C") [ItemNote (Some "b") None noPosition]
              (Some "constructor") noPosition])] in
  ∃ menu,
    generateTreeData vault_name_or_path constructorGraph sidebars = Done menu ∧
    child2parent menu !! "b" = Some (Some "constructor") ∧
    child2parent menu !! "constructor" = None ∧
    notesLabelById menu !! "constructor" = Some "C" ∧
    (is_Some (child2parent menu !! "constructor") ↔
     is_Some (notesLabelById menu !! "constructor") ∧ inherited "constructor" = false).
Proof.
  intros sidebars. eexists. split; [reflexivity|].
  split; [reflexivity|]. split; [reflexivity|]. split; [reflexivity|].
  exact (proj1 (X11_generateTreeData_indexes_agree vault_name_or_path
                  constructorGraph sidebars _ eq_refl) "constructor").
Defined.



(** X13: the first parent wins: the entries [child2parent] holds after a
    prefix of a sidebar has been processed are still there, unchanged, in
    the tree menu of the whole sidebar. *)
Theorem X13_generateTreeData_first_parent_wins
    (getName : DVault → string) (noteDict : NotePropsByIdDict)
    (name : string) (before after : Sidebar) (rest : Sidebars)
    (prefixMenu menu : TreeMenu) (k : string) (parent : option string) :
  generateTreeData getName noteDict [(name, before)] = Done prefixMenu →
  generateTreeData getName noteDict ((name, before ++ after) :: rest) = Done menu →
  child2parent prefixMenu !! k = Some parent →
  child2parent menu !! k = Some parent.
Proof.
  intros Hprefix Hrun.
  apply generateTreeData_first in Hprefix, Hrun. unfold buildSidebar in *.
  rewrite mapItems_app in Hrun.
  destruct (mapItems _ before _) as [r1| |]; try discriminate.
  rewrite outcome_bind_Done in Hprefix. injection Hprefix as <-.
  rewrite outcome_bind_Done in Hrun.
  destruct (mapItems _ after (snd r1)) as [r2| |] eqn:Hafter; try discriminate.
  rewrite !outcome_bind_Done in Hrun. injection Hrun as <-. simpl.
  apply (mapItems_extends _ after (snd r1) r2
           (fun item ix' r' _ Hr =>
              itemToTreeMenuNode_extends getName noteDict item None ix' r' Hr)
           Hafter).
Qed.

Lemma X13_generateTreeData_witness :
  let first := ItemCategory (Some "A") [ItemNote (Some "b") None noPosition]
                 (Some "a") noPosition in
  let again := ItemNote (Some "b") (Some "B again") noPosition in
  ∃ menu,
    generateTreeData vault_name_or_path smallGraph [("s", [first] ++ [again])]
      = Done menu ∧
    child2parent menu !! "b" = Some (Some "a").
Proof.
  intros first again. eexists. split; [reflexivity|].
  apply (X13_generateTreeData_first_parent_wins vault_name_or_path smallGraph
           "s" [first] [again] [] _ _ "b" (Some "a") eq_refl eq_refl).
  reflexivity.
Defined.

(** ** Further properties of the sidebar resolver *)

(** *** [getPriorityVaults] and [resolveItemId] *)

Lemma uniq_In names v : In v (Js.uniq names) ↔ In v names.
Proof.
  induction names as [|x names IH]; simpl; [tauto|].
  rewrite filter_In, IH. destruct (String.eqb_spec v x) as [->|Hne]; simpl.
  - split; [intros [?|[_ ?]]; [now left | discriminate] | now left].
  - split; [intros [?|[? _]]; [now left | now right]|].
    intros [?|?]; [now left | right; now split].
Qed.

Lemma uniq_NoDup names : NoDup (Js.uniq names).
Proof.
  induction names as [|x names IH]; simpl; [constructor|].
  apply NoDup_cons. split.
  - intros Hin. apply list_elem_of_In, filter_In in Hin as [_ Hx].
    now rewrite String.eqb_refl in Hx.
  - clear -IH. induction IH as [|y l Hy _ IHl]; simpl; [constructor|].
    destruct (negb (String.eqb y x)); [|exact IHl].
    apply NoDup_cons. split; [|exact IHl].
    intros Hin. apply Hy. apply list_elem_of_In. apply list_elem_of_In in Hin.
    now apply filter_In in Hin.
Qed.

(** X14: for a payload that is a list of vault names, [getPriorityVaults]
    returns those names without repetition, each at the place of its first
    occurrence: the same names are there, and the first name with any given
    property is the same in both lists. *)
Theorem X14_getPriorityVaults_first_occurrences (names : list string) :
  ∃ vaults,
    getPriorityVaults (preferVaults names) = Some vaults ∧
    NoDup vaults ∧
    (∀ v, In v vaults ↔ In v names) ∧
    (∀ p : string → bool, List.find p vaults = List.find p names).
Proof.
  exists (Js.uniq names). split; [reflexivity|]. split; [apply uniq_NoDup|].
  split; [apply uniq_In | intros p; apply find_uniq].
Qed.

(** X15: [resolveItemId] throws the "does not exist" error naming the
    reference exactly when the collection has no property of that name, of
    its own or inherited, and no note has the reference as its path; a
    reference that is a note id resolves to that note, whatever the paths
    of the other notes and the duplicate behaviour; a reference that is no
    id but the name of a member every object inherits resolves to
    [undefined] without an error; and every id it returns is the id of a
    note of the collection, which has the reference as its path when the
    reference is not an id. *)
Theorem X15_resolveItemId_outcomes
    (notes : NotePropsByIdDict) (duplicateNoteBehavior : option DuplicateNoteBehavior)
    (sidebarId : string) :
  (resolveItemId notes duplicateNoteBehavior sidebarId
     = Throw (ThrowDendron (doesNotExist sidebarId)) ↔
   member notes sidebarId = NoMember ∧
   ∀ n, In n (values notes) → note_fname n ≠ sidebarId) ∧
  (∀ note, get notes sidebarId = Some note →
     resolveItemId notes duplicateNoteBehavior sidebarId
     = Done (Some (note_id note))) ∧
  (member notes sidebarId = Inherited →
     resolveItemId notes duplicateNoteBehavior sidebarId = Done None) ∧
  (∀ resolved,
     resolveItemId notes duplicateNoteBehavior sidebarId = Done (Some resolved) →
     ∃ n, In n (values notes) ∧ note_id n = resolved ∧
          (get notes sidebarId = None → note_fname n = sidebarId)).
Proof.
  split; [|split; [|split]].
  - rewrite <- isMissing_iff.
    destruct (resolveItemId_outcome notes duplicateNoteBehavior sidebarId)
      as [[Hmiss Hr]|[[Hm Hr]|(n & _ & _ & Hr)]]; rewrite Hr.
    + tauto.
    + split; [discriminate|]. intros Hmiss.
      rewrite (resolveItemId_missing notes duplicateNoteBehavior sidebarId Hmiss) in Hr.
      discriminate.
    + split; [discriminate|]. intros Hmiss.
      rewrite (resolveItemId_missing notes duplicateNoteBehavior sidebarId Hmiss) in Hr.
      discriminate.
  - intros note Hget. now apply resolveItemId_own.
  - apply resolveItemId_inherited.
  - intros resolved Hrun.
    destruct (resolveItemId_outcome notes duplicateNoteBehavior sidebarId)
      as [[_ Hr]|[[_ Hr]|(n & Hin & Hname & Hr)]]; rewrite Hr in Hrun;
      try discriminate.
    injection Hrun as <-. now exists n.
Qed.

Lemma X15_resolveItemId_witness :
  get smallGraph "a.x" = Some (plainNote "a.x" "a.x" []) ∧
  resolveItemId smallGraph None "a.x" = Done (Some "a.x") ∧
  member smallGraph "constructor" = Inherited ∧
  resolveItemId smallGraph None "constructor" = Done None.
Proof.
  split; [reflexivity|]. split.
  - exact (proj1 (proj2 (X15_resolveItemId_outcomes smallGraph None "a.x"))
             (plainNote "a.x" "a.x" []) eq_refl).
  - split; [reflexivity|].
    exact (proj1 (proj2 (proj2 (X15_resolveItemId_outcomes smallGraph None
                                  "constructor"))) eq_refl).
Defined.

(** *** [processSidebars]: shape of the result *)

(** X17: when [processSidebars] succeeds, the result has the sidebars of
    the configuration, under the same names and in the same order. *)
Theorem X17_processSidebars_keeps_names
    (isDendronError : Thrown → bool)
    (notes : NotePropsByIdDict) (duplicateNoteBehavior : option DuplicateNoteBehavior)
    (fuel : nat) (sidebars : SidebarsConfig) (resolved : Sidebars) :
  processSidebars isDendronError notes duplicateNoteBehavior fuel (ok sidebars)
  = Some (ok resolved) →
  List.map fst resolved = List.map fst sidebars.
Proof.
  intros Hrun. simpl in Hrun.
  destruct (mapM _ sidebars) as [results|] eqn:Hmap; [|discriminate].
  simpl in Hrun. injection Hrun as Hc. apply combine_ok_map in Hc. subst results.
  apply mapM_Some in Hmap. revert resolved Hmap.
  induction sidebars as [|[name sidebar] sidebars IH]; intros resolved Hmap.
  - destruct resolved; [reflexivity | inversion Hmap].
  - destruct resolved as [|[name' value] resolved]; [inversion Hmap|].
    simpl in Hmap. apply Forall2_cons in Hmap as [Hhere Hrest]. simpl in *.
    destruct (processSiderbar _ _ _ fuel sidebar) as [[v|e]|]; try discriminate.
    injection Hhere as -> _. f_equal. now apply IH.
Qed.

Lemma X17_processSidebars_witness :
  ∃ resolved,
    processSidebars anyError smallGraph None 3
      (ok [("main", [ConfigNote "b" "B"]); ("all", [ConfigAutogenerated "*"])])
    = Some (ok resolved) ∧
    List.map fst resolved = ["main"; "all"].
Proof.
  eexists. split; [reflexivity|].
  refine (X17_processSidebars_keeps_names anyError smallGraph None 3
            [("main", [ConfigNote "b" "B"]); ("all", [ConfigAutogenerated "*"])]
            _ eq_refl).
Defined.

(** X18: a configuration in which, at any depth of any sidebar, the lookup
    of some note item, category link or non-root autogeneration anchor
    finds nothing (no property of that name in the collection, of its own
    or inherited, and no note with that path) never resolves to a sidebar
    mapping, whatever the note graph and whatever errors the handler lets
    through. *)
Theorem X18_processSidebars_missing_reference_fails
    (isDendronError : Thrown → bool)
    (notes : NotePropsByIdDict) (duplicateNoteBehavior : option DuplicateNoteBehavior)
    (fuel : nat) (sidebars : SidebarsConfig) (resolved : Sidebars) :
  existsb (fun entry => existsb (hasMissingRef notes) (snd entry)) sidebars = true →
  processSidebars isDendronError notes duplicateNoteBehavior fuel (ok sidebars)
  ≠ Some (ok resolved).
Proof. intros Hmiss. now apply processSidebars_missing_never_ok. Qed.

Lemma X18_processSidebars_witness :
  processSidebars anyError smallGraph None 3
    (ok [("main", [ConfigCategory "A" [ConfigNote "gone" "Gone"] "a"])])
  ≠ Some (ok [("main", [])]).
Proof.
  apply (X18_processSidebars_missing_reference_fails anyError smallGraph None 3).
  reflexivity.
Defined.

(** *** [sortItems] leaves resolved items alone *)

Lemma hintsAbsent_pos item : hintsAbsent item = true → item_pos item = noPosition.
Proof.
  destruct item as [id label pos | label items link pos]; simpl;
    [|intros H; apply andb_true_iff in H as [H _]; revert H];
    destruct pos as [[p|] [f|] [r|]]; simpl; try discriminate; reflexivity.
Qed.

Lemma sort_hintless l :
  Forall (fun item => item_pos item = noPosition) l →
  Js.sort comparePositional l = l.
Proof.
  induction 1 as [|x l Hx Hl IH]; [reflexivity|].
  unfold Js.sort in *. simpl. rewrite IH.
  destruct Hl as [|y l Hy _]; [reflexivity|]. simpl.
  unfold comparePositional. now rewrite Hx, Hy.
Qed.

Lemma map_id_Forall {A} (f : A → A) l :
  Forall (fun x => f x = x) l → List.map f l = l.
Proof. induction 1; simpl; congruence. Qed.

Lemma stripPositional_hintless item :
  item_pos item = noPosition → stripPositional item = item.
Proof. destruct item; simpl; now intros ->. Qed.

Lemma hintless_forall items :
  forallb hintsAbsent items = true →
  Forall (fun item => item_pos item = noPosition) items.
Proof.
  intros H. apply List.Forall_forall. intros x Hx.
  apply hintsAbsent_pos. rewrite forallb_forall in H. now apply H.
Qed.

Lemma sortCategory_hintless item : hintsAbsent item = true → sortCategory item = item.
Proof.
  induction item as [id label pos | label items link pos IH]
    using SidebarItem_nested_ind; [reflexivity|].
  intros Hclean. simpl in Hclean. apply andb_true_iff in Hclean as [Hpos Hitems].
  assert (Hnone : pos = noPosition) by
    (destruct pos as [[p|] [f|] [r|]]; simpl in Hpos; try discriminate; reflexivity).
  subst pos. simpl.
  assert (Hmap : List.map sortCategory items = items).
  { apply map_id_Forall. rewrite List.Forall_forall in *.
    intros x Hx. apply IH; [exact Hx|]. rewrite forallb_forall in Hitems.
    now apply Hitems. }
  rewrite Hmap, (sort_hintless items (hintless_forall items Hitems)).
  f_equal. apply map_id_Forall.
  eapply List.Forall_impl; [|exact (hintless_forall items Hitems)].
  intros x. apply stripPositional_hintless.
Qed.

Lemma sortItems_hintless items :
  forallb hintsAbsent items = true → sortItems items = items.
Proof.
  intros Hclean. unfold sortItems.
  assert (Hmap : List.map sortCategory items = items).
  { apply map_id_Forall, List.Forall_forall. intros x Hx.
    apply sortCategory_hintless. rewrite forallb_forall in Hclean. now apply Hclean. }
  rewrite Hmap, (sort_hintless items (hintless_forall items Hclean)).
  apply map_id_Forall.
  eapply List.Forall_impl; [|exact (hintless_forall items Hclean)].
  intros x. apply stripPositional_hintless.
Qed.

(** X20: [sortItems] is idempotent, and it returns unchanged any list of
    items that carry no positional hint at any depth: without hints all
    keys are undefined and the stable sort keeps the given order. *)
Theorem X20_sortItems_idempotent (items : list SidebarItem) :
  sortItems (sortItems items) = sortItems items ∧
  (forallb hintsAbsent items = true → sortItems items = items).
Proof.
  split; [|apply sortItems_hintless].
  apply sortItems_hintless. apply forallb_forall. intros x Hx.
  unfold sortItems in Hx. apply in_map_iff in Hx as (y & <- & Hy).
  apply sort_In, in_map_iff in Hy as (i & <- & Hi).
  apply stripPositional_sortCategory_hintsAbsent.
Qed.

Lemma X20_sortItems_witness :
  let items := [ItemNote (Some "z") (Some "Z") noPosition;
                ItemNote (Some "a") (Some "A") noPosition] in
  sortItems items = items.
Proof.
  intros items. apply (proj2 (X20_sortItems_idempotent items)). reflexivity.
Defined.

(** *** From the resolver to the tree menu *)

(** The references of a configuration, in all its sidebars. *)
Definition refsOfSidebars (sidebars : SidebarsConfig) : list string :=
  flat_map (fun entry => flat_map refsOf (snd entry)) sidebars.

(** The reference is found as a note or not at all: it is not a mere name
    of a member every object inherits. *)
Definition notInherited (notes : NotePropsByIdDict) (ref : string) : Prop :=
  member notes ref ≠ Inherited.

Lemma omap_id_Forall {A} (f : A → option A) l :
  Forall (fun x => f x = Some x) l → omap f l = l.
Proof.
  induction 1 as [|x l Hx _ IH]; [reflexivity|].
  change (omap f (x :: l)) with (match f x with
                                 | Some y => y :: omap f l
                                 | None => omap f l
                                 end).
  now rewrite Hx, IH.
Qed.

Lemma flatMapM_Done_forallb {A B} (f : A → outcome (list B)) (p : B → bool) l : ∀ k,
  (∀ x y, In x l → f x = Done y → forallb p y = true) →
  Sidebars.flatMapM f l = Done k → forallb p k = true.
Proof.
  induction l as [|x l IH]; intros k Hf; simpl; [now intros [= <-]|].
  destruct (f x) as [first| |] eqn:Hx; simpl; try discriminate.
  destruct (Sidebars.flatMapM f l) as [others| |] eqn:Hl; simpl; try discriminate.
  intros [= <-]. rewrite forallb_app.
  rewrite (Hf x first (or_introl eq_refl) Hx). simpl.
  apply IH; [|reflexivity]. intros x' y Hin. apply Hf. now right.
Qed.

Section ResolvedSidebars.
Variable isDendronError : Thrown → bool.
Variable notes : NotePropsByIdDict.
Variable duplicateNoteBehavior : option DuplicateNoteBehavior.
Hypothesis ids_ok : idsConsistent notes.

(** The id is there and is the id of a note of the collection. *)
Definition resolvedId (id : option string) : bool :=
  match id with
  | Some noteId => bool_decide (is_Some (get notes noteId))
  | None => false
  end.

(** The note the item points to is in the collection, and so are the notes
    of the items nested in it. *)
Fixpoint allResolved (item : SidebarItem) : bool :=
  match item with
  | ItemNote id _ _ => resolvedId id
  | ItemCategory _ items link _ => resolvedId link && forallb allResolved items
  end.

(** The note id an item points to. *)
Definition itemRef (item : SidebarItem) : option string :=
  match item with
  | ItemNote id _ _ => id
  | ItemCategory _ _ link _ => link
  end.

Lemma resolvedId_Own id :
  resolvedId id = true →
  ∃ noteId note, id = Some noteId ∧ get notes noteId = Some note ∧
                 member notes (propertyKey id) = Own note.
Proof.
  destruct id as [noteId|]; [|discriminate]. simpl.
  intros H. apply bool_decide_eq_true in H as [note Hget].
  exists noteId, note. split; [reflexivity|]. split; [exact Hget|].
  now apply member_get.
Qed.

Lemma allResolved_itemToNote item :
  allResolved item = true →
  ∃ noteId note, itemRef item = Some noteId ∧ get notes noteId = Some note ∧
                 itemToNote notes item = Own note.
Proof.
  destruct item as [id label pos | label items link pos]; simpl.
  - apply resolvedId_Own.
  - intros H. apply andb_true_iff in H as [Hlink _]. now apply resolvedId_Own.
Qed.

Lemma allResolved_prune item : allResolved item = true → pruneItem notes item = Some item.
Proof.
  induction item as [id label pos | label items link pos IH]
    using SidebarItem_nested_ind; intros Hall;
    destruct (allResolved_itemToNote _ Hall) as (noteId & note & _ & _ & Hnote).
  - simpl in *. now rewrite Hnote.
  - simpl in Hall. apply andb_true_iff in Hall as [_ Hitems].
    simpl in *. rewrite Hnote. do 2 f_equal.
    apply omap_id_Forall. rewrite List.Forall_forall in *.
    intros x Hx. apply IH; [exact Hx|]. rewrite forallb_forall in Hitems.
    now apply Hitems.
Qed.

Lemma allResolved_readsNotes item : allResolved item = true → readsNotes notes item = true.
Proof.
  induction item as [id label pos | label items link pos IH]
    using SidebarItem_nested_ind; intros Hall;
    destruct (allResolved_itemToNote _ Hall) as (noteId & note & _ & _ & Hnote).
  - simpl in *. now rewrite Hnote.
  - simpl in Hall. apply andb_true_iff in Hall as [_ Hitems].
    simpl in *. rewrite Hnote. apply forallb_forall. intros x Hx.
    rewrite List.Forall_forall in IH. apply IH; [exact Hx|].
    rewrite forallb_forall in Hitems. now apply Hitems.
Qed.

Lemma allResolved_strip item : allResolved (stripPositional item) = allResolved item.
Proof. now destruct item. Qed.

Lemma allResolved_sortCategory item :
  allResolved item = true → allResolved (sortCategory item) = true.
Proof.
  induction item as [id label pos | label items link pos IH]
    using SidebarItem_nested_ind; [trivial|].
  simpl. intros H. apply andb_true_iff in H as [Hlink Hitems].
  apply andb_true_iff. split; [exact Hlink|].
  apply forallb_forall. intros x Hx.
  assert (Hin : In x (List.map stripPositional
                        (Js.sort comparePositional (List.map sortCategory items)))).
  { destruct (reverse pos) as [[|]|]; [now apply in_rev | exact Hx | exact Hx]. }
  apply in_map_iff in Hin as (y & <- & Hy). rewrite allResolved_strip.
  apply sort_In, in_map_iff in Hy as (i & <- & Hi).
  rewrite List.Forall_forall in IH. apply IH; [exact Hi|].
  rewrite forallb_forall in Hitems. now apply Hitems.
Qed.

Lemma allResolved_sortItems items :
  forallb allResolved items = true → forallb allResolved (sortItems items) = true.
Proof.
  intros H. apply forallb_forall. intros x Hx. unfold sortItems in Hx.
  apply in_map_iff in Hx as (y & <- & Hy). rewrite allResolved_strip.
  apply sort_In, in_map_iff in Hy as (i & <- & Hi).
  apply allResolved_sortCategory. rewrite forallb_forall in H. now apply H.
Qed.

Lemma generateSidebar_allResolved fuel : ∀ noteIds items,
  generateSidebar notes fuel noteIds = Done items →
  forallb allResolved items = true.
Proof.
  induction fuel as [|fuel IH]; intros noteIds items Hrun; [discriminate|].
  rewrite generateSidebar_unfold in Hrun.
  destruct (mapM (itemOfNote notes fuel) noteIds) as [maybeItems| |] eqn:Hmap;
    try discriminate.
  simpl in Hrun. injection Hrun as <-.
  apply forallb_forall. intros item Hin.
  apply list_elem_of_In, list_elem_of_omap in Hin as (maybeItem & Hin & Hsome).
  simpl in Hsome. subst maybeItem. apply list_elem_of_In in Hin.
  destruct (mapM_outcome_source _ _ _ _ Hmap Hin) as (noteId & _ & Hitem).
  destruct (itemOfNote_Done _ _ _ _ Hitem) as (note & Hget & Hcases).
  rewrite Hcases in Hitem.
  assert (Hpresent : resolvedId (Some (note_id note)) = true).
  { simpl. apply bool_decide_eq_true.
    rewrite (get_note_id notes noteId note ids_ok Hget), Hget. eauto. }
  destruct (note_children note) as [|kid kids].
  - injection Hitem as <-. exact Hpresent.
  - destruct (generateSidebar notes fuel (kid :: kids)) as [nested| |] eqn:Hrec;
      try discriminate.
    simpl in Hitem. injection Hitem as <-.
    change (resolvedId (Some (note_id note)) && forallb allResolved nested = true).
    rewrite Hpresent. now apply (IH (kid :: kids)).
Qed.

Lemma resolveItemId_present sidebarId resolved :
  notInherited notes sidebarId →
  resolveItemId notes duplicateNoteBehavior sidebarId = Done resolved →
  resolvedId resolved = true.
Proof.
  intros Hplain.
  destruct (resolveItemId_outcome notes duplicateNoteBehavior sidebarId)
    as [[_ Hr]|[[Hm _]|(n & Hin & _ & Hr)]]; [rewrite Hr; discriminate | easy |].
  rewrite Hr. intros [= <-]. simpl. apply bool_decide_eq_true.
  now apply In_values_get.
Qed.

Lemma findHierarchySources_present anchor sources :
  resolvedId anchor = true ∨ anchor = Some ROOT_KEYWORD →
  findHierarchySources notes anchor = Done sources →
  ∃ noteIds, sources = Some noteIds.
Proof.
  unfold findHierarchySources. intros Hanchor.
  case_bool_decide as Hroot; [intros [= <-]; eauto|].
  destruct Hanchor as [Hres|Hanchor]; [|contradiction].
  destruct (resolvedId_Own anchor Hres) as (noteId & note & _ & _ & ->).
  intros [= <-]. eauto.
Qed.

Lemma processItem_allResolved fuel item : ∀ items,
  Forall (notInherited notes) (refsOf item) →
  processItem notes duplicateNoteBehavior fuel item = Done items →
  forallb allResolved items = true.
Proof.
  induction item as [id label | id | label nested link IH]
    using SidebarItemConfig_nested_ind; intros items Hrefs Hrun.
  - simpl in Hrun. apply Forall_cons in Hrefs as [Hid _].
    destruct (resolveItemId notes duplicateNoteBehavior id) as [r| |] eqn:Hr;
      try discriminate.
    simpl in Hrun. injection Hrun as <-. simpl. rewrite andb_true_r.
    now apply (resolveItemId_present id).
  - simpl in Hrun. apply Forall_cons in Hrefs as [Hid _].
    assert (Hgen : ∃ anchor,
              (resolvedId anchor = true ∨ anchor = Some ROOT_KEYWORD) ∧
              defaultSidebarItemsGenerator notes fuel anchor = Done items).
    { destruct (String.eqb_spec id ROOT_KEYWORD) as [->|Hne]; simpl in Hrun;
        [exists (Some ROOT_KEYWORD); auto|].
      destruct (resolveItemId notes duplicateNoteBehavior id) as [r| |] eqn:Hr;
        try discriminate.
      simpl in Hrun. exists r. split; [left; now apply (resolveItemId_present id) | exact Hrun]. }
    destruct Hgen as (anchor & Hanchor & Hgen).
    unfold defaultSidebarItemsGenerator in Hgen.
    destruct (findHierarchySources notes anchor) as [sources| |] eqn:Hsrc;
      try discriminate.
    destruct (findHierarchySources_present anchor sources Hanchor Hsrc)
      as [noteIds ->].
    simpl in Hgen.
    destruct (generateSidebar notes fuel noteIds) as [generated| |] eqn:Hrec;
      try discriminate.
    simpl in Hgen. injection Hgen as <-.
    apply allResolved_sortItems. now apply (generateSidebar_allResolved fuel noteIds).
  - rewrite processItem_category in Hrun.
    simpl in Hrefs. apply Forall_cons in Hrefs as [Hlink Hnested].
    destruct (resolveItemId notes duplicateNoteBehavior link) as [r| |] eqn:Hr;
      try discriminate.
    simpl in Hrun.
    destruct (flatMapM (processItem notes duplicateNoteBehavior fuel) nested)
      as [inner| |] eqn:Hwalk; try discriminate.
    simpl in Hrun. injection Hrun as <-. simpl. rewrite andb_true_r.
    apply andb_true_iff. split; [now apply (resolveItemId_present link)|].
    apply (flatMapM_Done_forallb
             (processItem notes duplicateNoteBehavior fuel) allResolved nested inner);
      [|exact Hwalk].
    intros x y Hin. rewrite List.Forall_forall in IH. apply IH; [exact Hin|].
    rewrite List.Forall_forall in *. intros ref Href. apply Hnested.
    apply in_flat_map. now exists x.
Qed.

Lemma processSiderbar_allResolved fuel sidebar value :
  Forall (notInherited notes) (flat_map refsOf sidebar) →
  processSiderbar isDendronError notes duplicateNoteBehavior fuel sidebar
  = Some (ok value) →
  forallb allResolved value = true.
Proof.
  intros Hrefs Hrun. unfold processSiderbar in Hrun.
  destruct (mapM _ sidebar) as [results|] eqn:Hmap; [|discriminate].
  simpl in Hrun. destruct (combine results) as [vs|e] eqn:Hc; [|discriminate].
  simpl in Hrun. injection Hrun as <-. apply combine_ok_map in Hc. subst results.
  apply forallb_forall. intros item Hin. apply in_concat in Hin as (v & Hv & Hitem).
  destruct (mapM_option_In_result _ _ _ Hmap (ok v)) as (cfg & Hcfgin & Hcfg);
    [apply in_map_iff; now exists v|].
  unfold safeProcessItem in Hcfg.
  destruct (processItem _ _ fuel cfg) as [v'|thrown|] eqn:Hp; try discriminate.
  injection Hcfg as ->.
  assert (Hall : forallb allResolved v = true).
  { apply (processItem_allResolved fuel cfg v); [|exact Hp].
    rewrite List.Forall_forall in *. intros ref Href. apply Hrefs.
    apply in_flat_map. now exists cfg. }
  rewrite forallb_forall in Hall. now apply Hall.
Qed.

Lemma processSidebars_allResolved fuel sidebars resolved :
  Forall (notInherited notes) (refsOfSidebars sidebars) →
  processSidebars isDendronError notes duplicateNoteBehavior fuel (ok sidebars)
  = Some (ok resolved) →
  ∀ name sidebar, In (name, sidebar) resolved → forallb allResolved sidebar = true.
Proof.
  intros Hrefs Hrun name sidebar Hin. simpl in Hrun.
  destruct (mapM _ sidebars) as [results|] eqn:Hmap; [|discriminate].
  simpl in Hrun. injection Hrun as Hc. apply combine_ok_map in Hc. subst results.
  destruct (mapM_option_In_result _ _ _ Hmap (ok (name, sidebar)))
    as ([name' cfg] & Hcfgin & Hcfg); [apply in_map_iff; now exists (name, sidebar)|].
  simpl in Hcfg.
  destruct (processSiderbar _ _ _ fuel cfg) as [[value|e]|] eqn:Hp; try discriminate.
  injection Hcfg as _ ->. apply (processSiderbar_allResolved fuel cfg); [|exact Hp].
  rewrite List.Forall_forall in *. intros ref Href. apply Hrefs.
  unfold refsOfSidebars. apply in_flat_map. now exists (name', cfg).
Qed.

Lemma itemToTreeMenuNode_key getName item parent ix r :
  allResolved item = true →
  itemToTreeMenuNode getName notes item parent ix = Done r →
  ∃ node, fst r = Some node ∧ Some (key node) = itemRef item.
Proof.
  intros Hall Hrun.
  destruct (allResolved_itemToNote item Hall) as (noteId & note & Href & Hget & Hnote).
  rewrite Href, <- (get_note_id notes noteId note ids_ok Hget).
  destruct item as [id label pos | label nested link pos].
  - simpl in Hrun, Hnote. rewrite Hnote in Hrun. injection Hrun as <-.
    simpl. eauto.
  - rewrite (itemToTreeMenuNode_category _ _ _ _ _ _ _ _ note Hnote) in Hrun.
    destruct (mapItems _ nested _) as [rs| |]; try discriminate.
    rewrite outcome_bind_Done in Hrun. injection Hrun as <-. simpl. eauto.
Qed.

Lemma mapItems_keys getName parent items : ∀ ix r,
  forallb allResolved items = true →
  mapItems (fun item => itemToTreeMenuNode getName notes item parent) items ix = Done r →
  List.map (fun node => Some (key node)) (fst r) = List.map itemRef items.
Proof.
  induction items as [|item items IH]; intros ix r Hall Hrun.
  - simpl in Hrun. now injection Hrun as <-.
  - simpl in Hall. apply andb_true_iff in Hall as [Hitem Hrest].
    rewrite mapItems_cons in Hrun.
    destruct (itemToTreeMenuNode getName notes item parent ix) as [r1| |] eqn:Hnode;
      try discriminate.
    rewrite outcome_bind_Done in Hrun.
    destruct (mapItems _ items (snd r1)) as [rs| |] eqn:Hitems; try discriminate.
    rewrite outcome_bind_Done in Hrun. injection Hrun as <-.
    destruct (itemToTreeMenuNode_key getName item parent ix r1 Hitem Hnode)
      as (node & Hfst & Hkey).
    simpl. rewrite Hfst. simpl. rewrite Hkey. f_equal.
    now apply (IH (snd r1)).
Qed.

End ResolvedSidebars.

(** X19: over a note collection in which every note is stored under its own
    id, and for a configuration none of whose references is a mere name of
    an inherited member, a sidebar mapping returned by [processSidebars]
    only points to notes of the collection, at every depth; handed to
    [generateTreeData] with the same notes, it yields a tree menu, none of
    its items is dropped, and the roots of the tree menu are the top-level
    items of the first sidebar, in order. *)
Theorem X19_resolved_sidebars_build_completely
    (isDendronError : Thrown → bool)
    (getName : DVault → string) (notes : NotePropsByIdDict)
    (duplicateNoteBehavior : option DuplicateNoteBehavior)
    (fuel : nat) (sidebars : SidebarsConfig) (resolved : Sidebars) :
  idsConsistent notes →
  Forall (notInherited notes) (refsOfSidebars sidebars) →
  processSidebars isDendronError notes duplicateNoteBehavior fuel (ok sidebars)
  = Some (ok resolved) →
  (∀ name sidebar, In (name, sidebar) resolved →
     forallb (allResolved notes) sidebar = true) ∧
  pruneSidebars notes resolved = resolved ∧
  ∃ menu,
    generateTreeData getName notes resolved = Done menu ∧
    List.map (fun node => Some (key node)) (roots menu)
    = match resolved with
      | [] => []
      | (_, sidebar) :: _ => List.map itemRef sidebar
      end.
Proof.
  intros Hids Hrefs Hrun.
  pose proof (processSidebars_allResolved isDendronError notes duplicateNoteBehavior
                Hids fuel sidebars resolved Hrefs Hrun) as Hall.
  split; [exact Hall|]. split.
  - unfold pruneSidebars. apply map_id_Forall, List.Forall_forall.
    intros [name sidebar] Hin. simpl. f_equal.
    apply omap_id_Forall, List.Forall_forall. intros item Hitem.
    apply allResolved_prune. specialize (Hall name sidebar Hin).
    rewrite forallb_forall in Hall. now apply Hall.
  - destruct (generateTreeData_returns getName notes resolved) as [menu Hmenu].
    { intros name sidebar Hin. apply forallb_forall. intros item Hitem.
      apply allResolved_readsNotes. specialize (Hall name sidebar Hin).
      rewrite forallb_forall in Hall. now apply Hall. }
    exists menu. split; [exact Hmenu|].
    apply generateTreeData_first in Hmenu.
    destruct resolved as [|[name sidebar] rest]; [now subst menu|].
    unfold buildSidebar in Hmenu.
    destruct (mapItems _ sidebar _) as [rs| |] eqn:Hitems; try discriminate.
    rewrite outcome_bind_Done in Hmenu. injection Hmenu as <-. simpl.
    apply (mapItems_keys notes Hids getName None sidebar _ rs
             (Hall name sidebar (or_introl eq_refl)) Hitems).
Qed.

Lemma smallGraph_consistent : idsConsistent smallGraph.
Proof.
  intros k n Hin. simpl in Hin.
  destruct Hin as [[= <- <-]|[[= <- <-]|[[= <- <-]|[[= <- <-]|[]]]]]; reflexivity.
Qed.

Lemma X19_resolved_sidebars_witness :
  ∃ resolved menu,
    processSidebars anyError smallGraph None 3 (ok [("all", [ConfigAutogenerated "*"])])
    = Some (ok resolved) ∧
    generateTreeData vault_name_or_path smallGraph resolved = Done menu ∧
    List.map (fun node => Some (key node)) (roots menu) = [Some "a"; Some "b"].
Proof.
  assert (Hrefs : Forall (notInherited smallGraph)
                    (refsOfSidebars [("all", [ConfigAutogenerated "*"])])).
  { repeat constructor. discriminate. }
  destruct (proj2 (proj2 (X19_resolved_sidebars_build_completely anyError
              vault_name_or_path smallGraph None 3
              [("all", [ConfigAutogenerated "*"])] _ smallGraph_consistent Hrefs
              eq_refl))) as (menu & Hmenu & Hroots).
  eexists. exists menu. split; [reflexivity|]. split; [exact Hmenu | exact Hroots].
Defined.

(** *** What [getAllParents] returns *)

Lemma parentChain_functional (m : gmap string (option string)) k l :
  parentChain m k l → ∀ l', parentChain m k l' → l = l'.
Proof.
  induction 1 as [k Hend | k p l Hp _ IH]; intros l' Hl';
    inversion Hl' as [k' Hend' | k' p' l'' Hp' Hrest]; subst; try congruence.
  assert (p' = p) by congruence. subst p'. f_equal. now apply IH.
Qed.

Lemma parentChain_member (m : gmap string (option string)) k l :
  parentChain m k l → ∀ x, In x l →
  ∃ l', parentChain m x l' ∧ (length l' < length l)%nat.
Proof.
  induction 1 as [k Hend | k p l Hp Hchain IH]; intros x Hin; [destruct Hin|].
  apply in_app_or in Hin as [Hin|[<-|[]]].
  - destruct (IH x Hin) as (l' & Hl' & Hlen). exists l'. split; [exact Hl'|].
    rewrite length_app. simpl. lia.
  - exists l. split; [exact Hchain|]. rewrite length_app. simpl. lia.
Qed.

Lemma parentChain_not_self (m : gmap string (option string)) k l :
  parentChain m k l → ¬ In k l.
Proof.
  intros Hchain Hin. destruct (parentChain_member m k l Hchain k Hin) as (l' & Hl' & Hlen).
  rewrite (parentChain_functional m k l Hchain l' Hl') in Hlen. lia.
Qed.

Lemma parentChain_NoDup (m : gmap string (option string)) k l :
  parentChain m k l → NoDup l.
Proof.
  induction 1 as [k Hend | k p l Hp Hchain IH]; [constructor|].
  apply NoDup_app. split; [exact IH|]. split; [|apply NoDup_singleton].
  intros x Hx Hxp. apply list_elem_of_singleton in Hxp. subst x.
  apply list_elem_of_In in Hx. now apply (parentChain_not_self m p l).
Qed.

Lemma parentChain_ends (m : gmap string (option string)) k l :
  parentChain m k l →
  last l = truthyParent (m !! k) ∧
  match head l with
  | Some top => truthyParent (m !! top) = None
  | None => truthyParent (m !! k) = None
  end.
Proof.
  induction 1 as [k Hend | k p l Hp Hchain [_ IH]]; [now rewrite Hend|].
  rewrite last_snoc, Hp. split; [reflexivity|].
  destruct l as [|top l]; simpl in *; exact IH.
Qed.

(** X7: the chain returned by [getAllParents] never repeats a note and never
    holds the note it was asked for; it ends with the direct parent of that
    note and starts with a note that has no parent. It is empty exactly
    when the note has no parent. *)
Theorem X7_getAllParents_chain_shape
    (fuel : nat) (child2parent : gmap string (option string)) (noteId : string)
    (ancestors : list string) :
  getAllParents fuel child2parent noteId = Some ancestors →
  NoDup ancestors ∧ ¬ In noteId ancestors ∧
  last ancestors = truthyParent (child2parent !! noteId) ∧
  match head ancestors with
  | Some top => truthyParent (child2parent !! top) = None
  | None => truthyParent (child2parent !! noteId) = None
  end.
Proof.
  intros Hrun. unfold getAllParents in Hrun.
  apply getAllParents_loop_sound in Hrun as (l & Hchain & ->).
  rewrite app_nil_r.
  split; [now apply (parentChain_NoDup child2parent noteId)|].
  split; [now apply (parentChain_not_self child2parent)|].
  now apply parentChain_ends.
Qed.

Lemma X7_getAllParents_witness :
  getAllParents 3 chainParents "c" = Some ["a"; "b"] ∧
  NoDup ["a"; "b"] ∧ ¬ In "c" ["a"; "b"].
Proof.
  assert (Hrun : getAllParents 3 chainParents "c" = Some ["a"; "b"]) by reflexivity.
  split; [exact Hrun|].
  destruct (X7_getAllParents_chain_shape 3 chainParents "c" ["a"; "b"] Hrun)
    as (Hnd & Hself & _).
  split; assumption.
Defined.

(** *** Resolution over a well-formed note graph *)

Lemma flatMapM_all_Done {A B} (f : A → outcome (list B)) l :
  (∀ x, In x l → ∃ y, f x = Done y) → ∃ k, flatMapM f l = Done k.
Proof.
  induction l as [|x l IH]; intros Hf; [now exists []|].
  destruct (Hf x (or_introl eq_refl)) as [y Hy].
  destruct (IH (fun x' Hin => Hf x' (or_intror Hin))) as [k Hk].
  exists (y ++ k). simpl. rewrite Hy. simpl. now rewrite Hk.
Qed.

Lemma combine_map_ok {E A} (vs : list A) : combine (List.map (@ok E A) vs) = ok vs.
Proof. induction vs as [|v vs IH]; simpl; [reflexivity | now rewrite IH]. Qed.

Lemma mapM_option_all_ok {A E B} (f : A → option (Result E B)) l :
  (∀ x, In x l → ∃ v, f x = Some (ok v)) →
  ∃ vs, mapM f l = Some (List.map ok vs).
Proof.
  induction l as [|x l IH]; intros Hf; [now exists []|].
  destruct (Hf x (or_introl eq_refl)) as [v Hv].
  destruct (IH (fun x' Hin => Hf x' (or_intror Hin))) as [vs Hvs].
  exists (v :: vs). simpl. rewrite Hv. simpl. now rewrite Hvs.
Qed.

(** Every child pointer leads to a note of strictly smaller rank: the
    children relation has no cycle. *)
Definition childrenRanked (notes : NotePropsByIdDict) (rank : string → nat) : Prop :=
  ∀ noteId note child,
    get notes noteId = Some note → In child (note_children note) →
    (rank child < rank noteId)%nat.

(** Fuel that covers the deepest note. *)
Definition enoughFuel (notes : NotePropsByIdDict) (rank : string → nat) : nat :=
  S (list_max (List.map rank (keys notes))).

Lemma rank_bound notes (rank : string → nat) noteId :
  is_Some (get notes noteId) → (rank noteId ≤ list_max (List.map rank (keys notes)))%nat.
Proof.
  intros Hpresent. apply get_Some_key in Hpresent.
  assert (Hall := proj1 (list_max_le (List.map rank (keys notes)) _) (Nat.le_refl _)).
  rewrite List.Forall_forall in Hall. apply Hall, in_map_iff. now exists noteId.
Qed.

Lemma generateSidebar_succeeds notes rank n :
  childrenClosed notes → childrenRanked notes rank →
  ∀ noteIds,
  (∀ noteId, In noteId noteIds →
     is_Some (get notes noteId) ∧ (rank noteId ≤ n)%nat) →
  ∃ items, generateSidebar notes (S n) noteIds = Done items.
Proof.
  intros closed ranked.
  induction n as [|n IH]; intros noteIds Hids; rewrite generateSidebar_unfold.
  - destruct (mapM_outcome_all_Done (itemOfNote notes 0) noteIds) as [k Hk].
    + intros noteId Hin. destruct (Hids noteId Hin) as [[note Hget] Hrank].
      rewrite (itemOfNote_cases notes 0 noteId note Hget).
      destruct (note_children note) as [|kid kids] eqn:Hkids; simpl; [eauto|].
      exfalso. assert (rank kid < rank noteId)%nat; [|lia].
      apply (ranked noteId note kid Hget). rewrite Hkids. now left.
    + rewrite Hk. simpl. eauto.
  - destruct (mapM_outcome_all_Done (itemOfNote notes (S n)) noteIds) as [k Hk].
    + intros noteId Hin. destruct (Hids noteId Hin) as [[note Hget] Hrank].
      destruct (IH (note_children note)) as [items Hitems].
      * intros child Hchild. split.
        -- apply (closed note child); [now apply (get_In_values notes noteId)|exact Hchild].
        -- pose proof (ranked noteId note child Hget Hchild). lia.
      * rewrite (itemOfNote_cases notes (S n) noteId note Hget), Hitems.
        destruct (note_children note); simpl; eauto.
    + rewrite Hk. simpl. eauto.
Qed.

Lemma generateSidebar_succeeds_present notes rank noteIds :
  childrenClosed notes → childrenRanked notes rank →
  (∀ noteId, In noteId noteIds → is_Some (get notes noteId)) →
  ∃ items, generateSidebar notes (enoughFuel notes rank) noteIds = Done items.
Proof.
  intros closed ranked Hpresent.
  apply (generateSidebar_succeeds notes rank); try assumption.
  intros noteId Hin.
  split; [now apply Hpresent | apply rank_bound; now apply Hpresent].
Qed.

Section WellFormedGraph.
Variable isDendronError : Thrown → bool.
Variable notes : NotePropsByIdDict.
Variable duplicateNoteBehavior : option DuplicateNoteBehavior.
Variable rank : string → nat.

Hypothesis ids_ok : idsConsistent notes.
Hypothesis closed : childrenClosed notes.
Hypothesis ranked : childrenRanked notes rank.

Lemma generator_succeeds_root :
  ∃ items, defaultSidebarItemsGenerator notes (enoughFuel notes rank)
             (Some ROOT_KEYWORD) = Done items.
Proof.
  unfold defaultSidebarItemsGenerator.
  rewrite findHierarchySources_root, outcome_bind_Done.
  destruct (generateSidebar_succeeds_present notes rank
              (List.map note_id (List.filter isTopLevelNote (values notes)))
              closed ranked)
    as [items Hitems].
  - intros noteId Hin. apply in_map_iff in Hin as (n & <- & Hn).
    apply filter_In in Hn as [Hn _]. now apply In_values_get.
  - rewrite Hitems, outcome_fmap_Done. eauto.
Qed.

Lemma generator_succeeds_note n :
  In n (values notes) →
  ∃ items, defaultSidebarItemsGenerator notes (enoughFuel notes rank)
             (Some (note_id n)) = Done items.
Proof.
  intros Hin. destruct (String.eqb_spec (note_id n) ROOT_KEYWORD) as [->|Hne];
    [apply generator_succeeds_root|].
  unfold defaultSidebarItemsGenerator, findHierarchySources.
  rewrite bool_decide_eq_false_2 by congruence.
  destruct (In_values_get notes n ids_ok Hin) as [note Hget].
  change (propertyKey (Some (note_id n))) with (note_id n).
  rewrite (member_get _ _ _ Hget), outcome_bind_Done.
  destruct (generateSidebar_succeeds_present notes rank (note_children note)
              closed ranked) as [items Hitems].
  - intros child Hchild.
    apply (closed note child); [now apply (get_In_values notes (note_id n)) | exact Hchild].
  - rewrite Hitems, outcome_fmap_Done. eauto.
Qed.

Lemma resolveItemId_succeeds sidebarId :
  isMissing notes sidebarId = false →
  (∃ n, In n (values notes) ∧
        resolveItemId notes duplicateNoteBehavior sidebarId
        = Done (Some (note_id n))) ∨
  (member notes sidebarId = Inherited ∧
   resolveItemId notes duplicateNoteBehavior sidebarId = Done None).
Proof.
  intros Hfound.
  destruct (resolveItemId_outcome notes duplicateNoteBehavior sidebarId)
    as [[Hmiss _]|[H|(n & Hin & _ & Hr)]]; [congruence | now right | left; eauto].
Qed.

Lemma processItem_succeeds item :
  Forall (notInherited notes) (refsOf item) →
  hasMissingRef notes item = false →
  ∃ items, processItem notes duplicateNoteBehavior (enoughFuel notes rank) item
           = Done items.
Proof.
  induction item as [id label | id | label nested link IH]
    using SidebarItemConfig_nested_ind; intros Hrefs Hfound.
  - simpl in *.
    destruct (resolveItemId_succeeds id Hfound) as [(n & _ & Hr)|[_ Hr]];
      rewrite Hr; simpl; eauto.
  - simpl in *. apply Forall_cons in Hrefs as [Hid _].
    destruct (String.eqb id ROOT_KEYWORD) eqn:Hroot; simpl in *.
    + apply String.eqb_eq in Hroot. subst id. apply generator_succeeds_root.
    + destruct (resolveItemId_succeeds id Hfound) as [(n & Hin & Hr)|[Hm _]];
        [|contradiction].
      rewrite Hr. simpl. now apply generator_succeeds_note.
  - rewrite processItem_category. simpl in Hfound, Hrefs.
    apply Forall_cons in Hrefs as [_ Hnested_refs].
    apply orb_false_iff in Hfound as [Hlink Hnested].
    assert (Hr : ∃ linkId, resolveItemId notes duplicateNoteBehavior link = Done linkId)
      by (destruct (resolveItemId_succeeds link Hlink) as [(n & _ & Hr)|[_ Hr]]; eauto).
    destruct Hr as [linkId Hr]. rewrite Hr. simpl.
    destruct (flatMapM_all_Done
                (processItem notes duplicateNoteBehavior (enoughFuel notes rank)) nested)
      as [inner Hinner].
    + intros x Hx. rewrite List.Forall_forall in IH. apply IH; [exact Hx| |].
      * rewrite List.Forall_forall in *. intros ref Href. apply Hnested_refs.
        apply in_flat_map. now exists x.
      * destruct (hasMissingRef notes x) eqn:Hmiss; [|reflexivity].
        assert (existsb (hasMissingRef notes) nested = true)
          by (apply existsb_exists; now exists x).
        congruence.
    + rewrite Hinner. simpl. eauto.
Qed.

Lemma processSiderbar_succeeds sidebar :
  Forall (notInherited notes) (flat_map refsOf sidebar) →
  existsb (hasMissingRef notes) sidebar = false →
  ∃ value, processSiderbar isDendronError notes duplicateNoteBehavior
             (enoughFuel notes rank) sidebar
           = Some (ok value).
Proof.
  intros Hrefs Hfound. unfold processSiderbar.
  destruct (mapM_option_all_ok
              (safeProcessItem isDendronError notes duplicateNoteBehavior
                 (enoughFuel notes rank)) sidebar)
    as [vs Hvs].
  - intros item Hin. unfold safeProcessItem.
    destruct (processItem_succeeds item) as [items Hitems]; [| |rewrite Hitems; eauto].
    + rewrite List.Forall_forall in *. intros ref Href. apply Hrefs.
      apply in_flat_map. now exists item.
    + destruct (hasMissingRef notes item) eqn:Hmiss; [|reflexivity].
      assert (existsb (hasMissingRef notes) sidebar = true)
        by (apply existsb_exists; now exists item).
      congruence.
  - rewrite Hvs. simpl. rewrite combine_map_ok. simpl. eauto.
Qed.

Lemma processSidebars_succeeds sidebars :
  Forall (notInherited notes) (refsOfSidebars sidebars) →
  existsb (fun entry => existsb (hasMissingRef notes) (snd entry)) sidebars = false →
  ∃ resolved, processSidebars isDendronError notes duplicateNoteBehavior
                (enoughFuel notes rank) (ok sidebars)
              = Some (ok resolved).
Proof.
  intros Hrefs Hfound. simpl.
  destruct (mapM_option_all_ok
    (fun entry : string * SidebarConfig =>
       sidebarResult ← processSiderbar isDendronError notes duplicateNoteBehavior
                         (enoughFuel notes rank) (snd entry);
       Some (match sidebarResult with
             | ok value => ok (fst entry, value)
             | err e => err e
             end)) sidebars) as [vs Hvs].
  - intros [name sidebar] Hin. simpl.
    destruct (processSiderbar_succeeds sidebar) as [value Hvalue];
      [| |rewrite Hvalue; simpl; eauto].
    + rewrite List.Forall_forall in *. intros ref Href. apply Hrefs.
      unfold refsOfSidebars. apply in_flat_map. now exists (name, sidebar).
    + destruct (existsb (hasMissingRef notes) sidebar) eqn:Hmiss; [|reflexivity].
      assert (existsb (fun entry => existsb (hasMissingRef notes) (snd entry)) sidebars
              = true) by (apply existsb_exists; now exists (name, sidebar)).
      congruence.
  - rewrite Hvs. simpl. rewrite combine_map_ok. eauto.
Qed.

End WellFormedGraph.

(** X8: over a note graph whose child pointers all name notes of the
    collection and lead to notes of strictly smaller rank (no cycle),
    [generateSidebar] returns a list of items for every list of ids of notes
    of the collection, given fuel for the deepest note. *)
Theorem X8_generateSidebar_succeeds_on_closed_graph
    (notes : NotePropsByIdDict) (rank : string → nat) (noteIds : list string) :
  childrenClosed notes → childrenRanked notes rank →
  (∀ noteId, In noteId noteIds → is_Some (get notes noteId)) →
  ∃ items, generateSidebar notes (enoughFuel notes rank) noteIds = Done items.
Proof. intros Hclosed Hranked. now apply generateSidebar_succeeds_present. Qed.

(** X21: over a note graph in which every note is stored under its own id,
    every child pointer names a note of the collection and the children
    relation has no cycle, and for a configuration none of whose references
    is a mere name of an inherited member, [processSidebars] (given fuel
    for the deepest note) returns a sidebar mapping exactly when the lookup
    of every note item, category link and non-root autogeneration anchor of
    the configuration finds a note. *)
Theorem X21_processSidebars_succeeds_iff_references_resolve
    (isDendronError : Thrown → bool)
    (notes : NotePropsByIdDict) (duplicateNoteBehavior : option DuplicateNoteBehavior)
    (rank : string → nat) (sidebars : SidebarsConfig) :
  idsConsistent notes → childrenClosed notes → childrenRanked notes rank →
  Forall (notInherited notes) (refsOfSidebars sidebars) →
  (∃ resolved,
     processSidebars isDendronError notes duplicateNoteBehavior
       (enoughFuel notes rank) (ok sidebars)
     = Some (ok resolved)) ↔
  existsb (fun entry => existsb (hasMissingRef notes) (snd entry)) sidebars = false.
Proof.
  intros Hids Hclosed Hranked Hrefs. split.
  - intros [resolved Hrun].
    destruct (existsb (fun entry => existsb (hasMissingRef notes) (snd entry)) sidebars)
      eqn:Hmiss; [|reflexivity].
    now contradiction (processSidebars_missing_never_ok isDendronError notes
                         duplicateNoteBehavior (enoughFuel notes rank) sidebars
                         Hmiss resolved).
  - now apply processSidebars_succeeds.
Qed.

Definition smallRank (noteId : string) : nat :=
  if String.eqb noteId "root" then 2
  else if String.eqb noteId "a" then 1
  else 0.

Lemma smallGraph_closed : childrenClosed smallGraph.
Proof.
  intros n c Hn Hc. simpl in Hn.
  destruct Hn as [<-|[<-|[<-|[<-|[]]]]]; simpl in Hc;
    repeat (destruct Hc as [<-|Hc]; [eexists; reflexivity|]); destruct Hc.
Qed.

Lemma smallGraph_ranked : childrenRanked smallGraph smallRank.
Proof.
  intros noteId note child Hget Hchild. apply get_In in Hget. simpl in Hget.
  destruct Hget as [[= <- <-]|[[= <- <-]|[[= <- <-]|[[= <- <-]|[]]]]];
    simpl in Hchild;
    repeat (destruct Hchild as [<-|Hchild]; [vm_compute; lia|]); destruct Hchild.
Qed.

Lemma X8_generateSidebar_witness :
  ∃ items,
    generateSidebar smallGraph (enoughFuel smallGraph smallRank) ["a"; "b"]
    = Done items.
Proof.
  apply (X8_generateSidebar_succeeds_on_closed_graph smallGraph smallRank ["a"; "b"]
           smallGraph_closed smallGraph_ranked).
  intros noteId [<-|[<-|[]]]; eexists; reflexivity.
Defined.

Lemma X21_processSidebars_witness :
  ∃ resolved,
    processSidebars anyError smallGraph None (enoughFuel smallGraph smallRank)
      (ok [("all", [ConfigAutogenerated "*"; ConfigNote "a.x" "X"])])
    = Some (ok resolved).
Proof.
  apply (X21_processSidebars_succeeds_iff_references_resolve anyError smallGraph None
           smallRank [("all", [ConfigAutogenerated "*"; ConfigNote "a.x" "X"])]
           smallGraph_consistent smallGraph_closed smallGraph_ranked).
  - repeat constructor; discriminate.
  - reflexivity.
Defined.
